(** * requestAPI: the request/response pipeline of the API testing client

    A shallow embedding of the two presentation shells of the repository
    (the browser form [src/App.tsx] and the mobile screen) and of the
    platform services they call ([JSON.parse], [JSON.stringify], the
    fetch-style transport, the key-value storage), followed by the
    properties of the pipeline. *)

From Stdlib Require Import ZArith NArith List String Ascii Bool Lia Sorted.
From Stdlib Require Import Reals Lra.
From stdpp Require Import base option list gmap.

Local Open Scope Z_scope.

(** ** JavaScript strings

    A JavaScript string is a sequence of 16-bit code units.  Code units are
    kept as [N]; the functions below never need the bound 2^16, so it is not
    carried around. *)

Definition jsstring : Type := list N.

Definition ch (a : ascii) : N := N_of_ascii a.

(** [js "abc"] is the JavaScript string with the code units of an ASCII
    literal. *)
Definition js (s : string) : jsstring := List.map ch (list_ascii_of_string s).

(** Truthiness of a string: a string is falsy exactly when it is empty. *)
Definition truthy (s : jsstring) : bool :=
  match s with
  | [] => false
  | _ :: _ => true
  end.

(** [a || b] on strings. *)
Definition or_else (a b : jsstring) : jsstring := if truthy a then a else b.

Definition c_tab : N := 9.
Definition c_lf : N := 10.
Definition c_ff : N := 12.
Definition c_cr : N := 13.
Definition c_space : N := 32.
Definition c_quote : N := 34.
Definition c_plus : N := 43.
Definition c_comma : N := 44.
Definition c_minus : N := 45.
Definition c_dot : N := 46.
Definition c_slash : N := 47.
Definition c_zero : N := 48.
Definition c_colon : N := 58.
Definition c_E : N := 69.
Definition c_lbracket : N := 91.
Definition c_backslash : N := 92.
Definition c_rbracket : N := 93.
Definition c_b : N := 98.
Definition c_e : N := 101.
Definition c_f : N := 102.
Definition c_n : N := 110.
Definition c_r : N := 114.
Definition c_t : N := 116.
Definition c_u : N := 117.
Definition c_lbrace : N := 123.
Definition c_rbrace : N := 125.

(** ** Numbers

    A JavaScript number is an IEEE 754 binary64 value.  A finite non-zero
    value is [(-1)^neg * m * 2^e] with [m < 2^53], and [2^52 <= m] unless
    [e = -1074] (subnormal). *)

Inductive number : Type :=
  | NaN
  | Zero (neg : bool)
  | Inf (neg : bool)
  | Fin (neg : bool) (m : positive) (e : Z).

Definition number_eqb (x y : number) : bool :=
  match x, y with
  | NaN, NaN => true
  | Zero a, Zero b => Bool.eqb a b
  | Inf a, Inf b => Bool.eqb a b
  | Fin a m e, Fin b m' e' => Bool.eqb a b && Pos.eqb m m' && Z.eqb e e'
  | _, _ => false
  end.

Definition is_finite (x : number) : bool :=
  match x with
  | Zero _ | Fin _ _ _ => true
  | NaN | Inf _ => false
  end.

(** [scaled_le q l p] decides [q * 2^l <= p] for any integer [l]. *)
Definition scaled_le (q l p : Z) : bool :=
  if 0 <=? l then q * 2 ^ l <=? p else q <=? p * 2 ^ (- l).

(** [floor (log2 (p / q))] for positive [p] and [q]. *)
Definition ilog2_ratio (p q : Z) : Z :=
  let l := Z.log2 p - Z.log2 q in
  if scaled_le q l p then l else l - 1.

(** The integer nearest to [n / d], ties to the even one. *)
Definition round_half_even (n d : Z) : Z :=
  let q := n / d in
  let r := n mod d in
  match 2 * r ?= d with
  | Lt => q
  | Gt => q + 1
  | Eq => if Z.even q then q else q + 1
  end.

(** The integer nearest to [(p / q) / 2^e], ties to the even one. *)
Definition scaled_round (p q e : Z) : Z :=
  round_half_even (if 0 <=? e then p else p * 2 ^ (- e))
                  (if 0 <=? e then q * 2 ^ e else q).

(** The Number value for the positive rational [p / q]: round to nearest,
    ties to even, overflow to infinity, underflow to zero. *)
Definition to_double (neg : bool) (p q : Z) : number :=
  let l := ilog2_ratio p q in
  let e := Z.max (l - 52) (-1074) in
  let m := scaled_round p q e in
  let m' := if m =? 2 ^ 53 then 2 ^ 52 else m in
  let e' := if m =? 2 ^ 53 then e + 1 else e in
  if m' =? 0 then Zero neg
  else if 971 <? e' then Inf neg
  else Fin neg (Z.to_pos m') e'.

(** The Number value of the decimal [mant * 10^ex], [mant >= 0]. *)
Definition decimal_to_double (neg : bool) (mant ex : Z) : number :=
  if mant =? 0 then Zero neg
  else if 0 <=? ex then to_double neg (mant * 10 ^ ex) 1
  else to_double neg mant (10 ^ (- ex)).

(** *** Reading a JSON number literal

    The value of a literal is the double nearest to the decimal it
    denotes.

    An optional minus sign; an integer part that is a single 0 or starts
    with a non-zero digit; an optional fraction (a dot and at least one
    digit); an optional exponent (e or E, an optional sign, at least one
    digit). *)

Definition is_digit (c : N) : bool := ((c_zero <=? c) && (c <=? 57))%N.

Definition digit_val (c : N) : Z := Z.of_N c - 48.

Fixpoint span_digits (s : jsstring) : jsstring * jsstring :=
  match s with
  | [] => ([], [])
  | c :: r =>
      if is_digit c then let '(ds, r') := span_digits r in (c :: ds, r')
      else ([], s)
  end.

Definition digits_val (ds : jsstring) : Z :=
  fold_left (fun acc d => acc * 10 + digit_val d) ds 0.

Definition int_part_ok (ds : jsstring) : bool :=
  match ds with
  | [] => false
  | [_] => true
  | c :: _ :: _ => negb (c =? c_zero)%N
  end.

Definition read_sign (s : jsstring) : bool * jsstring :=
  match s with
  | c :: r => if (c =? c_minus)%N then (true, r) else (false, s)
  | [] => (false, s)
  end.

Definition read_fraction (s : jsstring) : option (jsstring * jsstring) :=
  match s with
  | c :: r =>
      if (c =? c_dot)%N then
        let '(fp, r') := span_digits r in
        match fp with [] => None | _ :: _ => Some (fp, r') end
      else Some ([], s)
  | [] => Some ([], s)
  end.

Definition read_exponent (s : jsstring) : option (Z * jsstring) :=
  match s with
  | c :: r =>
      if ((c =? c_e) || (c =? c_E))%N then
        let '(eneg, r1) :=
          match r with
          | d :: r' =>
              if (d =? c_minus)%N then (true, r')
              else if (d =? c_plus)%N then (false, r')
              else (false, r)
          | [] => (false, r)
          end in
        let '(ep, r2) := span_digits r1 in
        match ep with
        | [] => None
        | _ :: _ => Some ((if eneg then - digits_val ep else digits_val ep), r2)
        end
      else Some (0, s)
  | [] => Some (0, s)
  end.

Definition parse_number (s : jsstring) : option number :=
  let '(neg, s1) := read_sign s in
  let '(ip, s2) := span_digits s1 in
  if negb (int_part_ok ip) then None else
  match read_fraction s2 with
  | None => None
  | Some (fp, s3) =>
      match read_exponent s3 with
      | Some (ex, []) =>
          Some (decimal_to_double neg (digits_val (ip ++ fp))
                  (ex - Z.of_nat (length fp)))
      | _ => None
      end
  end.

(** *** Number::toString (radix 10) *)

Definition digit_char (d : Z) : N := Z.to_N (48 + d).

(** The [k] decimal digits of [s], most significant first. *)
Fixpoint digits_of (k : nat) (s : Z) : jsstring :=
  match k with
  | O => []
  | S k' => digits_of k' (s / 10) ++ [digit_char (s mod 10)]
  end.

Fixpoint count_digits (fuel : nat) (s : Z) : nat :=
  match fuel with
  | O => 1%nat
  | S f => if s <? 10 then 1%nat else S (count_digits f (s / 10))
  end.

(** Decimal representation of a non-negative integer. *)
Definition decimal (s : Z) : jsstring :=
  digits_of (count_digits (Z.to_nat (Z.log2 s)) s) s.

(** [p / q < 10^n] *)
Definition below_pow10 (p q n : Z) : bool :=
  if 0 <=? n then p <? q * 10 ^ n else p * 10 ^ (- n) <? q.

(** The least [n >= start] with [p / q < 10^n]. *)
Fixpoint find_pow10 (fuel : nat) (p q n : Z) : Z :=
  match fuel with
  | O => n
  | S f => if below_pow10 p q n then n else find_pow10 f p q (n + 1)
  end.

(** The position [n] with [10^(n-1) <= m * 2^e < 10^n]. *)
Definition decimal_exponent (p q : Z) : Z := find_pow10 640 p q (-324).

(** The candidates with [k] digits next to [p / q], given its position [n0]:
    each is [Some (s, n)] when [s * 10^(n-k)] reads back as [x]. *)
Definition candidate (x : number) (k : nat) (s n : Z) : option (Z * Z) :=
  let '(s, n) := if s =? 10 ^ Z.of_nat k then (10 ^ (Z.of_nat k - 1), n + 1)
                 else (s, n) in
  if number_eqb (decimal_to_double false s (n - Z.of_nat k)) x
  then Some (s, n) else None.

Definition digits_at (x : number) (p q n0 : Z) (k : nat) : option (Z * Z) :=
  let sh := Z.of_nat k - n0 in
  let num := if 0 <=? sh then p * 10 ^ sh else p in
  let den := if 0 <=? sh then q else q * 10 ^ (- sh) in
  let lo := num / den in
  let r := num mod den in
  match candidate x k lo n0, candidate x k (lo + 1) n0 with
  | Some a, Some b =>
      match 2 * r ?= den with
      | Lt => Some a
      | Gt => Some b
      | Eq => if Z.even lo then Some a else Some b
      end
  | Some a, None => Some a
  | None, Some b => Some b
  | None, None => None
  end.

(** The shortest digit string: the least [k] that has a candidate. *)
Fixpoint shortest_from (fuel : nat) (x : number) (p q n0 : Z) (k : nat)
  : nat * Z * Z :=
  match digits_at x p q n0 k with
  | Some (s, n) => (k, s, n)
  | None =>
      match fuel with
      | O => (k, 0, n0)
      | S f => shortest_from f x p q n0 (S k)
      end
  end.

Definition shortest (m : positive) (e : Z) : nat * Z * Z :=
  let p := if 0 <=? e then Z.pos m * 2 ^ e else Z.pos m in
  let q := if 0 <=? e then 1 else 2 ^ (- e) in
  shortest_from 16 (Fin false m e) p q (decimal_exponent p q) 1.

Definition exponent_part (n : Z) : jsstring :=
  c_e :: (if 0 <? n - 1 then c_plus else c_minus) :: decimal (Z.abs (n - 1)).

Definition format_digits (k : nat) (s n : Z) : jsstring :=
  let ds := digits_of k s in
  let kz := Z.of_nat k in
  if (kz <=? n) && (n <=? 21) then ds ++ repeat c_zero (Z.to_nat (n - kz))
  else if (0 <? n) && (n <=? 21) then
    take (Z.to_nat n) ds ++ c_dot :: drop (Z.to_nat n) ds
  else if (-6 <? n) && (n <=? 0) then
    c_zero :: c_dot :: repeat c_zero (Z.to_nat (- n)) ++ ds
  else if (k =? 1)%nat then ds ++ exponent_part n
  else take 1 ds ++ c_dot :: drop 1 ds ++ exponent_part n.

Definition number_to_string (x : number) : jsstring :=
  match x with
  | NaN => js "NaN"
  | Zero _ => js "0"
  | Inf neg => (if neg then [c_minus] else []) ++ js "Infinity"
  | Fin neg m e =>
      let '(k, s, n) := shortest m e in
      (if neg then [c_minus] else []) ++ format_digits k s n
  end.

(** ** JSON values

    The values [JSON.parse] produces.  The properties of an object are kept
    in the order in which the object enumerates its own keys. *)

#[warnings="-register-all"]
Inductive value : Type :=
  | JNull
  | JBool (b : bool)
  | JNum (x : number)
  | JStr (s : jsstring)
  | JArr (xs : list value)
  | JObj (props : list (jsstring * value)).

(** *** Objects: own property keys and their order *)

(** An array index is the canonical decimal form of an integer below
    [2^32 - 1]. *)
Definition array_index (k : jsstring) : option Z :=
  if forallb is_digit k && int_part_ok k && (digits_val k <? 2 ^ 32 - 1)
  then Some (digits_val k) else None.

Definition key_eqb (a b : jsstring) : bool := bool_decide (a = b).

Fixpoint has_key (k : jsstring) (props : list (jsstring * value)) : bool :=
  match props with
  | [] => false
  | (k', _) :: r => key_eqb k k' || has_key k r
  end.

Fixpoint replace_key (k : jsstring) (v : value) (props : list (jsstring * value))
  : list (jsstring * value) :=
  match props with
  | [] => []
  | (k', v') :: r =>
      if key_eqb k k' then (k', v) :: r else (k', v') :: replace_key k v r
  end.

(** A new index key goes after the indices below it, before the first key
    that is a larger index or not an index. *)
Fixpoint insert_index (i : Z) (k : jsstring) (v : value)
  (props : list (jsstring * value)) : list (jsstring * value) :=
  match props with
  | [] => [(k, v)]
  | (k', v') :: r =>
      match array_index k' with
      | Some j => if j <=? i then (k', v') :: insert_index i k v r
                  else (k, v) :: props
      | None => (k, v) :: props
      end
  end.

(** CreateDataProperty on an ordinary object: an existing key keeps its
    place and takes the new value; a new key is an index (enumerated first,
    in ascending order) or a string (enumerated in creation order). *)
Definition obj_define (k : jsstring) (v : value) (props : list (jsstring * value))
  : list (jsstring * value) :=
  if has_key k props then replace_key k v props
  else match array_index k with
       | Some i => insert_index i k v props
       | None => props ++ [(k, v)]
       end.

Fixpoint get_prop (k : jsstring) (props : list (jsstring * value)) : option value :=
  match props with
  | [] => None
  | (k', v) :: r => if key_eqb k k' then Some v else get_prop k r
  end.

(** ** JSON.parse *)

Inductive lexeme : Type :=
  | TLBrace | TRBrace | TLBracket | TRBracket | TComma | TColon
  | TTrue | TFalse | TNull
  | TStr (s : jsstring)
  | TNum (x : number).

Definition is_ws (c : N) : bool :=
  ((c =? c_tab) || (c =? c_lf) || (c =? c_cr) || (c =? c_space))%N.

Definition hex_val (c : N) : option N :=
  if is_digit c then Some (c - 48)%N
  else if ((97 <=? c) && (c <=? 102))%N then Some (c - 87)%N
  else if ((65 <=? c) && (c <=? 70))%N then Some (c - 55)%N
  else None.

Definition hex4 (a b c d : N) : option N :=
  match hex_val a, hex_val b, hex_val c, hex_val d with
  | Some x, Some y, Some z, Some w => Some (((x * 16 + y) * 16 + z) * 16 + w)%N
  | _, _, _, _ => None
  end.

(** The character a two-character escape stands for. *)
Definition simple_escape (c : N) : option N :=
  if (c =? c_quote)%N then Some c_quote
  else if (c =? c_backslash)%N then Some c_backslash
  else if (c =? c_slash)%N then Some c_slash
  else if (c =? c_b)%N then Some 8%N
  else if (c =? c_f)%N then Some c_ff
  else if (c =? c_n)%N then Some c_lf
  else if (c =? c_r)%N then Some c_cr
  else if (c =? c_t)%N then Some c_tab
  else None.

Definition push (c : N) (r : option (jsstring * jsstring))
  : option (jsstring * jsstring) :=
  match r with
  | Some (s, rest) => Some (c :: s, rest)
  | None => None
  end.

(** The characters of a string literal after its opening quote, up to the
    closing quote; the result is the string and the text after the quote. *)
Fixpoint lex_string (s : jsstring) : option (jsstring * jsstring) :=
  match s with
  | [] => None
  | c :: r =>
      if (c =? c_quote)%N then Some ([], r)
      else if (c =? c_backslash)%N then
        match r with
        | [] => None
        | d :: r1 =>
            if (d =? c_u)%N then
              match r1 with
              | h1 :: h2 :: h3 :: h4 :: r2 =>
                  match hex4 h1 h2 h3 h4 with
                  | Some u => push u (lex_string r2)
                  | None => None
                  end
              | _ => None
              end
            else
              match simple_escape d with
              | Some u => push u (lex_string r1)
              | None => None
              end
        end
      else if (c <? 32)%N then None
      else push c (lex_string r)
  end.

Definition is_num_char (c : N) : bool :=
  (is_digit c || (c =? c_plus) || (c =? c_minus) || (c =? c_dot)
   || (c =? c_e) || (c =? c_E))%N.

Fixpoint span_num (s : jsstring) : jsstring * jsstring :=
  match s with
  | [] => ([], [])
  | c :: r =>
      if is_num_char c then let '(ds, r') := span_num r in (c :: ds, r')
      else ([], s)
  end.

Fixpoint strip_prefix (p s : jsstring) : option jsstring :=
  match p with
  | [] => Some s
  | a :: p' =>
      match s with
      | b :: s' => if (a =? b)%N then strip_prefix p' s' else None
      | [] => None
      end
  end.

Definition emit (t : lexeme) (r : option (list lexeme)) : option (list lexeme) :=
  match r with
  | Some ts => Some (t :: ts)
  | None => None
  end.

Definition keyword (w : string) (t : lexeme) (s : jsstring)
  (k : jsstring -> option (list lexeme)) : option (list lexeme) :=
  match strip_prefix (js w) s with
  | Some r => emit t (k r)
  | None => None
  end.

(** The tokens of a JSON text; white space separates tokens. *)
Fixpoint lex (fuel : nat) (s : jsstring) : option (list lexeme) :=
  match s with
  | [] => Some []
  | c :: r =>
      match fuel with
      | O => None
      | S f =>
          if is_ws c then lex f r
          else if (c =? c_lbrace)%N then emit TLBrace (lex f r)
          else if (c =? c_rbrace)%N then emit TRBrace (lex f r)
          else if (c =? c_lbracket)%N then emit TLBracket (lex f r)
          else if (c =? c_rbracket)%N then emit TRBracket (lex f r)
          else if (c =? c_comma)%N then emit TComma (lex f r)
          else if (c =? c_colon)%N then emit TColon (lex f r)
          else if (c =? c_quote)%N then
            match lex_string r with
            | Some (str, r') => emit (TStr str) (lex f r')
            | None => None
            end
          else if (c =? c_t)%N then keyword "true" TTrue s (lex f)
          else if (c =? c_f)%N then keyword "false" TFalse s (lex f)
          else if (c =? c_n)%N then keyword "null" TNull s (lex f)
          else if is_digit c || (c =? c_minus)%N then
            let '(sp, r') := span_num s in
            match parse_number sp with
            | Some x => emit (TNum x) (lex f r')
            | None => None
            end
          else None
      end
  end.

Definition tokenize (s : jsstring) : option (list lexeme) := lex (length s) s.

Definition parser : Type := list lexeme -> option (value * list lexeme).

(** The elements of an array after the first bracket, at least one. *)
Fixpoint parse_elements (pv : parser) (fuel : nat) (ts : list lexeme)
  (acc : list value) : option (value * list lexeme) :=
  match fuel with
  | O => None
  | S f =>
      match pv ts with
      | Some (v, TComma :: r) => parse_elements pv f r (v :: acc)
      | Some (v, TRBracket :: r) => Some (JArr (rev (v :: acc)), r)
      | _ => None
      end
  end.

(** The members of an object after the brace, at least one.  A repeated
    key overwrites the earlier value. *)
Fixpoint parse_members (pv : parser) (fuel : nat) (ts : list lexeme)
  (acc : list (jsstring * value)) : option (value * list lexeme) :=
  match fuel with
  | O => None
  | S f =>
      match ts with
      | TStr k :: TColon :: r =>
          match pv r with
          | Some (v, TComma :: r') => parse_members pv f r' (obj_define k v acc)
          | Some (v, TRBrace :: r') => Some (JObj (obj_define k v acc), r')
          | _ => None
          end
      | _ => None
      end
  end.

Fixpoint parse_value (fuel : nat) (ts : list lexeme)
  : option (value * list lexeme) :=
  match fuel with
  | O => None
  | S f =>
      match ts with
      | TNull :: r => Some (JNull, r)
      | TTrue :: r => Some (JBool true, r)
      | TFalse :: r => Some (JBool false, r)
      | TNum x :: r => Some (JNum x, r)
      | TStr s :: r => Some (JStr s, r)
      | TLBracket :: TRBracket :: r => Some (JArr [], r)
      | TLBracket :: r => parse_elements (parse_value f) f r []
      | TLBrace :: TRBrace :: r => Some (JObj [], r)
      | TLBrace :: r => parse_members (parse_value f) f r []
      | _ => None
      end
  end.

(** [JSON.parse text]: [None] stands for the SyntaxError it throws. *)
Definition JSON_parse (text : jsstring) : option value :=
  match tokenize text with
  | Some ts =>
      match parse_value (S (length ts)) ts with
      | Some (v, []) => Some v
      | _ => None
      end
  | None => None
  end.

(** ** JSON.stringify *)

Definition hex_digit (d : N) : N := (if d <? 10 then 48 + d else 87 + d)%N.

(** UnicodeEscape: backslash, u and four lower-case hexadecimal digits. *)
Definition unicode_escape (c : N) : jsstring :=
  [c_backslash; c_u; hex_digit (c / 4096 mod 16); hex_digit (c / 256 mod 16);
   hex_digit (c / 16 mod 16); hex_digit (c mod 16)]%N.

Definition is_high_surrogate (c : N) : bool := ((55296 <=? c) && (c <=? 56319))%N.
Definition is_low_surrogate (c : N) : bool := ((56320 <=? c) && (c <=? 57343))%N.

(** The text of one code unit that is not the first half of a pair. *)
Definition quote_unit (c : N) : jsstring :=
  if (c =? 8)%N then [c_backslash; c_b]
  else if (c =? c_tab)%N then [c_backslash; c_t]
  else if (c =? c_lf)%N then [c_backslash; c_n]
  else if (c =? c_ff)%N then [c_backslash; c_f]
  else if (c =? c_cr)%N then [c_backslash; c_r]
  else if (c =? c_quote)%N then [c_backslash; c_quote]
  else if (c =? c_backslash)%N then [c_backslash; c_backslash]
  else if (c <? 32)%N || is_high_surrogate c || is_low_surrogate c
  then unicode_escape c
  else [c].

(** The body of QuoteJSONString: a surrogate pair is copied, a lone
    surrogate is escaped. *)
Fixpoint quote_units (s : jsstring) : jsstring :=
  match s with
  | [] => []
  | c :: r =>
      if is_high_surrogate c then
        match r with
        | d :: r' =>
            if is_low_surrogate d then c :: d :: quote_units r'
            else unicode_escape c ++ quote_units r
        | [] => unicode_escape c
        end
      else quote_unit c ++ quote_units r
  end.

Definition quote (s : jsstring) : jsstring :=
  c_quote :: quote_units s ++ [c_quote].

Fixpoint join {A : Type} (sep : list A) (parts : list (list A)) : list A :=
  match parts with
  | [] => []
  | [p] => p
  | p :: r => p ++ sep ++ join sep r
  end.

(** The text of a non-empty list of serialized elements or members between
    the brackets [l] and [r]. *)
Definition wrap (gap stepback : jsstring) (l r : N) (partial : list jsstring)
  : jsstring :=
  match partial with
  | [] => [l; r]
  | _ :: _ =>
      match gap with
      | [] => l :: join [c_comma] partial ++ [r]
      | _ :: _ =>
          let indent := stepback ++ gap in
          l :: c_lf :: indent ++ join (c_comma :: c_lf :: indent) partial
            ++ c_lf :: stepback ++ [r]
      end
  end.

(** SerializeJSONProperty with SerializeJSONArray and SerializeJSONObject;
    [indent] is the current indentation. *)
Fixpoint serialize (gap indent : jsstring) (v : value) : jsstring :=
  match v with
  | JNull => js "null"
  | JBool b => if b then js "true" else js "false"
  | JNum x => if is_finite x then number_to_string x else js "null"
  | JStr s => quote s
  | JArr xs =>
      wrap gap indent c_lbracket c_rbracket
        (List.map (serialize gap (indent ++ gap)) xs)
  | JObj props =>
      wrap gap indent c_lbrace c_rbrace
        (List.map (fun kv : jsstring * value =>
                     let '(k, v') := kv in
                     quote k ++ c_colon ::
                       (if truthy gap then [c_space] else [])
                       ++ serialize gap (indent ++ gap) v')
           props)
  end.

(** [JSON.stringify(v, null, space)] for a number [space]: the gap is
    [min 10 space] spaces; [JSON.stringify(v)] is the case [space = 0]. *)
Definition JSON_stringify (space : nat) (v : value) : jsstring :=
  serialize (repeat c_space (Nat.min 10 space)) [] v.

(** ** Regular expressions

    The patterns of the browser shell, matched as ECMAScript does: the
    alternatives in order, the quantifiers greedy, with backtracking.  No
    pattern of the shell has a back reference or a look-around, so a group,
    capturing or not, stands for its content. *)

Module RegExp.

Inductive pattern : Type :=
  | Epsilon
  | Chr (c : N)
  | Class (invert : bool) (ranges : list (N * N))
  | Seq (a b : pattern)
  | Alt (a b : pattern)
  | Star (a : pattern)
  | Opt (a : pattern)
  | WordBoundary
  | InputStart
  | InputEnd.

(** One or more, and exactly [n] times. *)
Definition Plus (a : pattern) : pattern := Seq a (Star a).

Fixpoint Times (n : nat) (a : pattern) : pattern :=
  match n with
  | O => Epsilon
  | S n' => Seq a (Times n' a)
  end.

(** The characters of a literal, one after the other. *)
Definition Str (w : string) : pattern :=
  fold_right (fun c r => Seq (Chr c) r) Epsilon (js w).

Definition in_class (invert : bool) (ranges : list (N * N)) (c : N) : bool :=
  xorb invert (existsb (fun r : N * N => (fst r <=? c) && (c <=? snd r))%N ranges).

(** The classes of the escapes for a digit and for white space, and the
    word characters of the word boundary. *)
Definition digit_class : list (N * N) := [(48, 57)]%N.

Definition space_class : list (N * N) :=
  [(9, 13); (32, 32); (160, 160); (5760, 5760); (8192, 8202); (8232, 8233);
   (8239, 8239); (8287, 8287); (12288, 12288); (65279, 65279)]%N.

Definition word_class : list (N * N) := [(97, 122); (65, 90); (48, 57); (95, 95)]%N.

Definition word_before (prev : option N) : bool :=
  match prev with
  | Some c => in_class false word_class c
  | None => false
  end.

Definition word_at (s : jsstring) : bool :=
  match s with
  | c :: _ => in_class false word_class c
  | [] => false
  end.

(** A matcher works at a position: [prev] is the character before the
    position, [s] the input from the position on, [k] the continuation.
    The result is the number of characters from the position to the end of
    the match. *)
Definition Matcher : Type :=
  option N -> jsstring -> (option N -> jsstring -> option nat) -> option nat.

(** The iterations of a greedy star.  An iteration that consumes nothing
    is rejected, so a star that starts with [length s] iterations left
    never runs out of them. *)
Fixpoint iterate (m : Matcher) (k : option N -> jsstring -> option nat)
  (fuel : nat) (prev : option N) (s : jsstring) : option nat :=
  match fuel with
  | O => k prev s
  | S fuel' =>
      match m prev s
              (fun prev' s' =>
                 if (length s' <? length s)%nat then iterate m k fuel' prev' s'
                 else None) with
      | Some n => Some n
      | None => k prev s
      end
  end.

Fixpoint matcher (r : pattern) (prev : option N) (s : jsstring)
  (k : option N -> jsstring -> option nat) {struct r} : option nat :=
  match r with
  | Epsilon => k prev s
  | Chr c =>
      match s with
      | c' :: s' => if (c =? c')%N then option_map S (k (Some c') s') else None
      | [] => None
      end
  | Class invert ranges =>
      match s with
      | c' :: s' =>
          if in_class invert ranges c' then option_map S (k (Some c') s') else None
      | [] => None
      end
  | Seq a b => matcher a prev s (fun prev' s' => matcher b prev' s' k)
  | Alt a b =>
      match matcher a prev s k with
      | Some n => Some n
      | None => matcher b prev s k
      end
  | Star a => iterate (matcher a) k (length s) prev s
  | Opt a =>
      match matcher a prev s
              (fun prev' s' =>
                 if (length s' <? length s)%nat then k prev' s' else None) with
      | Some n => Some n
      | None => k prev s
      end
  | WordBoundary => if xorb (word_before prev) (word_at s) then k prev s else None
  | InputStart =>
      match prev with
      | None => k prev s
      | Some _ => None
      end
  | InputEnd =>
      match s with
      | [] => k prev s
      | _ :: _ => None
      end
  end.

(** The length of the match of [r] that starts at the position, if any. *)
Definition match_at (r : pattern) (prev : option N) (s : jsstring) : option nat :=
  matcher r prev s (fun _ _ => Some O).

(** The character before the position that follows [m]. *)
Fixpoint ending (prev : option N) (m : jsstring) : option N :=
  match m with
  | [] => prev
  | c :: m' => ending (Some c) m'
  end.

(** [r.test(s)] for a pattern without the flag g: is there a match at some
    position. *)
Fixpoint search (r : pattern) (prev : option N) (s : jsstring) : bool :=
  match match_at r prev s with
  | Some _ => true
  | None =>
      match s with
      | [] => false
      | c :: s' => search r (Some c) s'
      end
  end.

Definition test (r : pattern) (s : jsstring) : bool := search r None s.

(** [s.replace(r, f)] for a pattern with the flag g and a function [f] of
    the matched text: the matches are looked for from left to right, each
    after the end of the one before it, and one character further after an
    empty match. *)
Fixpoint replace_from (fuel : nat) (r : pattern) (f : jsstring -> jsstring)
  (prev : option N) (s : jsstring) : jsstring :=
  match fuel with
  | O => s
  | S fuel' =>
      match match_at r prev s with
      | Some (S n) =>
          f (take (S n) s)
            ++ replace_from fuel' r f (ending prev (take (S n) s)) (drop (S n) s)
      | Some O =>
          f [] ++ match s with
                  | [] => []
                  | c :: s' => c :: replace_from fuel' r f (Some c) s'
                  end
      | None =>
          match s with
          | [] => []
          | c :: s' => c :: replace_from fuel' r f (Some c) s'
          end
      end
  end.

Definition replace (r : pattern) (f : jsstring -> jsstring) (s : jsstring) : jsstring :=
  replace_from (S (length s)) r f None s.

End RegExp.

(** ** The application state and its collaborators *)

Inductive Method : Type := GET | POST | PUT.

Inductive Environment : Type := development | production.

Definition env_key (e : Environment) : jsstring :=
  match e with
  | development => js "development"
  | production => js "production"
  end.

(** The [useState] slots of [App]. *)
Record AppState : Type := {
  method : Method;
  url : jsstring;
  baseUrl : jsstring;
  environment : Environment;
  useAuth : bool;
  token : jsstring;
  jsonBody : jsstring;
  urlParams : jsstring;
  response : jsstring;
  loading : bool;
  copied : bool;
  error : jsstring;
  statusCode : option Z;
  savedUrls : value
}.

Definition setBaseUrl (x : jsstring) (s : AppState) : AppState :=
  {| method := method s; url := url s; baseUrl := x;
     environment := environment s; useAuth := useAuth s; token := token s;
     jsonBody := jsonBody s; urlParams := urlParams s; response := response s;
     loading := loading s; copied := copied s; error := error s;
     statusCode := statusCode s; savedUrls := savedUrls s |}.

Definition setJsonBody (x : jsstring) (s : AppState) : AppState :=
  {| method := method s; url := url s; baseUrl := baseUrl s;
     environment := environment s; useAuth := useAuth s; token := token s;
     jsonBody := x; urlParams := urlParams s; response := response s;
     loading := loading s; copied := copied s; error := error s;
     statusCode := statusCode s; savedUrls := savedUrls s |}.

Definition setResponse (x : jsstring) (s : AppState) : AppState :=
  {| method := method s; url := url s; baseUrl := baseUrl s;
     environment := environment s; useAuth := useAuth s; token := token s;
     jsonBody := jsonBody s; urlParams := urlParams s; response := x;
     loading := loading s; copied := copied s; error := error s;
     statusCode := statusCode s; savedUrls := savedUrls s |}.

Definition setLoading (x : bool) (s : AppState) : AppState :=
  {| method := method s; url := url s; baseUrl := baseUrl s;
     environment := environment s; useAuth := useAuth s; token := token s;
     jsonBody := jsonBody s; urlParams := urlParams s; response := response s;
     loading := x; copied := copied s; error := error s;
     statusCode := statusCode s; savedUrls := savedUrls s |}.

Definition setError (x : jsstring) (s : AppState) : AppState :=
  {| method := method s; url := url s; baseUrl := baseUrl s;
     environment := environment s; useAuth := useAuth s; token := token s;
     jsonBody := jsonBody s; urlParams := urlParams s; response := response s;
     loading := loading s; copied := copied s; error := x;
     statusCode := statusCode s; savedUrls := savedUrls s |}.

Definition setStatusCode (x : option Z) (s : AppState) : AppState :=
  {| method := method s; url := url s; baseUrl := baseUrl s;
     environment := environment s; useAuth := useAuth s; token := token s;
     jsonBody := jsonBody s; urlParams := urlParams s; response := response s;
     loading := loading s; copied := copied s; error := error s;
     statusCode := x; savedUrls := savedUrls s |}.

Definition setSavedUrls (x : value) (s : AppState) : AppState :=
  {| method := method s; url := url s; baseUrl := baseUrl s;
     environment := environment s; useAuth := useAuth s; token := token s;
     jsonBody := jsonBody s; urlParams := urlParams s; response := response s;
     loading := loading s; copied := copied s; error := error s;
     statusCode := statusCode s; savedUrls := x |}.

Definition setMethod (x : Method) (s : AppState) : AppState :=
  {| method := x; url := url s; baseUrl := baseUrl s; environment :=
     environment s; useAuth := useAuth s; token := token s; jsonBody :=
     jsonBody s; urlParams := urlParams s; response := response s; loading :=
     loading s; copied := copied s; error := error s; statusCode := statusCode
     s; savedUrls := savedUrls s |}.

Definition setUrl (x : jsstring) (s : AppState) : AppState :=
  {| method := method s; url := x; baseUrl := baseUrl s; environment :=
     environment s; useAuth := useAuth s; token := token s; jsonBody :=
     jsonBody s; urlParams := urlParams s; response := response s; loading :=
     loading s; copied := copied s; error := error s; statusCode := statusCode
     s; savedUrls := savedUrls s |}.

Definition setEnvironment (x : Environment) (s : AppState) : AppState :=
  {| method := method s; url := url s; baseUrl := baseUrl s; environment :=
     x; useAuth := useAuth s; token := token s; jsonBody := jsonBody s;
     urlParams := urlParams s; response := response s; loading := loading s;
     copied := copied s; error := error s; statusCode := statusCode s;
     savedUrls := savedUrls s |}.

Definition setUseAuth (x : bool) (s : AppState) : AppState :=
  {| method := method s; url := url s; baseUrl := baseUrl s; environment :=
     environment s; useAuth := x; token := token s; jsonBody := jsonBody s;
     urlParams := urlParams s; response := response s; loading := loading s;
     copied := copied s; error := error s; statusCode := statusCode s;
     savedUrls := savedUrls s |}.

Definition setToken (x : jsstring) (s : AppState) : AppState :=
  {| method := method s; url := url s; baseUrl := baseUrl s; environment :=
     environment s; useAuth := useAuth s; token := x; jsonBody := jsonBody s;
     urlParams := urlParams s; response := response s; loading := loading s;
     copied := copied s; error := error s; statusCode := statusCode s;
     savedUrls := savedUrls s |}.

Definition setUrlParams (x : jsstring) (s : AppState) : AppState :=
  {| method := method s; url := url s; baseUrl := baseUrl s; environment :=
     environment s; useAuth := useAuth s; token := token s; jsonBody :=
     jsonBody s; urlParams := x; response := response s; loading := loading s;
     copied := copied s; error := error s; statusCode := statusCode s;
     savedUrls := savedUrls s |}.

Definition setCopied (x : bool) (s : AppState) : AppState :=
  {| method := method s; url := url s; baseUrl := baseUrl s; environment :=
     environment s; useAuth := useAuth s; token := token s; jsonBody :=
     jsonBody s; urlParams := urlParams s; response := response s; loading :=
     loading s; copied := x; error := error s; statusCode := statusCode s;
     savedUrls := savedUrls s |}.

(** The state of a freshly mounted [App]. *)
Definition initial : AppState :=
  {| method := GET; url := []; baseUrl := []; environment := development;
     useAuth := false; token := []; jsonBody := []; urlParams := [];
     response := []; loading := false; copied := false; error := [];
     statusCode := None;
     savedUrls := JObj [(js "development", JStr []); (js "production", JStr [])] |}.

(** *** The transport *)

(** The second argument of [fetch]. *)
Record RequestInit : Type := {
  init_method : Method;
  init_headers : gmap jsstring jsstring;
  init_body : option jsstring
}.

(** What a [catch] clause receives: an [Error] with its message, or any
    other value, kept as its [String(err)]. *)
Inductive thrown : Type :=
  | ErrorObject (message : jsstring)
  | OtherValue (text : jsstring).

(** [err instanceof Error ? err.message : String(err)] *)
Definition describe (err : thrown) : jsstring :=
  match err with
  | ErrorObject message => message
  | OtherValue text => text
  end.

Inductive Result (A : Type) : Type :=
  | Resolved (a : A)
  | Rejected (err : thrown).

Arguments Resolved {A} a.
Arguments Rejected {A} err.

(** What the pipeline uses of the HTTP client: [fetch], and on a response
    [status], [json()] and [text()].  Reading the body changes the response
    object, so both readers return it. *)
Record Transport (R : Type) : Type := {
  fetch : jsstring -> RequestInit -> Result R;
  status : R -> Z;
  json : R -> Result value * R;
  text : R -> Result jsstring * R
}.

Arguments fetch {R} _ _ _.
Arguments status {R} _ _.
Arguments json {R} _ _.
Arguments text {R} _ _.

(** One call of [fetch]: the URL and the options. *)
Definition Call : Type := jsstring * RequestInit.

(** *** The key-value storage *)

Definition storage_key : jsstring := js "apiTesterUrls".

Definition getItem (st : gmap jsstring jsstring) (k : jsstring) : option jsstring :=
  st !! k.

Definition setItem (st : gmap jsstring jsstring) (k v : jsstring)
  : gmap jsstring jsstring :=
  <[k := v]> st.

(** What the mount effect leaves behind: the new state; a thrown
    exception; or a state that holds a value outside the declared type of
    its slot (the result of [JSON.parse] is not checked). *)
Inductive Loaded : Type :=
  | LoadedState (s : AppState)
  | LoadThrew
  | LoadIllTyped.

(** The own enumerable properties a spread copies. *)
Fixpoint indexed {A : Type} (f : A -> value) (i : Z) (xs : list A)
  : list (jsstring * value) :=
  match xs with
  | [] => []
  | x :: r => (decimal i, f x) :: indexed f (i + 1) r
  end.

Definition own_props (v : value) : list (jsstring * value) :=
  match v with
  | JObj props => props
  | JArr xs => indexed (fun x => x) 0 xs
  | JStr s => indexed (fun c => JStr [c]) 0 s
  | JNull | JBool _ | JNum _ => []
  end.

(** [{...v, [k]: x}] *)
Definition spread_with (v : value) (k : jsstring) (x : value) : value :=
  JObj (obj_define k x
          (fold_left (fun acc kv => obj_define (fst kv) (snd kv) acc)
             (own_props v) [])).

(** [v[k]] for a key that is neither an index nor [length]; [None] is
    [undefined]. *)
Definition member (v : value) (k : jsstring) : option value :=
  match v with
  | JObj props => get_prop k props
  | _ => None
  end.

(** Truthiness of a value. *)
Definition truthy_value (v : value) : bool :=
  match v with
  | JNull => false
  | JBool b => b
  | JNum NaN | JNum (Zero _) => false
  | JNum (Inf _) | JNum (Fin _ _ _) => true
  | JStr s => truthy s
  | JArr _ | JObj _ => true
  end.

(** *** The clipboard and the timers

    What the shells use of the device besides the transport and the storage:
    the clipboard, whose write resolves or rejects, and [setTimeout].  The
    pending timers are kept in the order in which they fire. *)

Record Device : Type := {
  clipboard : jsstring;
  clipboard_granted : bool;
  clock : Z;
  timers : list (Z * (AppState -> AppState))
}.

(** [navigator.clipboard.writeText(text)] and
    [Clipboard.setStringAsync(text)]: the promise and the device after the
    write. *)
Definition writeText (text : jsstring) (d : Device) : Result unit * Device :=
  if clipboard_granted d
  then (Resolved tt,
        {| clipboard := text; clipboard_granted := clipboard_granted d;
           clock := clock d; timers := timers d |})
  else (Rejected (ErrorObject (js "NotAllowedError")), d).

(** A timer goes after the pending timers that are due no later. *)
Fixpoint schedule (due : Z) (callback : AppState -> AppState)
  (pending : list (Z * (AppState -> AppState))) : list (Z * (AppState -> AppState)) :=
  match pending with
  | [] => [(due, callback)]
  | (due', callback') :: r =>
      if due' <=? due then (due', callback') :: schedule due callback r
      else (due, callback) :: pending
  end.

(** [setTimeout(callback, delay)] *)
Definition setTimeout (callback : AppState -> AppState) (delay : Z) (d : Device)
  : Device :=
  {| clipboard := clipboard d; clipboard_granted := clipboard_granted d;
     clock := clock d;
     timers := schedule (clock d + delay) callback (timers d) |}.

(** The timers that are due at the time [t] run, in their order. *)
Fixpoint run_due (t : Z) (pending : list (Z * (AppState -> AppState))) (s : AppState)
  : AppState * list (Z * (AppState -> AppState)) :=
  match pending with
  | [] => (s, [])
  | (due, callback) :: r =>
      if due <=? t then run_due t r (callback s) else (s, pending)
  end.

(** [delay] milliseconds pass. *)
Definition elapse (delay : Z) (w : AppState * Device) : AppState * Device :=
  let '(s, d) := w in
  let '(s', pending) := run_due (clock d + delay) (timers d) s in
  (s', {| clipboard := clipboard d; clipboard_granted := clipboard_granted d;
          clock := clock d + delay; timers := pending |}).

(** A table from status codes to texts, and the lookup [table[code]]. *)
Fixpoint table_get (code : Z) (table : list (Z * jsstring)) : option jsstring :=
  match table with
  | [] => None
  | (code', phrase) :: r => if code =? code' then Some phrase else table_get code r
  end.

(** What a response panel shows: the spinner, the response as HTML or as
    text, or the hint that nothing has been sent yet. *)
Inductive Panel : Type :=
  | Spinner
  | Html (markup : jsstring)
  | Text (content : jsstring)
  | Hint.

(** ** The browser shell ([src/App.tsx]) *)

Module Web.

(** The mount effect: load the saved URLs from [localStorage].  Nothing
    catches the exception of [JSON.parse], nor the one of reading a
    property of null. *)
Definition loadSavedUrls (st : gmap jsstring jsstring) (s : AppState) : Loaded :=
  match getItem st storage_key with
  | Some savedData =>
      if truthy savedData then
        match JSON_parse savedData with
        | Some parsed =>
            (* setSavedUrls(parsed); setBaseUrl(parsed[environment]) *)
            match parsed with
            | JNull => LoadThrew
            | _ =>
                match member parsed (env_key (environment s)) with
                | Some (JStr u) =>
                    LoadedState (setBaseUrl u (setSavedUrls parsed s))
                | _ => LoadIllTyped
                end
            end
        | None => LoadThrew
        end
      else LoadedState s
  | None => LoadedState s
  end.

Definition saveBaseUrl (st : gmap jsstring jsstring) (s : AppState)
  : AppState * gmap jsstring jsstring :=
  let newSavedUrls :=
    spread_with (savedUrls s) (env_key (environment s)) (JStr (baseUrl s)) in
  (setSavedUrls newSavedUrls s,
   setItem st storage_key (JSON_stringify 0 newSavedUrls)).

(** The result is the state after the submission and the calls of [fetch]
    it made. *)
Definition handleSubmit {R : Type} (T : Transport R) (s0 : AppState)
  : AppState * list Call :=
  let s := setStatusCode None (setResponse [] (setError [] (setLoading true s0))) in
  (* Construct the full URL *)
  let fullUrl :=
    baseUrl s0 ++ url s0
      ++ (if truthy (urlParams s0) then js "?" ++ urlParams s0 else []) in
  (* Prepare headers *)
  let headers : gmap jsstring jsstring :=
    {[ js "Content-Type" := js "application/json" ]} in
  let headers :=
    if useAuth s0 && truthy (token s0)
    then <[ js "Authorization" := js "Bearer " ++ token s0 ]> headers
    else headers in
  (* Prepare request options; add body for POST and PUT requests *)
  let options : option RequestInit :=
    if (match method s0 with GET => false | _ => true end) && truthy (jsonBody s0)
    then match JSON_parse (jsonBody s0) with
         | Some _ =>
             Some {| init_method := method s0; init_headers := headers;
                     init_body := Some (jsonBody s0) |}
         | None => None
         end
    else Some {| init_method := method s0; init_headers := headers;
                 init_body := None |} in
  match options with
  | None =>
      (setLoading false
         (setLoading false (setError (js "Invalid JSON in request body") s)),
       [])
  | Some options =>
      (* Make the request *)
      match fetch T fullUrl options with
      | Resolved res =>
          let s := setStatusCode (Some (status T res)) s in
          match json T res with
          | (Resolved data, _) =>
              (setLoading false (setResponse (JSON_stringify 2 data) s),
               [(fullUrl, options)])
          | (Rejected _, res) =>
              (* Handle non-JSON responses *)
              match text T res with
              | (Resolved t, _) =>
                  (setLoading false
                     (setResponse (or_else t (js "No response body")) s),
                   [(fullUrl, options)])
              | (Rejected err, _) =>
                  (setLoading false
                     (setError (js "Request failed: " ++ describe err) s),
                   [(fullUrl, options)])
              end
          end
      | Rejected err =>
          (setLoading false (setError (js "Request failed: " ++ describe err) s),
           [(fullUrl, options)])
      end
  end.

Definition formatJsonBody (s : AppState) : AppState :=
  match JSON_parse (jsonBody s) with
  | Some parsed => setJsonBody (JSON_stringify 2 parsed) s
  | None => setError (js "Invalid JSON in request body") s
  end.

Definition getStatusCodeColor (code : option Z) : jsstring :=
  match code with
  | None => js "text-gray-600"
  | Some code =>
      if code =? 0 then js "text-gray-600"
      else if (200 <=? code) && (code <? 300) then js "text-green-600"
      else if (300 <=? code) && (code <? 400) then js "text-blue-600"
      else if (400 <=? code) && (code <? 500) then js "text-yellow-600"
      else js "text-red-600"
  end.

(** The effect that follows [environment] and [savedUrls]:
    [setBaseUrl(savedUrls[environment] || '')]. *)
Definition updateBaseUrl (s : AppState) : Loaded :=
  match savedUrls s with
  | JNull => LoadThrew
  | _ =>
      match member (savedUrls s) (env_key (environment s)) with
      | Some (JStr u) => LoadedState (setBaseUrl (or_else u []) s)
      | Some v => if truthy_value v then LoadIllTyped else LoadedState (setBaseUrl [] s)
      | None => LoadedState (setBaseUrl [] s)
      end
  end.

(** The promise of the write is not awaited. *)
Definition copyToClipboard (s : AppState) (d : Device) : AppState * Device :=
  let '(_, d) := writeText (response s) d in
  (setCopied true s, setTimeout (setCopied false) 2000 d).

(** The pattern of [syntaxHighlight], by its parts.  A character of a
    string: a backslash, u and four letters or digits; or a backslash and a
    character other than u; or a character other than the backslash and
    the quote. *)
Definition stringUnit : RegExp.pattern :=
  RegExp.Alt
    (RegExp.Seq (RegExp.Chr c_backslash)
       (RegExp.Seq (RegExp.Chr c_u)
          (RegExp.Times 4 (RegExp.Class false [(97, 122); (65, 90); (48, 57)]%N))))
    (RegExp.Alt
       (RegExp.Seq (RegExp.Chr c_backslash) (RegExp.Class true [(c_u, c_u)]))
       (RegExp.Class true [(c_backslash, c_backslash); (c_quote, c_quote)])).

(** White space and a colon. *)
Definition colonAhead : RegExp.pattern :=
  RegExp.Seq (RegExp.Star (RegExp.Class false RegExp.space_class)) (RegExp.Chr c_colon).

(** A string between quotes, with the colon after it if there is one. *)
Definition stringPattern : RegExp.pattern :=
  RegExp.Seq (RegExp.Chr c_quote)
    (RegExp.Seq (RegExp.Star stringUnit)
       (RegExp.Seq (RegExp.Chr c_quote) (RegExp.Opt colonAhead))).

(** One of the words true, false and null, between word boundaries. *)
Definition wordPattern : RegExp.pattern :=
  RegExp.Seq RegExp.WordBoundary
    (RegExp.Seq
       (RegExp.Alt (RegExp.Str "true")
          (RegExp.Alt (RegExp.Str "false") (RegExp.Str "null")))
       RegExp.WordBoundary).

(** A number: an optional minus sign, digits, an optional fraction (a dot
    and digits) and an optional exponent (e, an optional sign, digits). *)
Definition fractionPattern : RegExp.pattern :=
  RegExp.Seq (RegExp.Chr c_dot) (RegExp.Star (RegExp.Class false RegExp.digit_class)).

Definition exponentPattern : RegExp.pattern :=
  RegExp.Seq (RegExp.Class false [(c_e, c_e); (c_E, c_E)])
    (RegExp.Seq (RegExp.Opt (RegExp.Class false [(c_plus, c_plus); (c_minus, c_minus)]))
       (RegExp.Plus (RegExp.Class false RegExp.digit_class))).

Definition numberPattern : RegExp.pattern :=
  RegExp.Seq (RegExp.Opt (RegExp.Chr c_minus))
    (RegExp.Seq (RegExp.Plus (RegExp.Class false RegExp.digit_class))
       (RegExp.Seq (RegExp.Opt fractionPattern) (RegExp.Opt exponentPattern))).

Definition tokenPattern : RegExp.pattern :=
  RegExp.Alt stringPattern (RegExp.Alt wordPattern numberPattern).

(** The function that replaces a match: the match inside a span of the
    class of its kind. *)
Definition tokenSpan (m : jsstring) : jsstring :=
  let cls :=
    if RegExp.test (RegExp.Seq RegExp.InputStart (RegExp.Chr c_quote)) m then
      if RegExp.test (RegExp.Seq (RegExp.Chr c_colon) RegExp.InputEnd) m
      then js "text-red-600"
      else js "text-purple-600"
    else if RegExp.test (RegExp.Alt (RegExp.Str "true") (RegExp.Str "false")) m
    then js "text-blue-600"
    else if RegExp.test (RegExp.Str "null") m then js "text-gray-600"
    else js "text-green-600" in
  js "<span class=" ++ c_quote :: cls ++ c_quote :: js ">" ++ m ++ js "</span>".

(** The argument is a string, so the branch for another type is left out;
    the source parses the text twice, to check it and to format it. *)
Definition syntaxHighlight (json : jsstring) : jsstring :=
  if truthy json then
    match JSON_parse json with
    | Some parsed =>
        RegExp.replace tokenPattern tokenSpan (JSON_stringify 2 parsed)
    | None => json
    end
  else [].

Definition statusTexts : list (Z * jsstring) :=
  [(200, js "OK"); (201, js "Created"); (204, js "No Content");
   (400, js "Bad Request"); (401, js "Unauthorized"); (403, js "Forbidden");
   (404, js "Not Found"); (500, js "Internal Server Error");
   (502, js "Bad Gateway"); (503, js "Service Unavailable")].

Definition getStatusText (code : option Z) : jsstring :=
  match code with
  | None => []
  | Some code =>
      if code =? 0 then []
      else match table_get code statusTexts with
           | Some phrase => or_else phrase []
           | None => []
           end
  end.

(** The response panel: the highlighted response is the inner HTML of the
    panel. *)
Definition responsePanel (s : AppState) : Panel :=
  if loading s then Spinner
  else if truthy (response s) then Html (syntaxHighlight (response s))
  else Hint.


End Web.

(** ** The mobile shell *)

Module Mobile.

(** The mount effect: load the saved URLs from [AsyncStorage]; an
    exception is caught and logged, after [setSavedUrls] when it comes from
    reading a property of null. *)
Definition loadSavedUrls (st : gmap jsstring jsstring) (s : AppState) : Loaded :=
  match getItem st storage_key with
  | Some savedData =>
      if truthy savedData then
        match JSON_parse savedData with
        | Some parsed =>
            (* setSavedUrls(parsed); setBaseUrl(parsed[environment]) *)
            match parsed with
            | JNull => LoadedState (setSavedUrls parsed s)
            | _ =>
                match member parsed (env_key (environment s)) with
                | Some (JStr u) =>
                    LoadedState (setBaseUrl u (setSavedUrls parsed s))
                | _ => LoadIllTyped
                end
            end
        | None => LoadedState s
        end
      else LoadedState s
  | None => LoadedState s
  end.

Definition saveBaseUrl (st : gmap jsstring jsstring) (s : AppState)
  : AppState * gmap jsstring jsstring :=
  let newSavedUrls :=
    spread_with (savedUrls s) (env_key (environment s)) (JStr (baseUrl s)) in
  (setSavedUrls newSavedUrls s,
   setItem st storage_key (JSON_stringify 0 newSavedUrls)).

(** The result is the state after the submission and the calls of [fetch]
    it made. *)
Definition handleSubmit {R : Type} (T : Transport R) (s0 : AppState)
  : AppState * list Call :=
  let s := setStatusCode None (setResponse [] (setError [] (setLoading true s0))) in
  (* Construct the full URL *)
  let fullUrl :=
    baseUrl s0 ++ url s0
      ++ (if truthy (urlParams s0) then js "?" ++ urlParams s0 else []) in
  (* Prepare headers *)
  let headers : gmap jsstring jsstring :=
    {[ js "Content-Type" := js "application/json" ]} in
  let headers :=
    if useAuth s0 && truthy (token s0)
    then <[ js "Authorization" := js "Bearer " ++ token s0 ]> headers
    else headers in
  (* Prepare request options; add body for POST and PUT requests *)
  let options : option RequestInit :=
    if (match method s0 with GET => false | _ => true end) && truthy (jsonBody s0)
    then match JSON_parse (jsonBody s0) with
         | Some _ =>
             Some {| init_method := method s0; init_headers := headers;
                     init_body := Some (jsonBody s0) |}
         | None => None
         end
    else Some {| init_method := method s0; init_headers := headers;
                 init_body := None |} in
  match options with
  | None =>
      (setLoading false
         (setLoading false (setError (js "Invalid JSON in request body") s)),
       [])
  | Some options =>
      (* Make the request *)
      match fetch T fullUrl options with
      | Resolved res =>
          let s := setStatusCode (Some (status T res)) s in
          match json T res with
          | (Resolved data, _) =>
              (setLoading false (setResponse (JSON_stringify 2 data) s),
               [(fullUrl, options)])
          | (Rejected _, res) =>
              (* Handle non-JSON responses *)
              match text T res with
              | (Resolved t, _) =>
                  (setLoading false
                     (setResponse (or_else t (js "No response body")) s),
                   [(fullUrl, options)])
              | (Rejected err, _) =>
                  (setLoading false
                     (setError (js "Request failed: " ++ describe err) s),
                   [(fullUrl, options)])
              end
          end
      | Rejected err =>
          (setLoading false (setError (js "Request failed: " ++ describe err) s),
           [(fullUrl, options)])
      end
  end.

Definition formatJsonBody (s : AppState) : AppState :=
  match JSON_parse (jsonBody s) with
  | Some parsed => setJsonBody (JSON_stringify 2 parsed) s
  | None => setError (js "Invalid JSON in request body") s
  end.

Definition getStatusCodeColor (code : option Z) : jsstring :=
  match code with
  | None => js "#6B7280"
  | Some code =>
      if code =? 0 then js "#6B7280"
      else if (200 <=? code) && (code <? 300) then js "#10B981"
      else if (300 <=? code) && (code <? 400) then js "#3B82F6"
      else if (400 <=? code) && (code <? 500) then js "#F59E0B"
      else js "#EF4444"
  end.

(** The effect that follows [environment] and [savedUrls]:
    [setBaseUrl(savedUrls[environment] || '')]. *)
Definition updateBaseUrl (s : AppState) : Loaded :=
  match savedUrls s with
  | JNull => LoadThrew
  | _ =>
      match member (savedUrls s) (env_key (environment s)) with
      | Some (JStr u) => LoadedState (setBaseUrl (or_else u []) s)
      | Some v => if truthy_value v then LoadIllTyped else LoadedState (setBaseUrl [] s)
      | None => LoadedState (setBaseUrl [] s)
      end
  end.

(** The write is awaited: when it rejects, the rest does not run. *)
Definition copyToClipboard (s : AppState) (d : Device) : AppState * Device :=
  match writeText (response s) d with
  | (Resolved _, d) => (setCopied true s, setTimeout (setCopied false) 2000 d)
  | (Rejected _, d) => (s, d)
  end.

Definition statusTexts : list (Z * jsstring) :=
  [(200, js "OK"); (201, js "Created"); (204, js "No Content");
   (400, js "Bad Request"); (401, js "Unauthorized"); (403, js "Forbidden");
   (404, js "Not Found"); (500, js "Internal Server Error");
   (502, js "Bad Gateway"); (503, js "Service Unavailable")].

Definition getStatusText (code : option Z) : jsstring :=
  match code with
  | None => []
  | Some code =>
      if code =? 0 then []
      else match table_get code statusTexts with
           | Some phrase => or_else phrase []
           | None => []
           end
  end.

(** The response panel: the response is the content of a text
    component. *)
Definition responsePanel (s : AppState) : Panel :=
  if loading s then Spinner
  else if truthy (response s) then Text (response s)
  else Hint.


End Mobile.

(** ** Both shells at once *)

Inductive Shell : Type := Browser | MobileApp.

Definition handleSubmit (sh : Shell) {R : Type} (T : Transport R) (s : AppState)
  : AppState * list Call :=
  match sh with
  | Browser => Web.handleSubmit T s
  | MobileApp => Mobile.handleSubmit T s
  end.

Definition formatJsonBody (sh : Shell) (s : AppState) : AppState :=
  match sh with
  | Browser => Web.formatJsonBody s
  | MobileApp => Mobile.formatJsonBody s
  end.

Definition getStatusCodeColor (sh : Shell) (code : option Z) : jsstring :=
  match sh with
  | Browser => Web.getStatusCodeColor code
  | MobileApp => Mobile.getStatusCodeColor code
  end.

Definition saveBaseUrl (sh : Shell) (st : gmap jsstring jsstring) (s : AppState)
  : AppState * gmap jsstring jsstring :=
  match sh with
  | Browser => Web.saveBaseUrl st s
  | MobileApp => Mobile.saveBaseUrl st s
  end.

Definition loadSavedUrls (sh : Shell) (st : gmap jsstring jsstring) (s : AppState)
  : Loaded :=
  match sh with
  | Browser => Web.loadSavedUrls st s
  | MobileApp => Mobile.loadSavedUrls st s
  end.

Definition updateBaseUrl (sh : Shell) (s : AppState) : Loaded :=
  match sh with
  | Browser => Web.updateBaseUrl s
  | MobileApp => Mobile.updateBaseUrl s
  end.

Definition copyToClipboard (sh : Shell) (s : AppState) (d : Device)
  : AppState * Device :=
  match sh with
  | Browser => Web.copyToClipboard s d
  | MobileApp => Mobile.copyToClipboard s d
  end.

Definition getStatusText (sh : Shell) (code : option Z) : jsstring :=
  match sh with
  | Browser => Web.getStatusText code
  | MobileApp => Mobile.getStatusText code
  end.

Definition responsePanel (sh : Shell) (s : AppState) : Panel :=
  match sh with
  | Browser => Web.responsePanel s
  | MobileApp => Mobile.responsePanel s
  end.

(** Pressing the button of an environment in the mobile shell (the browser
    shell has no such control).  Setting the environment it already has
    leaves the state as it is; a new environment triggers the effect that
    follows it. *)
Definition same_environment (a b : Environment) : bool :=
  match a, b with
  | development, development | production, production => true
  | _, _ => false
  end.

Definition selectEnvironment (e : Environment) (s : AppState) : Loaded :=
  if same_environment e (environment s) then LoadedState s
  else Mobile.updateBaseUrl (setEnvironment e s).

(** ** The shells as state machines

    The state of a running shell: the slots of the component, the storage
    and the device.  An action is what the user does with one control of the
    form; [step] runs the handler the control is wired to, and the effect
    that a change of the environment or of the saved URLs triggers.  A
    handler runs to its end before the next action.  The result is [None]
    when such an effect throws or gives the base URL field a value that is
    not a string. *)

Record World : Type := {
  state : AppState;
  storage : gmap jsstring jsstring;
  device : Device
}.

Inductive Action : Type :=
  | EditMethod (m : Method)
  | EditUrl (x : jsstring)
  | EditBaseUrl (x : jsstring)
  | EditUrlParams (x : jsstring)
  | EditUseAuth (b : bool)
  | EditToken (x : jsstring)
  | EditJsonBody (x : jsstring)
  | PressSave
  | PressEnvironment (e : Environment)
  | PressSubmit (R : Type) (T : Transport R)
  | PressFormat
  | PressCopy
  | Wait (ms : Z).

Definition with_state (w : World) (s : AppState) : World :=
  {| state := s; storage := storage w; device := device w |}.

Definition settled (w : World) (r : Loaded) : option World :=
  match r with
  | LoadedState s => Some (with_state w s)
  | LoadThrew | LoadIllTyped => None
  end.

Definition step (sh : Shell) (a : Action) (w : World) : option World :=
  match a with
  | EditMethod m => Some (with_state w (setMethod m (state w)))
  | EditUrl x => Some (with_state w (setUrl x (state w)))
  | EditBaseUrl x => Some (with_state w (setBaseUrl x (state w)))
  | EditUrlParams x => Some (with_state w (setUrlParams x (state w)))
  | EditUseAuth b => Some (with_state w (setUseAuth b (state w)))
  | EditToken x => Some (with_state w (setToken x (state w)))
  | EditJsonBody x => Some (with_state w (setJsonBody x (state w)))
  | PressSave =>
      let '(s, st) := saveBaseUrl sh (storage w) (state w) in
      settled {| state := s; storage := st; device := device w |} (updateBaseUrl sh s)
  | PressEnvironment e =>
      match sh with
      | Browser => Some w
      | MobileApp => settled w (selectEnvironment e (state w))
      end
  | PressSubmit R T => Some (with_state w (fst (handleSubmit sh T (state w))))
  | PressFormat => Some (with_state w (formatJsonBody sh (state w)))
  | PressCopy =>
      let '(s, d) := copyToClipboard sh (state w) (device w) in
      Some {| state := s; storage := storage w; device := d |}
  | Wait ms =>
      let '(s, d) := elapse ms (state w, device w) in
      Some {| state := s; storage := storage w; device := d |}
  end.

Fixpoint run (sh : Shell) (actions : list Action) (w : World) : option World :=
  match actions with
  | [] => Some w
  | a :: r =>
      match step sh a w with
      | Some w' => run sh r w'
      | None => None
      end
  end.

(** Mounting the component: the load of the saved URLs and the effect that
    follows them, from the initial state (on which that effect, run before
    the load has set anything, changes nothing). *)
Definition mount (sh : Shell) (st : gmap jsstring jsstring) (d : Device) : option World :=
  match loadSavedUrls sh st initial with
  | LoadedState s =>
      settled {| state := s; storage := st; device := d |} (updateBaseUrl sh s)
  | LoadThrew | LoadIllTyped => None
  end.

(** The severity buckets of the specification and the colour each shell
    shows them in. *)
Inductive Bucket : Type := Neutral | Success | Redirect | ClientError | ServerError.

Definition colour (sh : Shell) (b : Bucket) : jsstring :=
  match sh, b with
  | Browser, Neutral => js "text-gray-600"
  | Browser, Success => js "text-green-600"
  | Browser, Redirect => js "text-blue-600"
  | Browser, ClientError => js "text-yellow-600"
  | Browser, ServerError => js "text-red-600"
  | MobileApp, Neutral => js "#6B7280"
  | MobileApp, Success => js "#10B981"
  | MobileApp, Redirect => js "#3B82F6"
  | MobileApp, ClientError => js "#F59E0B"
  | MobileApp, ServerError => js "#EF4444"
  end.

(** ** A response of the Fetch standard

    The body of a response can be read once: [json()] and [text()] both
    consume it, and reading a consumed body rejects with a TypeError.  A
    response without a body (a null body, as for status 204) reads as the
    empty text every time. *)

Record Response : Type := {
  res_status : Z;
  res_body : option jsstring;
  res_used : bool
}.

Section FetchStandard.

(** The messages of the two errors; they differ between platforms. *)
Variable already_read : jsstring.
Variable syntax_error : jsstring.

(** What the network answers: a status and a body, or a failure. *)
Variable network : jsstring -> RequestInit -> Result (Z * option jsstring).

Definition consume (r : Response) : Result jsstring * Response :=
  match res_body r with
  | None => (Resolved [], r)
  | Some body =>
      if res_used r then (Rejected (ErrorObject already_read), r)
      else (Resolved body,
            {| res_status := res_status r; res_body := res_body r;
               res_used := true |})
  end.

Definition Response_text (r : Response) : Result jsstring * Response :=
  consume r.

Definition Response_json (r : Response) : Result value * Response :=
  match consume r with
  | (Resolved body, r') =>
      match JSON_parse body with
      | Some data => (Resolved data, r')
      | None => (Rejected (ErrorObject syntax_error), r')
      end
  | (Rejected err, r') => (Rejected err, r')
  end.

Definition standard_fetch (u : jsstring) (o : RequestInit) : Result Response :=
  match network u o with
  | Resolved (code, body) =>
      Resolved {| res_status := code; res_body := body; res_used := false |}
  | Rejected err => Rejected err
  end.

Definition standard : Transport Response :=
  {| fetch := standard_fetch; status := res_status;
     json := Response_json; text := Response_text |}.

End FetchStandard.

(** ** Definitions for the statements *)

(** A call of the transport failed. *)
Definition transport_failed {R : Type} (T : Transport R) (calls : list Call) : Prop :=
  exists u o err, In (u, o) calls /\ fetch T u o = Rejected err.

(** A map from the two environment names to strings. *)
Definition two_env_map (m : value) : Prop :=
  exists d p : jsstring,
    m = JObj [(js "development", JStr d); (js "production", JStr p)]
    \/ m = JObj [(js "production", JStr p); (js "development", JStr d)].

(** A number survives printing and reading. *)
Definition number_survives (x : number) : Prop :=
  is_finite x = true /\ parse_number (number_to_string x) = Some x.

(** The doubles: [m < 2^53] and [-1074 <= e <= 971], with [2^52 <= m]
    unless [e = -1074]. *)
Definition canonical (m : positive) (e : Z) : Prop :=
  -1074 <= e <= 971 /\ Z.pos m < 2 ^ 53 /\ (2 ^ 52 <= Z.pos m \/ e = -1074).

Definition canonical_number (x : number) : Prop :=
  match x with
  | Fin _ m e => canonical m e
  | NaN | Zero _ | Inf _ => True
  end.

Definition canonical_lexeme (t : lexeme) : Prop :=
  match t with
  | TNum x => canonical_number x
  | _ => True
  end.

(** What a value reads as after it has been printed: an infinity (and NaN)
    is printed as null, the negative zero as 0. *)
Fixpoint reread (v : value) : value :=
  match v with
  | JNum (Fin neg m e) => JNum (Fin neg m e)
  | JNum (Zero _) => JNum (Zero false)
  | JNum (Inf _) | JNum NaN => JNull
  | JArr xs => JArr (List.map reread xs)
  | JObj props => JObj (List.map (fun kv => (fst kv, reread (snd kv))) props)
  | JNull | JBool _ | JStr _ => v
  end.

(** The values that hold neither an infinity (or NaN) nor the negative
    zero. *)
Fixpoint plain (v : value) : Prop :=
  match v with
  | JNum (Fin _ _ _) | JNum (Zero false) => True
  | JNum (Zero true) | JNum (Inf _) | JNum NaN => False
  | JArr xs => fold_right (fun x P => plain x /\ P) True xs
  | JObj props => fold_right (fun kv P => plain (snd kv) /\ P) True props
  | JNull | JBool _ | JStr _ => True
  end.

(** The tokens of the text of a value. *)
Fixpoint tokens_of (v : value) : list lexeme :=
  match v with
  | JNull => [TNull]
  | JBool b => [if b then TTrue else TFalse]
  | JNum x => [TNum x]
  | JStr s => [TStr s]
  | JArr xs => TLBracket :: join [TComma] (List.map tokens_of xs) ++ [TRBracket]
  | JObj props =>
      TLBrace ::
        join [TComma]
          (List.map (fun kv : jsstring * value =>
                       TStr (fst kv) :: TColon :: tokens_of (snd kv)) props)
        ++ [TRBrace]
  end.

Fixpoint size (v : value) : nat :=
  match v with
  | JNull | JBool _ | JNum _ | JStr _ => 1%nat
  | JArr xs => S (fold_right (fun x n => (size x + n)%nat) O xs)
  | JObj props => S (fold_right (fun kv n => (size (snd kv) + n)%nat) O props)
  end.

(** The order of the own keys of an object: the keys differ, and what
    comes before an index is a smaller index.  A value is well formed when
    its objects keep that order and its numbers are doubles. *)
Definition key_before (a b : jsstring) : Prop :=
  a <> b /\
  forall j, array_index b = Some j -> exists i, array_index a = Some i /\ i <= j.

Definition keys_ordered (props : list (jsstring * value)) : Prop :=
  StronglySorted key_before (List.map fst props).

Fixpoint well_formed (v : value) : Prop :=
  match v with
  | JNum x => canonical_number x
  | JNull | JBool _ | JStr _ => True
  | JArr xs => fold_right (fun x P => well_formed x /\ P) True xs
  | JObj props =>
      keys_ordered props
      /\ fold_right (fun kv P => well_formed (snd kv) /\ P) True props
  end.

(** The parts of the text of a number. *)
Definition sign_text (neg : bool) : jsstring := if neg then [c_minus] else [].

Definition fraction_text (fp : jsstring) : jsstring :=
  match fp with
  | [] => []
  | _ :: _ => c_dot :: fp
  end.

Definition exponent_text (ex : option (bool * jsstring)) : jsstring :=
  match ex with
  | None => []
  | Some (eneg, ep) => c_e :: (if eneg then c_minus else c_plus) :: ep
  end.

Definition exponent_val (ex : option (bool * jsstring)) : Z :=
  match ex with
  | None => 0
  | Some (eneg, ep) => if eneg then - digits_val ep else digits_val ep
  end.

(** The real number a pair of positive integers stands for. *)
Definition ratio (p q : Z) : R := (IZR p / IZR q)%R.

(** The real number a double stands for. *)
Definition F2R (m : positive) (e : Z) : R := (IZR (Z.pos m) * powerRZ 2 e)%R.

(** The tokens [ts] in front of the tokens [r]. *)
Definition emits (ts : list lexeme) (r : option (list lexeme)) : option (list lexeme) :=
  match r with
  | Some ts' => Some (ts ++ ts')
  | None => None
  end.

(** What follows a value in a text: nothing, or a character that cannot
    continue a number. *)
Definition delimited (rest : jsstring) : bool :=
  match rest with
  | [] => true
  | c :: _ => negb (is_num_char c)
  end.

(** A text [p] that always lexes to the tokens [ts] when a delimiter
    follows. *)
Definition lexes_to (p : jsstring) (ts : list lexeme) : Prop :=
  forall rest, delimited rest = true ->
    tokenize (p ++ rest) = emits ts (tokenize rest).

(** The tokens of one member of an object. *)
Definition member_tokens (kv : jsstring * value) : list lexeme :=
  TStr (fst kv) :: TColon :: tokens_of (snd kv).

(** The parts of [handleSubmit], for the proofs. *)
Definition fullUrl_of (s : AppState) : jsstring :=
  baseUrl s ++ url s ++ (if truthy (urlParams s) then js "?" ++ urlParams s else []).

Definition headers_of (s : AppState) : gmap jsstring jsstring :=
  if useAuth s && truthy (token s)
  then <[ js "Authorization" := js "Bearer " ++ token s ]>
         {[ js "Content-Type" := js "application/json" ]}
  else {[ js "Content-Type" := js "application/json" ]}.

Definition sends_body (s : AppState) : bool :=
  (match method s with GET => false | _ => true end) && truthy (jsonBody s).

Definition options_of (s : AppState) : option RequestInit :=
  if sends_body s
  then match JSON_parse (jsonBody s) with
       | Some _ =>
           Some {| init_method := method s; init_headers := headers_of s;
                   init_body := Some (jsonBody s) |}
       | None => None
       end
  else Some {| init_method := method s; init_headers := headers_of s;
               init_body := None |}.

Definition started (s : AppState) : AppState :=
  setStatusCode None (setResponse [] (setError [] (setLoading true s))).

Definition rejected_invalid (s : AppState) : AppState :=
  setLoading false
    (setLoading false (setError (js "Invalid JSON in request body") (started s))).

Definition received {R : Type} (T : Transport R) (s : AppState) (r : Result R)
  : AppState :=
  match r with
  | Resolved res =>
      let s := setStatusCode (Some (status T res)) (started s) in
      match json T res with
      | (Resolved data, _) => setLoading false (setResponse (JSON_stringify 2 data) s)
      | (Rejected _, res) =>
          match text T res with
          | (Resolved t, _) =>
              setLoading false (setResponse (or_else t (js "No response body")) s)
          | (Rejected err, _) =>
              setLoading false (setError (js "Request failed: " ++ describe err) s)
          end
      end
  | Rejected err =>
      setLoading false (setError (js "Request failed: " ++ describe err) (started s))
  end.


(** The kinds of token the highlighter tells apart, and the span of each. *)
Inductive Kind : Type := KeyToken | StringToken | NumberToken | BooleanToken | NullToken.

Definition class_of (k : Kind) : jsstring :=
  match k with
  | KeyToken => js "text-red-600"
  | StringToken => js "text-purple-600"
  | NumberToken => js "text-green-600"
  | BooleanToken => js "text-blue-600"
  | NullToken => js "text-gray-600"
  end.

Definition span_of (k : Kind) (t : jsstring) : jsstring :=
  js "<span class=" ++ c_quote :: class_of k ++ c_quote :: js ">" ++ t ++ js "</span>".

(** The text of a value, laid out as [serialize] does, with every token
    given to [mark]: a key with its colon, a string, a number, a boolean,
    a null. *)
Fixpoint paint (mark : Kind -> jsstring -> jsstring) (gap indent : jsstring)
  (v : value) : jsstring :=
  match v with
  | JNull => mark NullToken (js "null")
  | JBool b => mark BooleanToken (if b then js "true" else js "false")
  | JNum x =>
      if is_finite x then mark NumberToken (number_to_string x)
      else mark NullToken (js "null")
  | JStr s => mark StringToken (quote s)
  | JArr xs =>
      wrap gap indent c_lbracket c_rbracket
        (List.map (paint mark gap (indent ++ gap)) xs)
  | JObj props =>
      wrap gap indent c_lbrace c_rbrace
        (List.map (fun kv : jsstring * value =>
                     let '(k, v') := kv in
                     mark KeyToken (quote k ++ [c_colon])
                       ++ (if truthy gap then [c_space] else [])
                       ++ paint mark gap (indent ++ gap) v')
           props)
  end.

(** The text after a token: no colon comes after white space, and no
    character that continues a word or a number comes first. *)
Fixpoint no_colon_ahead (s : jsstring) : bool :=
  match s with
  | [] => true
  | c :: r =>
      if RegExp.in_class false RegExp.space_class c then no_colon_ahead r
      else negb (c =? c_colon)%N
  end.

Definition closes (rest : jsstring) : bool :=
  no_colon_ahead rest
  && match rest with
     | [] => true
     | c :: _ => negb (RegExp.in_class false RegExp.word_class c) && negb (c =? c_dot)%N
     end.

(** The characters of the layout: the brackets, the comma, the space and
    the line feed; and an indentation. *)
Definition layout_char (c : N) : bool :=
  ((c =? c_lbrace) || (c =? c_rbrace) || (c =? c_lbracket) || (c =? c_rbracket)
   || (c =? c_comma) || (c =? c_space) || (c =? c_lf))%N.

Definition spaces (w : jsstring) : Prop := Forall (fun c => c = c_space) w.

(** The replacement of [syntaxHighlight] from a position on. *)
Definition highlight_from (prev : option N) (s : jsstring) : jsstring :=
  RegExp.replace_from (S (length s)) Web.tokenPattern Web.tokenSpan prev s.

(** A text [p] that is always replaced by [out] when it comes after a
    character that is not a word character and before a closing text. *)
Definition paints_to (p out : jsstring) : Prop :=
  forall prev rest, RegExp.word_before prev = false -> closes rest = true ->
    highlight_from prev (p ++ rest)
    = out ++ highlight_from (RegExp.ending prev p) rest.

(** A text that one iteration of the string pattern takes, whatever comes
    before it and after it. *)
Definition string_unit_text (chunk : jsstring) : Prop :=
  chunk <> [] /\
  forall prev rest k,
    RegExp.matcher Web.stringUnit prev (chunk ++ rest) k
    = option_map (Nat.add (length chunk)) (k (RegExp.ending prev chunk) rest).

(** The code units [QuoteJSONString] copies as they are. *)
Definition copied_unit (c : N) : bool :=
  negb ((c <? 32)%N || (c =? c_quote)%N || (c =? c_backslash)%N
        || is_high_surrogate c || is_low_surrogate c).

(** Two states with the same request form. *)
Definition same_form (s s' : AppState) : Prop :=
  method s = method s' /\ url s = url s' /\ baseUrl s = baseUrl s'
  /\ useAuth s = useAuth s' /\ token s = token s' /\ jsonBody s = jsonBody s'
  /\ urlParams s = urlParams s'.

(** Two states with the same result of a submission. *)
Definition same_result (s s' : AppState) : Prop :=
  response s = response s' /\ error s = error s' /\ statusCode s = statusCode s'
  /\ loading s = loading s'.

(** A transport whose response is not JSON and can be read as text after
    the reading as JSON has failed. *)
Definition text_transport (code : Z) (body : jsstring) : Transport unit :=
  {| fetch := fun _ _ => Resolved tt;
     status := fun _ => code;
     json := fun r => (Rejected (ErrorObject (js "Unexpected token")), r);
     text := fun r => (Resolved body, r) |}.

(** A storage that holds nothing under the key of the saved URLs, or the
    text of a map from the two environment names to strings. *)
Definition storage_sound (st : gmap jsstring jsstring) : Prop :=
  getItem st storage_key = None
  \/ exists m, two_env_map m /\ getItem st storage_key = Some (JSON_stringify 0 m).

(** The pending timers are those of the copy mark. *)
Definition copy_timers (d : Device) : Prop :=
  Forall (fun t : Z * (AppState -> AppState) => snd t = setCopied false) (timers d).

(** A world in which the saved URLs map the two environment names to
    strings, the storage holds nothing under their key or their text, and
    the pending timers are those of the copy mark. *)
Definition sound (w : World) : Prop :=
  two_env_map (savedUrls (state w))
  /\ (getItem (storage w) storage_key = None
      \/ getItem (storage w) storage_key
         = Some (JSON_stringify 0 (savedUrls (state w))))
  /\ copy_timers (device w).

(** The status codes that have a text. *)
Definition known_codes : list Z := [200; 201; 204; 400; 401; 403; 404; 500; 502; 503].

(** ** Examples used below *)

(** A transport that answers every request with one status and body. *)
Definition respond_with (code : Z) (body : option jsstring) : Transport Response :=
  standard (js "Already read") (js "Unexpected token")
    (fun _ _ => Resolved (code, body)).

(** A transport that cannot reach the server. *)
Definition unreachable : Transport Response :=
  standard (js "Already read") (js "Unexpected token")
    (fun _ _ => Rejected (ErrorObject (js "Failed to fetch"))).

(** The text of the object with the member a set to 1. *)
Definition body_a1 : jsstring :=
  c_lbrace :: c_quote :: js "a" ++ c_quote :: js ":1}".

Definition post_a1 : AppState := setJsonBody body_a1 (setMethod POST initial).

Definition post_invalid : AppState :=
  setJsonBody (js "{invalid") (setMethod POST initial).

Definition get_users : AppState :=
  setUrlParams (js "id=1")
    (setUrl (js "/api/users") (setBaseUrl (js "http://localhost:3000") initial)).

Definition get_with_token : AppState :=
  setToken (js "abc") (setUseAuth true initial).

(** * Properties *)

(** * JSON: reading the text of a value *)


(** ** Induction on values *)

Lemma value_induction (P : value -> Prop) :
  P JNull -> (forall b, P (JBool b)) -> (forall x, P (JNum x)) ->
  (forall s, P (JStr s)) ->
  (forall xs, Forall P xs -> P (JArr xs)) ->
  (forall props, Forall (fun kv => P (snd kv)) props -> P (JObj props)) ->
  forall v, P v.
Proof.
  intros Hnull Hbool Hnum Hstr Harr Hobj.
  fix IH 1. intros [ | b | x | s | xs | props].
  - exact Hnull.
  - apply Hbool.
  - apply Hnum.
  - apply Hstr.
  - apply Harr. induction xs as [ | x xs IHxs]; constructor; [apply IH | exact IHxs].
  - apply Hobj. induction props as [ | [k v] props IHp]; constructor;
      [apply IH | exact IHp].
Qed.

(** ** The lexer *)

Lemma span_digits_spec (s : jsstring) :
  s = fst (span_digits s) ++ snd (span_digits s)
  /\ forallb is_digit (fst (span_digits s)) = true.
Proof.
  induction s as [ | c r [IH1 IH2]]; simpl; [auto | ].
  destruct (is_digit c) eqn:Hc; simpl; [ | auto].
  destruct (span_digits r) as [ds r']; simpl in *. rewrite Hc.
  split; [f_equal; exact IH1 | exact IH2].
Qed.

Lemma span_num_spec (s : jsstring) :
  s = fst (span_num s) ++ snd (span_num s).
Proof.
  induction s as [ | c r IH]; simpl; [auto | ].
  destruct (is_num_char c) eqn:Hc; simpl; [ | auto].
  destruct (span_num r) as [ds r']; simpl in *. f_equal; exact IH.
Qed.

Lemma strip_prefix_spec (p s r : jsstring) :
  strip_prefix p s = Some r -> s = p ++ r.
Proof.
  revert s. induction p as [ | a p IH]; intros s; simpl.
  - congruence.
  - destruct s as [ | b s]; [discriminate | ].
    destruct (N.eqb_spec a b); [ | discriminate]. subst. intros H. f_equal. auto.
Qed.

Lemma push_length (c : N) (r : option (jsstring * jsstring)) (str rest : jsstring) :
  push c r = Some (str, rest) -> exists str', r = Some (str', rest).
Proof. destruct r as [[a b] | ]; simpl; [intros [= <- <-]; eauto | discriminate]. Qed.

Lemma lex_string_shorter (n : nat) (s str rest : jsstring) :
  (length s <= n)%nat -> lex_string s = Some (str, rest) ->
  (length rest < length s)%nat.
Proof.
  revert s str rest. induction n as [ | n IH]; intros s str rest Hn.
  - destruct s; [discriminate | simpl in Hn; lia].
  - destruct s as [ | c r]; [discriminate | ]. simpl in Hn. simpl.
    destruct (c =? c_quote)%N.
    { intros [= <- <-]. lia. }
    destruct (c =? c_backslash)%N.
    { destruct r as [ | d r1]; [discriminate | ].
      destruct (d =? c_u)%N.
      - destruct r1 as [ | h1 [ | h2 [ | h3 [ | h4 r2]]]]; try discriminate.
        destruct (hex4 h1 h2 h3 h4); [ | discriminate].
        intros H. apply push_length in H as [str' H].
        apply IH in H; simpl in *; lia.
      - destruct (simple_escape d); [ | discriminate].
        intros H. apply push_length in H as [str' H].
        apply IH in H; simpl in *; lia. }
    destruct (c <? 32)%N; [discriminate | ].
    intros H. apply push_length in H as [str' H]. apply IH in H; lia.
Qed.

Lemma lex_enough (f1 f2 : nat) (s : jsstring) :
  (length s <= f1)%nat -> (length s <= f2)%nat -> lex f1 s = lex f2 s.
Proof.
  revert f2 s. induction f1 as [ | f1 IH]; intros f2 s H1 H2.
  - destruct s; [destruct f2; reflexivity | simpl in H1; lia].
  - destruct s as [ | c r]; [destruct f2; reflexivity | ].
    destruct f2 as [ | f2]; [simpl in H2; lia | ].
    simpl in H1, H2.
    assert (Hr : lex f1 r = lex f2 r) by (apply IH; lia).
    assert (Hkw : forall w t, w <> EmptyString ->
              keyword w t (c :: r) (lex f1) = keyword w t (c :: r) (lex f2)).
    { intros w t Hw. unfold keyword.
      destruct (strip_prefix (js w) (c :: r)) as [r' | ] eqn:Hp; [ | reflexivity].
      apply strip_prefix_spec in Hp.
      assert (length (c :: r) = length (js w) + length r')%nat
        by (rewrite Hp; apply length_app).
      destruct w; [congruence | ]. simpl in H.
      f_equal. apply IH; lia. }
    simpl. rewrite Hr.
    repeat match goal with
           | |- (if ?b then _ else _) = (if ?b then _ else _) =>
               destruct b; [try reflexivity | ]
           end.
    + destruct (lex_string r) as [[str r'] | ] eqn:Hs; [ | reflexivity].
      apply (lex_string_shorter (length r)) in Hs; [ | lia].
      f_equal. apply IH; lia.
    + apply Hkw. discriminate.
    + apply Hkw. discriminate.
    + apply Hkw. discriminate.
    + pose proof (span_num_spec (c :: r)) as Hsp. simpl in *.
      destruct (is_num_char c) eqn:Hc.
      * destruct (span_num r) as [ds r'] eqn:Hsr. simpl in Hsp.
        destruct (parse_number (c :: ds)); [ | reflexivity].
        f_equal. apply IH.
        -- injection Hsp as Hsp. rewrite Hsp, length_app in H1. lia.
        -- injection Hsp as Hsp. rewrite Hsp, length_app in H2. lia.
      * destruct (parse_number []) eqn:Hp; [ | reflexivity].
        vm_compute in Hp. discriminate.
    + reflexivity.
Qed.




Lemma emit_emits (t : lexeme) (r : option (list lexeme)) : emit t r = emits [t] r.
Proof. destruct r; reflexivity. Qed.

Lemma emits_app (a b : list lexeme) (r : option (list lexeme)) :
  emits a (emits b r) = emits (a ++ b) r.
Proof. destruct r; simpl; [now rewrite app_assoc | reflexivity]. Qed.

Lemma emits_nil (r : option (list lexeme)) : emits [] r = r.
Proof. destruct r; reflexivity. Qed.

Lemma tokenize_cons_ws (c : N) (s : jsstring) :
  is_ws c = true -> tokenize (c :: s) = tokenize s.
Proof. intros H. unfold tokenize. simpl. now rewrite H. Qed.

Lemma tokenize_ws (w s : jsstring) :
  forallb is_ws w = true -> tokenize (w ++ s) = tokenize s.
Proof.
  induction w as [ | c w IH]; simpl; [reflexivity | ].
  intros H. apply andb_true_iff in H as [Hc Hw].
  rewrite tokenize_cons_ws by exact Hc. auto.
Qed.

Lemma tokenize_lbrace (s : jsstring) :
  tokenize (c_lbrace :: s) = emits [TLBrace] (tokenize s).
Proof. rewrite <- emit_emits. reflexivity. Qed.

Lemma tokenize_rbrace (s : jsstring) :
  tokenize (c_rbrace :: s) = emits [TRBrace] (tokenize s).
Proof. rewrite <- emit_emits. reflexivity. Qed.

Lemma tokenize_lbracket (s : jsstring) :
  tokenize (c_lbracket :: s) = emits [TLBracket] (tokenize s).
Proof. rewrite <- emit_emits. reflexivity. Qed.

Lemma tokenize_rbracket (s : jsstring) :
  tokenize (c_rbracket :: s) = emits [TRBracket] (tokenize s).
Proof. rewrite <- emit_emits. reflexivity. Qed.

Lemma tokenize_comma (s : jsstring) :
  tokenize (c_comma :: s) = emits [TComma] (tokenize s).
Proof. rewrite <- emit_emits. reflexivity. Qed.

Lemma tokenize_colon (s : jsstring) :
  tokenize (c_colon :: s) = emits [TColon] (tokenize s).
Proof. rewrite <- emit_emits. reflexivity. Qed.

Lemma tokenize_string (s str r : jsstring) :
  lex_string s = Some (str, r) ->
  tokenize (c_quote :: s) = emits [TStr str] (tokenize r).
Proof.
  intros H. rewrite <- emit_emits. unfold tokenize. simpl. rewrite H.
  f_equal. apply lex_enough; [ | lia].
  apply (lex_string_shorter (length s)) in H; lia.
Qed.

Lemma tokenize_null (s : jsstring) :
  tokenize (js "null" ++ s) = emits [TNull] (tokenize s).
Proof.
  rewrite <- emit_emits. unfold tokenize.
  set (n := length s).
  change (lex (length (js "null" ++ s)) (js "null" ++ s))
    with (emit TNull (lex (length (js "null") - 1 + n) s)).
  f_equal. apply lex_enough; subst n; lia.
Qed.

Lemma tokenize_true (s : jsstring) :
  tokenize (js "true" ++ s) = emits [TTrue] (tokenize s).
Proof.
  rewrite <- emit_emits. unfold tokenize.
  set (n := length s).
  change (lex (length (js "true" ++ s)) (js "true" ++ s))
    with (emit TTrue (lex (length (js "true") - 1 + n) s)).
  f_equal. apply lex_enough; subst n; lia.
Qed.

Lemma tokenize_false (s : jsstring) :
  tokenize (js "false" ++ s) = emits [TFalse] (tokenize s).
Proof.
  rewrite <- emit_emits. unfold tokenize.
  set (n := length s).
  change (lex (length (js "false" ++ s)) (js "false" ++ s))
    with (emit TFalse (lex (length (js "false") - 1 + n) s)).
  f_equal. apply lex_enough; subst n; lia.
Qed.


Lemma span_num_app (t rest : jsstring) :
  forallb is_num_char t = true -> delimited rest = true ->
  span_num (t ++ rest) = (t, rest).
Proof.
  intros Ht Hr. induction t as [ | c t IH]; simpl in *.
  - destruct rest as [ | d rest]; [reflexivity | ]. simpl in *.
    destruct (is_num_char d); [discriminate | reflexivity].
  - apply andb_true_iff in Ht as [Hc Ht]. rewrite Hc, IH by exact Ht. reflexivity.
Qed.

Lemma tokenize_number (t rest : jsstring) (x : number) (c : N) (t' : jsstring) :
  t = c :: t' -> is_digit c || (c =? c_minus)%N = true ->
  forallb is_num_char t = true -> delimited rest = true ->
  parse_number t = Some x ->
  tokenize (t ++ rest) = emits [TNum x] (tokenize rest).
Proof.
  intros -> Hc Ht Hr Hp. rewrite <- emit_emits. unfold tokenize.
  change ((c :: t') ++ rest) with (c :: (t' ++ rest)).
  cbn [length lex].
  assert (Hn : is_num_char c = true).
  { simpl in Ht. now apply andb_true_iff in Ht as [-> _]. }
  assert (Hws : is_ws c = false).
  { unfold is_num_char, is_digit in Hn. unfold is_ws.
    repeat match goal with
           | |- context [(c =? ?k)%N] => destruct (N.eqb_spec c k); [subst; discriminate Hn | ]
           end. reflexivity. }
  rewrite Hws.
  assert (Hsp : span_num (c :: t' ++ rest) = (c :: t', rest)).
  { apply (span_num_app (c :: t')); assumption. }
  unfold is_digit in Hc.
  repeat match goal with
         | |- context [(c =? ?k)%N] =>
             lazymatch k with
             | c_minus => fail
             | _ => destruct (N.eqb_spec c k);
                    [subst; vm_compute in Hc; discriminate Hc | ]
             end
         end.
  unfold is_digit. rewrite Hc. rewrite Hsp, Hp.
  f_equal. apply lex_enough; [ | lia]. rewrite length_app. lia.
Qed.

(** *** Strings *)

Lemma hex_val_digit (d : N) : (d < 16)%N -> hex_val (hex_digit d) = Some d.
Proof.
  intros H.
  assert (Hd : (d = 0 \/ d = 1 \/ d = 2 \/ d = 3 \/ d = 4 \/ d = 5 \/ d = 6
                \/ d = 7 \/ d = 8 \/ d = 9 \/ d = 10 \/ d = 11 \/ d = 12
                \/ d = 13 \/ d = 14 \/ d = 15)%N) by lia.
  repeat (destruct Hd as [-> | Hd]; [reflexivity | ]). subst. reflexivity.
Qed.

Lemma hex4_escape (c : N) :
  (c < 65536)%N ->
  hex4 (hex_digit (c / 4096 mod 16)) (hex_digit (c / 256 mod 16))
       (hex_digit (c / 16 mod 16)) (hex_digit (c mod 16)) = Some c.
Proof.
  intros H. unfold hex4.
  rewrite !hex_val_digit by (apply N.mod_lt; discriminate).
  f_equal.
  pose proof (N.div_mod c 16 ltac:(discriminate)).
  pose proof (N.div_mod (c / 16) 16 ltac:(discriminate)).
  pose proof (N.div_mod (c / 16 / 16) 16 ltac:(discriminate)).
  pose proof (N.mod_lt c 16 ltac:(discriminate)).
  pose proof (N.mod_lt (c / 16) 16 ltac:(discriminate)).
  pose proof (N.mod_lt (c / 16 / 16) 16 ltac:(discriminate)).
  assert (H256 : (c / 256 = c / 16 / 16)%N) by (now rewrite N.Div0.div_div).
  assert (H4096 : (c / 4096 = c / 16 / 16 / 16)%N) by (now rewrite !N.Div0.div_div).
  assert (Hsmall : (c / 16 / 16 / 16 < 16)%N).
  { rewrite !N.Div0.div_div. apply N.Div0.div_lt_upper_bound. simpl. lia. }
  rewrite H256, H4096.
  rewrite (N.mod_small (c / 16 / 16 / 16) 16) by exact Hsmall.
  pose proof (N.div_mod (c / 16 / 16) 16 ltac:(discriminate)).
  lia.
Qed.

Lemma lex_string_unicode_escape (c : N) (r : jsstring) :
  (c < 65536)%N ->
  lex_string (unicode_escape c ++ r) = push c (lex_string r).
Proof.
  intros H. unfold unicode_escape. simpl. now rewrite hex4_escape.
Qed.

Lemma lex_string_literal (c : N) (r : jsstring) :
  (c =? c_quote)%N = false -> (c =? c_backslash)%N = false -> (c <? 32)%N = false ->
  lex_string (c :: r) = push c (lex_string r).
Proof. intros H1 H2 H3. simpl. now rewrite H1, H2, H3. Qed.

Lemma lex_string_quote_unit (c : N) (r : jsstring) :
  lex_string (quote_unit c ++ r) = push c (lex_string r).
Proof.
  unfold quote_unit.
  repeat match goal with
         | |- context [(c =? ?k)%N] =>
             destruct (N.eqb_spec c k); [subst; reflexivity | ]
         end.
  destruct ((c <? 32)%N || is_high_surrogate c || is_low_surrogate c) eqn:He.
  - apply lex_string_unicode_escape.
    unfold is_high_surrogate, is_low_surrogate in He.
    destruct (N.ltb_spec c 32); [lia | ]. simpl in He.
    apply orb_true_iff in He as [He | He];
      apply andb_true_iff in He as [_ He]; apply N.leb_le in He; lia.
  - apply orb_false_iff in He as [He _]. apply orb_false_iff in He as [He _].
    apply lex_string_literal; [ | | exact He];
      apply N.eqb_neq; assumption.
Qed.

Lemma surrogate_literal (c : N) :
  is_high_surrogate c || is_low_surrogate c = true ->
  (c =? c_quote)%N = false /\ (c =? c_backslash)%N = false /\ (c <? 32)%N = false.
Proof.
  unfold is_high_surrogate, is_low_surrogate. intros H.
  assert (55296 <= c)%N.
  { apply orb_true_iff in H as [H | H]; apply andb_true_iff in H as [H _];
      apply N.leb_le in H; lia. }
  repeat split; [apply N.eqb_neq | apply N.eqb_neq | apply N.ltb_ge];
    unfold c_quote, c_backslash; lia.
Qed.

Lemma lex_string_quote_unit_high (c : N) (r : jsstring) :
  is_high_surrogate c = true ->
  lex_string (unicode_escape c ++ r) = push c (lex_string r).
Proof.
  intros H. apply lex_string_unicode_escape.
  unfold is_high_surrogate in H. apply andb_true_iff in H as [_ H].
  apply N.leb_le in H. lia.
Qed.

Lemma lex_string_quote_units (n : nat) (s rest : jsstring) :
  (length s <= n)%nat ->
  lex_string (quote_units s ++ c_quote :: rest) = Some (s, rest).
Proof.
  revert s. induction n as [ | n IH]; intros s Hn.
  - destruct s; [reflexivity | simpl in Hn; lia].
  - destruct s as [ | c r]; [reflexivity | ]. simpl in Hn.
    cbn [quote_units].
    destruct (is_high_surrogate c) eqn:Hh.
    + destruct r as [ | d r'].
      * rewrite lex_string_quote_unit_high by exact Hh. reflexivity.
      * destruct (is_low_surrogate d) eqn:Hl.
        -- destruct (surrogate_literal c) as (A1 & A2 & A3); [now rewrite Hh | ].
           destruct (surrogate_literal d) as (B1 & B2 & B3);
             [now rewrite Hl, orb_true_r | ].
           change ((c :: d :: quote_units r') ++ c_quote :: rest)
             with (c :: d :: (quote_units r' ++ c_quote :: rest)).
           rewrite lex_string_literal by assumption.
           rewrite lex_string_literal by assumption.
           rewrite IH by (simpl in Hn; lia). reflexivity.
        -- rewrite <- app_assoc, lex_string_quote_unit_high by exact Hh.
           rewrite IH by lia. reflexivity.
    + rewrite <- app_assoc, lex_string_quote_unit, IH by lia. reflexivity.
Qed.



Lemma digits_are_num_chars (ds : jsstring) :
  forallb is_digit ds = true -> forallb is_num_char ds = true.
Proof.
  induction ds as [ | c ds IH]; cbn [forallb]; [reflexivity | ].
  intros H. apply andb_true_iff in H as [Hc Hd].
  rewrite IH by exact Hd. unfold is_num_char. rewrite Hc. reflexivity.
Qed.

Lemma span_digits_eq (s ds r : jsstring) :
  span_digits s = (ds, r) -> s = ds ++ r /\ forallb is_num_char ds = true.
Proof.
  intros H. pose proof (span_digits_spec s) as [H1 H2]. rewrite H in *. simpl in *.
  split; [exact H1 | now apply digits_are_num_chars].
Qed.

(** The text of a number that reads as a number: its shape. *)
Lemma exponent_chars (s3 : jsstring) (ex : Z) :
  read_exponent s3 = Some (ex, []) -> forallb is_num_char s3 = true.
Proof.
  unfold read_exponent.
  destruct s3 as [ | c r]; [reflexivity | ].
  destruct ((c =? c_e) || (c =? c_E))%N eqn:Hc; [ | discriminate].
  assert (Hcn : is_num_char c = true).
  { unfold is_num_char. apply orb_true_iff in Hc as [-> | ->];
      rewrite ?orb_true_r; reflexivity. }
  simpl. rewrite Hcn. simpl.
  destruct r as [ | d r'].
  - simpl. discriminate.
  - destruct (N.eqb_spec d c_minus) as [-> | Hm].
    + destruct (span_digits r') as [ep r2] eqn:Hs.
      apply span_digits_eq in Hs as [-> He].
      destruct ep; [discriminate | ]. intros [= _ ->].
      rewrite app_nil_r. simpl in *. exact He.
    + destruct (N.eqb_spec d c_plus) as [-> | Hp].
      * destruct (span_digits r') as [ep r2] eqn:Hs.
        apply span_digits_eq in Hs as [-> He].
        destruct ep; [discriminate | ]. intros [= _ ->].
        rewrite app_nil_r. simpl in *. exact He.
      * destruct (span_digits (d :: r')) as [ep r2] eqn:Hs.
        apply span_digits_eq in Hs as [Hs He].
        destruct ep; [discriminate | ]. intros [= _ ->].
        rewrite app_nil_r in Hs. rewrite Hs. exact He.
Qed.

Lemma fraction_chars (s2 fp s3 : jsstring) :
  read_fraction s2 = Some (fp, s3) ->
  exists pre, s2 = pre ++ s3 /\ forallb is_num_char pre = true.
Proof.
  unfold read_fraction. destruct s2 as [ | c r].
  - intros [= <- <-]. exists []. auto.
  - destruct (N.eqb_spec c c_dot) as [-> | Hc].
    + destruct (span_digits r) as [fp' r'] eqn:Hs.
      apply span_digits_eq in Hs as [-> Hf].
      destruct fp'; [discriminate | ]. intros [= <- <-].
      exists (c_dot :: n :: fp'). simpl in *. auto.
    + intros [= <- <-]. exists []. auto.
Qed.

Lemma parse_number_shape (t : jsstring) (x : number) :
  parse_number t = Some x ->
  exists c t', t = c :: t'
    /\ is_digit c || (c =? c_minus)%N = true
    /\ forallb is_num_char t = true.
Proof.
  unfold parse_number.
  assert (Hsg : (t = snd (read_sign t) /\
                 match t with c :: _ => (c =? c_minus)%N = false | [] => True end)
                \/ (t = c_minus :: snd (read_sign t))).
  { unfold read_sign. destruct t as [ | c r]; [left; auto | ].
    destruct (N.eqb_spec c c_minus) as [-> | Hc]; [right; reflexivity | left; auto]. }
  destruct (read_sign t) as [neg s1]. simpl in Hsg.
  destruct (span_digits s1) as [ip s2] eqn:Hip.
  pose proof (span_digits_spec s1) as [_ Hdig]. rewrite Hip in Hdig. simpl in Hdig.
  apply span_digits_eq in Hip as [-> Hipn].
  destruct (int_part_ok ip) eqn:Hok; [ | discriminate]. simpl.
  destruct ip as [ | i0 ip']; [discriminate | ].
  destruct (read_fraction s2) as [[fp s3] | ] eqn:Hfrac; [ | discriminate].
  apply fraction_chars in Hfrac as (pre & -> & Hpre).
  destruct (read_exponent s3) as [[ex rest] | ] eqn:He; [ | discriminate].
  destruct rest; [ | discriminate]. intros _.
  apply exponent_chars in He.
  assert (Hall : forallb is_num_char ((i0 :: ip') ++ pre ++ s3) = true).
  { rewrite !forallb_app. rewrite Hipn, Hpre, He. reflexivity. }
  simpl in Hdig. apply andb_true_iff in Hdig as [Hi0 _].
  destruct Hsg as [(-> & _) | ->].
  - exists i0, (ip' ++ pre ++ s3). repeat split; [now rewrite Hi0 | exact Hall].
  - exists c_minus, ((i0 :: ip') ++ pre ++ s3). repeat split.
    change (forallb is_num_char (c_minus :: (i0 :: ip') ++ pre ++ s3))
      with (is_num_char c_minus && forallb is_num_char ((i0 :: ip') ++ pre ++ s3)).
    rewrite Hall. reflexivity.
Qed.

Lemma tokenize_number_text (x : number) (rest : jsstring) :
  parse_number (number_to_string x) = Some x -> delimited rest = true ->
  tokenize (number_to_string x ++ rest) = emits [TNum x] (tokenize rest).
Proof.
  intros Hp Hr. destruct (parse_number_shape _ _ Hp) as (c & t' & Ht & Hc & Hall).
  eapply tokenize_number; eassumption.
Qed.





(** * Numbers: printing and reading *)

(** ** Digit strings *)

Lemma digit_char_is_digit (d : Z) : 0 <= d <= 9 -> is_digit (digit_char d) = true.
Proof.
  intros H. unfold is_digit, digit_char, c_zero.
  apply andb_true_iff. split; apply N.leb_le; lia.
Qed.

Lemma digit_val_char (d : Z) : 0 <= d <= 9 -> digit_val (digit_char d) = d.
Proof. intros H. unfold digit_val, digit_char. lia. Qed.

Lemma digits_val_fold (ds : jsstring) (acc : Z) :
  fold_left (fun a d => a * 10 + digit_val d) ds acc
  = acc * 10 ^ Z.of_nat (length ds) + digits_val ds.
Proof.
  unfold digits_val. revert acc. induction ds as [ | d ds IH]; intros acc.
  - simpl. lia.
  - cbn [fold_left length]. rewrite IH, (IH (0 * 10 + digit_val d)).
    rewrite Nat2Z.inj_succ, Z.pow_succ_r by lia. lia.
Qed.

Lemma digits_val_app (a b : jsstring) :
  digits_val (a ++ b) = digits_val a * 10 ^ Z.of_nat (length b) + digits_val b.
Proof. unfold digits_val at 1. rewrite fold_left_app. apply digits_val_fold. Qed.

Lemma digits_val_zeros (n : nat) : digits_val (repeat c_zero n) = 0.
Proof.
  induction n as [ | n IH]; [reflexivity | ].
  change (repeat c_zero (S n)) with ([c_zero] ++ repeat c_zero n).
  rewrite digits_val_app, IH. reflexivity.
Qed.

Lemma zeros_are_digits (n : nat) : forallb is_digit (repeat c_zero n) = true.
Proof. induction n; simpl; [reflexivity | exact IHn]. Qed.

Lemma digits_of_length (k : nat) (s : Z) : length (digits_of k s) = k.
Proof.
  revert s. induction k as [ | k IH]; intros s; simpl; [reflexivity | ].
  rewrite length_app, IH. simpl. lia.
Qed.

Lemma digits_of_digits (k : nat) (s : Z) : forallb is_digit (digits_of k s) = true.
Proof.
  revert s. induction k as [ | k IH]; intros s; simpl; [reflexivity | ].
  rewrite forallb_app, IH. simpl.
  rewrite digit_char_is_digit; [reflexivity | ].
  pose proof (Z.mod_pos_bound s 10). lia.
Qed.

Lemma digits_of_val (k : nat) (s : Z) :
  0 <= s < 10 ^ Z.of_nat k -> digits_val (digits_of k s) = s.
Proof.
  revert s. induction k as [ | k IH]; intros s Hs.
  - simpl in *. unfold digits_val. simpl. lia.
  - rewrite Nat2Z.inj_succ, Z.pow_succ_r in Hs by lia.
    cbn [digits_of]. rewrite digits_val_app. simpl length.
    rewrite IH.
    + unfold digits_val at 1. simpl.
      rewrite digit_val_char by (pose proof (Z.mod_pos_bound s 10); lia).
      pose proof (Z.div_mod s 10). lia.
    + split; [apply Z.div_pos; lia | ].
      apply Z.div_lt_upper_bound; lia.
Qed.

(** The first digit of a number with exactly [k] digits is not 0. *)
Lemma digits_of_head (k : nat) (s : Z) :
  10 ^ (Z.of_nat k - 1) <= s < 10 ^ Z.of_nat k -> (0 < k)%nat ->
  exists c ds, digits_of k s = c :: ds /\ (c =? c_zero)%N = false.
Proof.
  revert s. induction k as [ | k IH]; intros s Hs Hk; [lia | ].
  destruct k as [ | k].
  - assert (Hs' : 1 <= s < 10) by exact Hs.
    exists (digit_char (s mod 10)), []. split; [reflexivity | ].
    rewrite Z.mod_small by lia. unfold digit_char, c_zero. apply N.eqb_neq.
    clear - Hs'. lia.
  - set (a := Z.of_nat (S k)) in *.
    assert (Ha : 1 <= a) by (subst a; lia).
    replace (Z.of_nat (S (S k)) - 1) with a in Hs by (subst a; lia).
    replace (Z.of_nat (S (S k))) with (Z.succ a) in Hs by (subst a; lia).
    rewrite Z.pow_succ_r in Hs by lia.
    assert (Hp : 10 ^ a = 10 * 10 ^ (a - 1)).
    { replace a with (Z.succ (a - 1)) at 1 by lia. apply Z.pow_succ_r. lia. }
    destruct (IH (s / 10)) as (c & ds & Hd & Hc); [ | lia | ].
    + split; [apply Z.div_le_lower_bound; lia | apply Z.div_lt_upper_bound; lia].
    + cbn [digits_of] in *. rewrite Hd. exists c, (ds ++ [digit_char (s mod 10)]).
      split; [reflexivity | exact Hc].
Qed.

Lemma span_digits_app (ds rest : jsstring) :
  forallb is_digit ds = true ->
  match rest with [] => true | c :: _ => negb (is_digit c) end = true ->
  span_digits (ds ++ rest) = (ds, rest).
Proof.
  intros Hd Hr. induction ds as [ | d ds IH]; simpl in *.
  - destruct rest as [ | c rest]; [reflexivity | ].
    simpl. destruct (is_digit c); [discriminate | reflexivity].
  - apply andb_true_iff in Hd as [Hd1 Hd2]. rewrite Hd1, IH by exact Hd2. reflexivity.
Qed.

Lemma int_part_ok_head (c : N) (ds : jsstring) :
  (c =? c_zero)%N = false -> int_part_ok (c :: ds) = true.
Proof. intros H. destruct ds; simpl; [reflexivity | now rewrite H]. Qed.

(** ** Reading a number given by its parts *)





Lemma digit_not_punct (c : N) :
  is_digit c = true ->
  (c =? c_minus)%N = false /\ (c =? c_plus)%N = false /\ (c =? c_dot)%N = false
  /\ (c =? c_e)%N = false /\ (c =? c_E)%N = false.
Proof.
  unfold is_digit, c_zero. intros H. apply andb_true_iff in H as [H1 H2].
  apply N.leb_le in H1, H2.
  repeat split; apply N.eqb_neq; unfold c_minus, c_plus, c_dot, c_e, c_E; lia.
Qed.

Lemma parse_number_parts (neg : bool) (ip fp : jsstring)
  (ex : option (bool * jsstring)) :
  forallb is_digit ip = true -> int_part_ok ip = true ->
  forallb is_digit fp = true ->
  match ex with
  | Some (_, ep) => forallb is_digit ep = true /\ ep <> []
  | None => True
  end ->
  parse_number (sign_text neg ++ ip ++ fraction_text fp ++ exponent_text ex)
  = Some (decimal_to_double neg (digits_val (ip ++ fp))
            (exponent_val ex - Z.of_nat (length fp))).
Proof.
  intros Hip Hok Hfp Hex.
  destruct ip as [ | i0 ip']; [discriminate | ].
  assert (Hi0 : is_digit i0 = true) by (simpl in Hip; now apply andb_true_iff in Hip).
  destruct (digit_not_punct i0 Hi0) as (Hm & _).
  assert (Hexp_nd : match exponent_text ex with
                    | [] => true
                    | c :: _ => negb (is_digit c)
                    end = true).
  { destruct ex as [[eneg ep] | ]; reflexivity. }
  assert (Htail_nd : match fraction_text fp ++ exponent_text ex with
                     | [] => true
                     | c :: _ => negb (is_digit c)
                     end = true).
  { destruct fp; [exact Hexp_nd | reflexivity]. }
  assert (Hsign :
    read_sign (sign_text neg ++ (i0 :: ip') ++ fraction_text fp ++ exponent_text ex)
    = (neg, (i0 :: ip') ++ fraction_text fp ++ exponent_text ex)).
  { destruct neg; simpl; [reflexivity | now rewrite Hm]. }
  assert (Hfrac : read_fraction (fraction_text fp ++ exponent_text ex)
                  = Some (fp, exponent_text ex)).
  { destruct fp as [ | f0 fp'].
    - simpl. destruct ex as [[eneg ep] | ]; reflexivity.
    - unfold fraction_text.
      change ((c_dot :: f0 :: fp') ++ exponent_text ex)
        with (c_dot :: ((f0 :: fp') ++ exponent_text ex)).
      unfold read_fraction. rewrite N.eqb_refl.
      rewrite span_digits_app by assumption. reflexivity. }
  assert (Hexp : read_exponent (exponent_text ex) = Some (exponent_val ex, [])).
  { destruct ex as [[eneg ep] | ]; [ | reflexivity].
    destruct Hex as [Hep Hne].
    unfold exponent_text, exponent_val, read_exponent. rewrite N.eqb_refl. cbn [orb].
    pose proof (span_digits_app ep [] Hep eq_refl) as Hs. rewrite app_nil_r in Hs.
    destruct eneg.
    - rewrite N.eqb_refl. rewrite Hs. destruct ep; [congruence | reflexivity].
    - change (c_plus =? c_minus)%N with false. rewrite N.eqb_refl.
      rewrite Hs. destruct ep; [congruence | reflexivity]. }
  unfold parse_number. rewrite Hsign.
  rewrite span_digits_app by assumption. rewrite Hok. cbn [negb].
  rewrite Hfrac, Hexp. reflexivity.
Qed.



Lemma count_digits_enough (f : nat) (z : Z) :
  0 <= z < 10 ^ (Z.of_nat f + 1) ->
  z < 10 ^ Z.of_nat (count_digits f z) /\ (1 <= count_digits f z)%nat.
Proof.
  revert z. induction f as [ | f IH]; intros z Hz.
  - simpl in *. change (10 ^ 1) with 10 in *. lia.
  - cbn [count_digits]. destruct (Z.ltb_spec z 10).
    + change (10 ^ Z.of_nat 1) with 10. lia.
    + replace (Z.of_nat (S f) + 1) with (Z.succ (Z.of_nat f + 1)) in Hz by lia.
      rewrite Z.pow_succ_r in Hz by lia.
      destruct (IH (z / 10)) as [H1 H2].
      * split; [apply Z.div_pos; lia | apply Z.div_lt_upper_bound; lia].
      * rewrite Nat2Z.inj_succ, Z.pow_succ_r by lia.
        pose proof (Z.div_mod z 10). pose proof (Z.mod_pos_bound z 10). lia.
Qed.

Lemma decimal_spec (z : Z) :
  0 <= z ->
  forallb is_digit (decimal z) = true /\ decimal z <> []
  /\ digits_val (decimal z) = z.
Proof.
  intros Hz. unfold decimal.
  set (f := Z.to_nat (Z.log2 z)).
  assert (Hb : z < 10 ^ (Z.of_nat f + 1)).
  { subst f. rewrite Z2Nat.id by apply Z.log2_nonneg.
    destruct (Z.eq_dec z 0) as [-> | Hnz]; [reflexivity | ].
    pose proof (Z.log2_spec z ltac:(lia)) as [_ Hl].
    replace (Z.succ (Z.log2 z)) with (Z.log2 z + 1) in Hl by lia.
    eapply Z.lt_le_trans; [exact Hl | ].
    apply Z.pow_le_mono_l. pose proof (Z.log2_nonneg z). lia. }
  destruct (count_digits_enough f z ltac:(lia)) as [H1 H2].
  repeat split.
  - apply digits_of_digits.
  - intros H. apply (f_equal (@length N)) in H. rewrite digits_of_length in H.
    simpl in H. lia.
  - apply digits_of_val. lia.
Qed.

Lemma exponent_part_text (n : Z) :
  exponent_part n
  = exponent_text (Some (negb (0 <? n - 1), decimal (Z.abs (n - 1)))).
Proof. unfold exponent_part, exponent_text. destruct (0 <? n - 1); reflexivity. Qed.

Lemma exponent_part_val (n : Z) :
  exponent_val (Some (negb (0 <? n - 1), decimal (Z.abs (n - 1)))) = n - 1.
Proof.
  unfold exponent_val.
  destruct (decimal_spec (Z.abs (n - 1)) ltac:(lia)) as (_ & _ & ->).
  destruct (Z.ltb_spec 0 (n - 1)); simpl; lia.
Qed.

Lemma decimal_to_double_scaled (neg : bool) (s a : Z) :
  0 < s -> 0 <= a ->
  decimal_to_double neg (s * 10 ^ a) 0 = decimal_to_double neg s a.
Proof.
  intros Hs Ha. unfold decimal_to_double.
  assert (0 < 10 ^ a) by (apply Z.pow_pos_nonneg; lia).
  destruct (Z.eqb_spec (s * 10 ^ a) 0); [nia | ].
  destruct (Z.eqb_spec s 0); [lia | ].
  destruct (Z.leb_spec 0 a); [ | lia]. simpl.
  now rewrite Z.mul_1_r.
Qed.

Lemma forallb_take_drop (P : N -> bool) (n : nat) (ds : jsstring) :
  forallb P ds = true -> forallb P (take n ds) = true /\ forallb P (drop n ds) = true.
Proof.
  intros H. rewrite <- (take_drop n ds), forallb_app in H.
  now apply andb_true_iff in H.
Qed.

Lemma fraction_text_cons (fp : jsstring) :
  fp <> [] -> fraction_text fp = c_dot :: fp.
Proof. destruct fp; [congruence | reflexivity]. Qed.

(** Reading what [format_digits] prints. *)
Lemma parse_format_digits (neg : bool) (k : nat) (s n : Z) :
  (0 < k)%nat -> 10 ^ (Z.of_nat k - 1) <= s < 10 ^ Z.of_nat k ->
  parse_number (sign_text neg ++ format_digits k s n)
  = Some (decimal_to_double neg s (n - Z.of_nat k)).
Proof.
  intros Hk Hs.
  assert (Hs0 : 0 < s).
  { assert (0 < 10 ^ (Z.of_nat k - 1)) by (apply Z.pow_pos_nonneg; lia). lia. }
  destruct (digits_of_head k s Hs Hk) as (c & ds' & Hds & Hc).
  pose proof (digits_of_digits k s) as Hdig.
  pose proof (digits_of_length k s) as Hlen.
  pose proof (digits_of_val k s ltac:(lia)) as Hval.
  unfold format_digits.
  set (ds := digits_of k s) in *.
  set (kz := Z.of_nat k).
  destruct ((kz <=? n) && (n <=? 21)) eqn:C1.
  { apply andb_true_iff in C1 as [C1 _]. apply Z.leb_le in C1.
    pose proof (parse_number_parts neg (ds ++ repeat c_zero (Z.to_nat (n - kz))) [] None)
      as Hp.
    cbn [fraction_text exponent_text exponent_val length] in Hp.
    rewrite !app_nil_r in Hp. rewrite Hp; clear Hp.
    - rewrite digits_val_app, digits_val_zeros, repeat_length, Hval.
      rewrite Z2Nat.id by lia. rewrite Z.add_0_r.
      change (0 - Z.of_nat 0) with 0.
      now rewrite decimal_to_double_scaled by lia.
    - rewrite forallb_app, Hdig. apply zeros_are_digits.
    - rewrite Hds. cbn [app]. now apply int_part_ok_head.
    - reflexivity.
    - exact I. }
  destruct ((0 <? n) && (n <=? 21)) eqn:C2.
  { apply andb_true_iff in C2 as [C2 C2']. apply Z.ltb_lt in C2. apply Z.leb_le in C2'.
    assert (Hnk : n < kz).
    { destruct (Z.leb_spec kz n); [ | lia].
      destruct (Z.leb_spec n 21); [discriminate | lia]. }
    destruct (forallb_take_drop is_digit (Z.to_nat n) ds Hdig) as [Ht Hd].
    assert (Hdl : length (drop (Z.to_nat n) ds) = (k - Z.to_nat n)%nat).
    { rewrite length_drop, Hlen. reflexivity. }
    destruct (drop (Z.to_nat n) ds) as [ | f0 fp'] eqn:Hdrop;
      [simpl in Hdl; subst kz; lia | ].
    pose proof (parse_number_parts neg (take (Z.to_nat n) ds) (f0 :: fp') None) as Hp.
    cbn [fraction_text exponent_text exponent_val] in Hp.
    rewrite !app_nil_r in Hp. rewrite Hp; clear Hp.
    - rewrite Hdl, <- Hdrop, take_drop, Hval. f_equal. f_equal. subst kz. lia.
    - exact Ht.
    - rewrite Hds. destruct (Z.to_nat n) eqn:Hn; [lia | ].
      cbn [take]. now apply int_part_ok_head.
    - exact Hd.
    - exact I. }
  destruct ((-6 <? n) && (n <=? 0)) eqn:C3.
  { apply andb_true_iff in C3 as [C3 C3']. apply Z.ltb_lt in C3. apply Z.leb_le in C3'.
    pose proof (parse_number_parts neg [c_zero] (repeat c_zero (Z.to_nat (- n)) ++ ds) None)
      as Hp.
    rewrite fraction_text_cons in Hp
      by (rewrite Hds; destruct (repeat c_zero (Z.to_nat (- n))); discriminate).
    cbn [exponent_text exponent_val] in Hp. rewrite !app_nil_r in Hp.
    change (sign_text neg ++ c_zero :: c_dot :: repeat c_zero (Z.to_nat (- n)) ++ ds)
      with (sign_text neg ++ [c_zero] ++ c_dot :: repeat c_zero (Z.to_nat (- n)) ++ ds).
    rewrite Hp; clear Hp.
    - rewrite digits_val_app, digits_val_app, digits_val_zeros, Hval.
      rewrite length_app, repeat_length, Hlen.
      change (digits_val [c_zero]) with 0.
      f_equal. f_equal; subst kz; lia.
    - reflexivity.
    - reflexivity.
    - rewrite forallb_app, zeros_are_digits, Hdig. reflexivity.
    - exact I. }
  destruct (decimal_spec (Z.abs (n - 1)) ltac:(lia)) as (He1 & He2 & He3).
  destruct (Nat.eqb_spec k 1) as [-> | Hk1].
  { rewrite exponent_part_text.
    pose proof (parse_number_parts neg ds []
                  (Some (negb (0 <? n - 1), decimal (Z.abs (n - 1))))) as Hp.
    cbn [fraction_text app] in Hp. rewrite Hp; clear Hp.
    - rewrite exponent_part_val, app_nil_r, Hval. f_equal. f_equal.
      subst kz. simpl. lia.
    - exact Hdig.
    - rewrite Hds. now apply int_part_ok_head.
    - reflexivity.
    - split; assumption. }
  { rewrite exponent_part_text.
    destruct (forallb_take_drop is_digit 1 ds Hdig) as [Ht Hd].
    assert (Hdl : length (drop 1 ds) = (k - 1)%nat).
    { rewrite length_drop, Hlen. reflexivity. }
    destruct (drop 1 ds) as [ | f0 fp'] eqn:Hdrop; [simpl in Hdl; lia | ].
    pose proof (parse_number_parts neg (take 1 ds) (f0 :: fp')
                  (Some (negb (0 <? n - 1), decimal (Z.abs (n - 1))))) as Hp.
    cbn [fraction_text] in Hp.
    change (take 1 ds ++ c_dot :: (f0 :: fp')
              ++ exponent_text (Some (negb (0 <? n - 1), decimal (Z.abs (n - 1)))))
      with (take 1 ds ++ (c_dot :: f0 :: fp')
              ++ exponent_text (Some (negb (0 <? n - 1), decimal (Z.abs (n - 1))))).
    rewrite Hp; clear Hp.
    - rewrite exponent_part_val, Hdl, <- Hdrop, take_drop, Hval.
      f_equal. f_equal. subst kz. lia.
    - exact Ht.
    - rewrite Hds. cbn [take]. reflexivity.
    - exact Hd.
    - split; assumption. }
Qed.



(** ** Powers of two and ten as real numbers *)

Lemma IZR_pow (b e : Z) : 0 <= e -> IZR (b ^ e) = powerRZ (IZR b) e.
Proof.
  intros He. rewrite <- (Z2Nat.id e He), <- pow_IZR, pow_powerRZ. reflexivity.
Qed.

Lemma powerRZ_pos (b : R) (e : Z) : (0 < b)%R -> (0 < powerRZ b e)%R.
Proof. apply powerRZ_lt. Qed.

Lemma powerRZ_plus (b : R) (x y : Z) :
  (0 < b)%R -> powerRZ b (x + y) = (powerRZ b x * powerRZ b y)%R.
Proof. intros Hb. apply powerRZ_add. lra. Qed.

Lemma powerRZ_succ (b : R) (x : Z) :
  (0 < b)%R -> powerRZ b (x + 1) = (powerRZ b x * b)%R.
Proof. intros Hb. rewrite powerRZ_plus by exact Hb. now rewrite powerRZ_1. Qed.

Lemma powerRZ_minus (b : R) (x y : Z) :
  (0 < b)%R -> powerRZ b (x - y) = (powerRZ b x / powerRZ b y)%R.
Proof.
  intros Hb. unfold Z.sub, Rdiv. rewrite powerRZ_plus by exact Hb.
  now rewrite powerRZ_neg'.
Qed.

Lemma powerRZ_ge_1 (b : R) (e : Z) : (1 <= b)%R -> 0 <= e -> (1 <= powerRZ b e)%R.
Proof.
  intros Hb He. rewrite <- (Z2Nat.id e He), <- pow_powerRZ.
  apply pow_R1_Rle. exact Hb.
Qed.

Lemma powerRZ_le_mono (b : R) (x y : Z) :
  (1 <= b)%R -> x <= y -> (powerRZ b x <= powerRZ b y)%R.
Proof.
  intros Hb Hxy. replace y with (x + (y - x)) by lia.
  rewrite powerRZ_plus by lra.
  pose proof (powerRZ_ge_1 b (y - x) Hb ltac:(lia)).
  pose proof (powerRZ_pos b x ltac:(lra)). nra.
Qed.

Lemma powerRZ_lt_mono (b : R) (x y : Z) :
  (1 < b)%R -> x < y -> (powerRZ b x < powerRZ b y)%R.
Proof.
  intros Hb Hxy. replace y with (x + 1 + (y - x - 1)) by lia.
  rewrite powerRZ_plus, powerRZ_succ by lra.
  pose proof (powerRZ_ge_1 b (y - x - 1) ltac:(lra) ltac:(lia)) as HC.
  pose proof (powerRZ_pos b x ltac:(lra)) as HA.
  assert (H1 : (powerRZ b x < powerRZ b x * b)%R) by nra.
  assert (H2 : (powerRZ b x * b <= powerRZ b x * b * powerRZ b (y - x - 1))%R).
  { rewrite <- (Rmult_1_r (powerRZ b x * b)) at 1.
    apply Rmult_le_compat_l; [nra | exact HC]. }
  lra.
Qed.

Lemma powerRZ_lt_inv (b : R) (x y : Z) :
  (1 < b)%R -> (powerRZ b x < powerRZ b y)%R -> x < y.
Proof.
  intros Hb H. destruct (Z.lt_ge_cases x y) as [Hlt | Hge]; [exact Hlt | ].
  pose proof (powerRZ_le_mono b y x ltac:(lra) Hge). lra.
Qed.


Lemma ratio_pos (p q : Z) : 0 < p -> 0 < q -> (0 < ratio p q)%R.
Proof.
  intros Hp Hq. unfold ratio. apply Rdiv_lt_0_compat; apply IZR_lt; assumption.
Qed.

Lemma ratio_lt (p q : Z) (x : R) :
  0 < q -> ((ratio p q < x)%R <-> (IZR p < x * IZR q)%R).
Proof.
  intros Hq. unfold ratio. pose proof (IZR_lt 0 q Hq) as Hq'.
  split; intros H.
  - apply (Rmult_lt_compat_r (IZR q)) in H; [ | exact Hq'].
    unfold Rdiv in H. rewrite Rmult_assoc, Rinv_l, Rmult_1_r in H by lra. exact H.
  - apply (Rmult_lt_reg_r (IZR q)); [exact Hq' | ].
    unfold Rdiv. rewrite Rmult_assoc, Rinv_l, Rmult_1_r by lra. exact H.
Qed.

Lemma ratio_le (p q : Z) (x : R) :
  0 < q -> ((x <= ratio p q)%R <-> (x * IZR q <= IZR p)%R).
Proof.
  intros Hq. pose proof (ratio_lt p q x Hq) as [H1 H2].
  split; intros H.
  - destruct (Rle_lt_dec (x * IZR q) (IZR p)) as [Hle | Hlt]; [exact Hle | ].
    apply H2 in Hlt. lra.
  - destruct (Rle_lt_dec x (ratio p q)) as [Hle | Hlt]; [exact Hle | ].
    apply H1 in Hlt. lra.
Qed.

Lemma ratio_gt (p q : Z) (x : R) :
  0 < q -> ((x < ratio p q)%R <-> (x * IZR q < IZR p)%R).
Proof.
  intros Hq. unfold ratio. pose proof (IZR_lt 0 q Hq) as Hq'.
  split; intros H.
  - apply (Rmult_lt_compat_r (IZR q)) in H; [ | exact Hq'].
    unfold Rdiv in H. rewrite Rmult_assoc, Rinv_l, Rmult_1_r in H by lra. exact H.
  - apply (Rmult_lt_reg_r (IZR q)); [exact Hq' | ].
    unfold Rdiv. rewrite Rmult_assoc, Rinv_l, Rmult_1_r by lra. exact H.
Qed.

Lemma ratio_scale (p q c : Z) :
  0 < q -> 0 < c -> ratio (p * c) (q * c) = ratio p q.
Proof.
  intros Hq Hc. unfold ratio. rewrite !mult_IZR.
  pose proof (IZR_lt 0 q Hq). pose proof (IZR_lt 0 c Hc). field. lra.
Qed.

(** Multiplying the ratio by a power of [b], whatever the sign of the
    exponent. *)
Lemma ratio_times_pow (b p q e : Z) :
  0 < b -> 0 < q ->
  ratio (if 0 <=? e then p * b ^ e else p) (if 0 <=? e then q else q * b ^ (- e))
  = (ratio p q * powerRZ (IZR b) e)%R.
Proof.
  intros Hb Hq. unfold ratio. pose proof (IZR_lt 0 q Hq) as Hq'.
  pose proof (IZR_lt 0 b Hb) as Hb'.
  destruct (Z.leb_spec 0 e).
  - rewrite mult_IZR, IZR_pow by assumption. field. lra.
  - rewrite mult_IZR, IZR_pow by lia. rewrite powerRZ_neg'.
    pose proof (powerRZ_pos (IZR b) e Hb'). field. lra.
Qed.

Lemma ratio_over_pow (b p q e : Z) :
  0 < b -> 0 < q ->
  ratio (if 0 <=? e then p else p * b ^ (- e)) (if 0 <=? e then q * b ^ e else q)
  = (ratio p q / powerRZ (IZR b) e)%R.
Proof.
  intros Hb Hq. unfold ratio. pose proof (IZR_lt 0 q Hq) as Hq'.
  pose proof (IZR_lt 0 b Hb) as Hb'.
  pose proof (powerRZ_pos (IZR b) e Hb').
  destruct (Z.leb_spec 0 e).
  - rewrite mult_IZR, IZR_pow by assumption. field. lra.
  - rewrite mult_IZR, IZR_pow by lia. rewrite powerRZ_neg'. field. lra.
Qed.

(** ** The binary logarithm of a ratio *)

Lemma scaled_le_spec (q l p : Z) :
  0 < q -> (scaled_le q l p = true <-> (powerRZ 2 l <= ratio p q)%R).
Proof.
  intros Hq. unfold scaled_le. rewrite ratio_le by exact Hq.
  pose proof (powerRZ_pos 2 l ltac:(lra)) as Hl.
  destruct (Z.leb_spec 0 l).
  - rewrite Z.leb_le. rewrite <- (IZR_pow 2) by assumption. rewrite <- mult_IZR.
    rewrite Z.mul_comm. split; [apply IZR_le | apply le_IZR].
  - rewrite Z.leb_le.
    assert (Hinv : (powerRZ 2 l * powerRZ 2 (- l) = 1)%R).
    { rewrite <- powerRZ_plus by lra. now rewrite Z.add_opp_diag_r. }
    pose proof (powerRZ_pos 2 (- l) ltac:(lra)) as Hl'.
    split; intros Hx.
    + apply IZR_le in Hx. rewrite mult_IZR, IZR_pow in Hx by lia.
      change (IZR 2) with 2%R in Hx.
      apply (Rmult_le_compat_l (powerRZ 2 l)) in Hx; [ | lra].
      replace (powerRZ 2 l * (IZR p * powerRZ 2 (- l)))%R
        with (IZR p * (powerRZ 2 l * powerRZ 2 (- l)))%R in Hx by ring.
      rewrite Hinv in Hx. lra.
    + apply le_IZR. rewrite mult_IZR, IZR_pow by lia.
      change (IZR 2) with 2%R.
      apply (Rmult_le_compat_l (powerRZ 2 (- l))) in Hx; [ | lra].
      replace (powerRZ 2 (- l) * (powerRZ 2 l * IZR q))%R
        with (IZR q * (powerRZ 2 l * powerRZ 2 (- l)))%R in Hx by ring.
      rewrite Hinv in Hx. lra.
Qed.

Lemma log2_bounds (p : Z) :
  0 < p -> (powerRZ 2 (Z.log2 p) <= IZR p < 2 * powerRZ 2 (Z.log2 p))%R.
Proof.
  intros Hp. pose proof (Z.log2_spec p Hp) as [H1 H2].
  pose proof (Z.log2_nonneg p) as Hn.
  apply IZR_le in H1. apply IZR_lt in H2.
  rewrite Z.pow_succ_r in H2 by exact Hn. rewrite mult_IZR in H2.
  rewrite IZR_pow in H1, H2 by exact Hn. split; assumption.
Qed.

Lemma ilog2_ratio_spec (p q : Z) :
  0 < p -> 0 < q ->
  (powerRZ 2 (ilog2_ratio p q) <= ratio p q < powerRZ 2 (ilog2_ratio p q + 1))%R.
Proof.
  intros Hp Hq. unfold ilog2_ratio.
  pose proof (log2_bounds p Hp) as [Hp1 Hp2].
  pose proof (log2_bounds q Hq) as [Hq1 Hq2].
  set (a := Z.log2 p) in *. set (b := Z.log2 q) in *.
  pose proof (powerRZ_pos 2 a ltac:(lra)) as Ha.
  pose proof (powerRZ_pos 2 b ltac:(lra)) as Hb.
  pose proof (powerRZ_minus 2 a b ltac:(lra)) as Hab.
  pose proof (IZR_lt 0 q Hq) as Hq'.
  pose proof (powerRZ_pos 2 (a - b) ltac:(lra)) as HT.
  assert (HTb : (powerRZ 2 (a - b) * powerRZ 2 b = powerRZ 2 a)%R).
  { rewrite Hab. field. lra. }
  assert (Hlo : (powerRZ 2 (a - b) / 2 < ratio p q)%R).
  { apply ratio_gt; [exact Hq | ]. nra. }
  assert (Hhi : (ratio p q < 2 * powerRZ 2 (a - b))%R).
  { apply ratio_lt; [exact Hq | ]. nra. }
  destruct (scaled_le q (a - b) p) eqn:Hs.
  - apply scaled_le_spec in Hs; [ | exact Hq].
    rewrite powerRZ_succ by lra. lra.
  - assert (Hn : ~ (powerRZ 2 (a - b) <= ratio p q)%R).
    { intros H. apply scaled_le_spec in H; [congruence | exact Hq]. }
    replace (a - b - 1 + 1) with (a - b) by lia.
    replace (a - b - 1) with (a - b + -1) by lia.
    rewrite powerRZ_plus by lra. change (powerRZ 2 (-1)) with (/ (2 * 1))%R.
    lra.
Qed.



(** ** Rounding *)

Lemma round_half_even_unique (n d c : Z) :
  0 < d -> (2 * c - 1) * d < 2 * n < (2 * c + 1) * d -> round_half_even n d = c.
Proof.
  intros Hd Hc. unfold round_half_even.
  pose proof (Z.div_mod n d ltac:(lia)) as Hn.
  pose proof (Z.mod_pos_bound n d Hd) as Hr.
  set (q := n / d) in *. set (r := n mod d) in *.
  destruct (Z.compare_spec (2 * r) d) as [He | Hl | Hg].
  - exfalso. assert (Hq : q < c) by nia. nia.
  - assert (Hq1 : q <= c) by nia. assert (Hq2 : c <= q) by nia. lia.
  - assert (Hq1 : q + 1 <= c) by nia. assert (Hq2 : c <= q + 1) by nia. lia.
Qed.

Lemma round_half_even_near (n d : Z) :
  0 < d ->
  (2 * round_half_even n d - 1) * d <= 2 * n <= (2 * round_half_even n d + 1) * d.
Proof.
  intros Hd. unfold round_half_even.
  pose proof (Z.div_mod n d ltac:(lia)) as Hn.
  pose proof (Z.mod_pos_bound n d Hd) as Hr.
  set (q := n / d) in *. set (r := n mod d) in *.
  destruct (Z.compare_spec (2 * r) d) as [He | Hl | Hg].
  - destruct (Z.even q); nia.
  - nia.
  - nia.
Qed.

Lemma scaled_round_ratio (p q e : Z) :
  0 < q ->
  exists P Q, 0 < Q /\ scaled_round p q e = round_half_even P Q
    /\ ratio P Q = (ratio p q / powerRZ 2 e)%R.
Proof.
  intros Hq. unfold scaled_round.
  exists (if 0 <=? e then p else p * 2 ^ (- e)), (if 0 <=? e then q * 2 ^ e else q).
  repeat split.
  - destruct (Z.leb_spec 0 e); [ | exact Hq].
    apply Z.mul_pos_pos; [exact Hq | apply Z.pow_pos_nonneg; lia].
  - apply (ratio_over_pow 2); [lia | exact Hq].
Qed.

Lemma scaled_round_unique (p q e c : Z) :
  0 < q ->
  ((IZR c - 1 / 2) * powerRZ 2 e < ratio p q < (IZR c + 1 / 2) * powerRZ 2 e)%R ->
  scaled_round p q e = c.
Proof.
  intros Hq [H1 H2].
  destruct (scaled_round_ratio p q e Hq) as (P & Q & HQ & -> & Hr).
  pose proof (powerRZ_pos 2 e ltac:(lra)) as HE.
  pose proof (IZR_lt 0 Q HQ) as HQ'.
  assert (Ht1 : (IZR c - 1 / 2 < ratio P Q)%R).
  { rewrite Hr. apply (Rmult_lt_reg_r (powerRZ 2 e)); [exact HE | ].
    unfold Rdiv at 2. rewrite Rmult_assoc, Rinv_l, Rmult_1_r by lra. exact H1. }
  assert (Ht2 : (ratio P Q < IZR c + 1 / 2)%R).
  { rewrite Hr. apply (Rmult_lt_reg_r (powerRZ 2 e)); [exact HE | ].
    unfold Rdiv at 1. rewrite Rmult_assoc, Rinv_l, Rmult_1_r by lra. exact H2. }
  apply ratio_gt in Ht1; [ | exact HQ]. apply ratio_lt in Ht2; [ | exact HQ].
  apply round_half_even_unique; [exact HQ | ]. split.
  - apply lt_IZR. rewrite !mult_IZR, minus_IZR, mult_IZR. simpl IZR. lra.
  - apply lt_IZR. rewrite !mult_IZR, plus_IZR, mult_IZR. simpl IZR. lra.
Qed.

Lemma scaled_round_near (p q e : Z) :
  0 < q ->
  ((IZR (scaled_round p q e) - 1 / 2) * powerRZ 2 e <= ratio p q
   <= (IZR (scaled_round p q e) + 1 / 2) * powerRZ 2 e)%R.
Proof.
  intros Hq.
  destruct (scaled_round_ratio p q e Hq) as (P & Q & HQ & -> & Hr).
  pose proof (powerRZ_pos 2 e ltac:(lra)) as HE.
  pose proof (IZR_lt 0 Q HQ) as HQ'.
  pose proof (round_half_even_near P Q HQ) as [H1 H2].
  set (c := round_half_even P Q) in *.
  apply IZR_le in H1, H2.
  rewrite !mult_IZR, minus_IZR, mult_IZR in H1.
  rewrite !mult_IZR, plus_IZR, mult_IZR in H2. simpl IZR in H1, H2.
  assert (Hpq : (ratio p q = ratio P Q * powerRZ 2 e)%R).
  { rewrite Hr. field. lra. }
  assert (Ht1 : (IZR c - 1 / 2 <= ratio P Q)%R) by (apply ratio_le; [exact HQ | lra]).
  assert (Ht2 : (ratio P Q <= IZR c + 1 / 2)%R).
  { destruct (Rle_lt_dec (ratio P Q) (IZR c + 1 / 2)) as [Hle | Hlt]; [exact Hle | ].
    apply ratio_gt in Hlt; [ | exact HQ]. lra. }
  rewrite Hpq. split; apply Rmult_le_compat_r; lra.
Qed.

(** ** Doubles *)



Lemma pow2_const (e : Z) (c : Z) :
  0 <= c -> powerRZ 2 (e + c) = (powerRZ 2 e * IZR (2 ^ c))%R.
Proof. intros Hc. rewrite powerRZ_plus by lra. now rewrite (IZR_pow 2) by exact Hc. Qed.

Lemma to_double_near (neg : bool) (p q : Z) (m : positive) (e : Z) :
  0 < p -> 0 < q -> canonical m e ->
  (ratio p q < F2R m e + powerRZ 2 e / 2)%R ->
  (F2R m e - powerRZ 2 e / 2 < ratio p q)%R ->
  (Z.pos m = 2 ^ 52 -> -1074 < e -> (F2R m e - powerRZ 2 e / 4 < ratio p q)%R) ->
  to_double neg p q = Fin neg m e.
Proof.
  intros Hp Hq (He & Hm & Hnorm) Hup Hlo Hbot.
  unfold F2R in *.
  pose proof (powerRZ_pos 2 e ltac:(lra)) as HE.
  pose proof (ilog2_ratio_spec p q Hp Hq) as [Hl1 Hl2].
  assert (HM1 : (1 <= IZR (Z.pos m))%R) by (apply IZR_le; lia).
  assert (HM2 : (IZR (Z.pos m) <= 9007199254740991)%R).
  { apply IZR_le. change (2 ^ 53) with 9007199254740992 in Hm. lia. }
  pose proof (pow2_const e 52 ltac:(lia)) as H52.
  pose proof (pow2_const e 53 ltac:(lia)) as H53.
  change (2 ^ 52) with 4503599627370496 in H52.
  change (2 ^ 53) with 9007199254740992 in H53.
  unfold to_double.
  set (l := ilog2_ratio p q) in *.
  set (r := ratio p q) in *.
  set (E := powerRZ 2 e) in *.
  set (M := IZR (Z.pos m)) in *.
  destruct (Rle_lt_dec (powerRZ 2 (e + 52)) r) as [Hbig | Hsmall].
  - (* the ratio lies in the binade of the double *)
    assert (Hl : l = e + 52).
    { assert (e + 52 < l + 1).
      { apply (powerRZ_lt_inv 2); lra. }
      assert (l < e + 53).
      { apply (powerRZ_lt_inv 2); [lra | ]. rewrite H53. nra. }
      lia. }
    rewrite Hl. replace (e + 52 - 52) with e by lia.
    rewrite Z.max_l by lia.
    assert (Hs : scaled_round p q e = Z.pos m).
    { apply scaled_round_unique; [exact Hq | ]. fold r E M. split; nra. }
    rewrite Hs.
    destruct (Z.eqb_spec (Z.pos m) (2 ^ 53)); [lia | ].
    destruct (Z.eqb_spec (Z.pos m) 0); [lia | ].
    destruct (Z.ltb_spec 971 e); [lia | ]. reflexivity.
  - destruct (Z.eq_dec e (-1074)) as [He' | He'].
    + (* a subnormal *)
      assert (l < e + 52).
      { apply (powerRZ_lt_inv 2); lra. }
      rewrite Z.max_r by lia. rewrite <- He'.
      assert (Hs : scaled_round p q e = Z.pos m).
      { apply scaled_round_unique; [exact Hq | ]. fold r E M. split; nra. }
      rewrite Hs.
      destruct (Z.eqb_spec (Z.pos m) (2 ^ 53)); [lia | ].
      destruct (Z.eqb_spec (Z.pos m) 0); [lia | ].
      destruct (Z.ltb_spec 971 e); [lia | ]. reflexivity.
    + (* just below a power of two *)
      destruct Hnorm as [Hnorm | Hnorm]; [ | lia].
      assert (HM3 : (4503599627370496 <= M)%R).
      { subst M. apply IZR_le. change (2 ^ 52) with 4503599627370496 in Hnorm. lia. }
      assert (Hm52 : Z.pos m = 2 ^ 52).
      { change (2 ^ 52) with 4503599627370496 in *.
        destruct (Z.eq_dec (Z.pos m) 4503599627370496) as [Heq | Hne]; [exact Heq | ].
        exfalso. assert (HM4 : (4503599627370497 <= M)%R).
        { subst M. apply IZR_le. lia. }
        rewrite H52 in Hsmall. nra. }
      specialize (Hbot Hm52 ltac:(lia)).
      assert (HMeq : M = 4503599627370496%R).
      { subst M. rewrite Hm52. reflexivity. }
      pose proof (pow2_const (e - 1) 52 ltac:(lia)) as H51.
      pose proof (pow2_const (e - 1) 1 ltac:(lia)) as H1.
      replace (e - 1 + 1) with e in H1 by lia. fold E in H1.
      change (2 ^ 52) with 4503599627370496 in H51.
      change (IZR (2 ^ 1)) with 2%R in H1.
      pose proof (powerRZ_pos 2 (e - 1) ltac:(lra)) as HE1.
      assert (Hl : l = e + 51).
      { assert (l < e + 52).
        { apply (powerRZ_lt_inv 2); lra. }
        assert (e + 51 < l + 1).
        { apply (powerRZ_lt_inv 2); [lra | ].
          replace (e + 51) with (e - 1 + 52) by lia. rewrite H51.
          eapply Rlt_trans; [ | exact Hl2]. nra. }
        lia. }
      rewrite Hl. replace (e + 51 - 52) with (e - 1) by lia.
      rewrite Z.max_l by lia.
      assert (Hs : scaled_round p q (e - 1) = 2 ^ 53).
      { apply scaled_round_unique; [exact Hq | ]. fold r.
        change (2 ^ 53) with 9007199254740992.
        rewrite H52 in Hsmall. split; nra. }
      rewrite Hs. rewrite Z.eqb_refl.
      replace (e - 1 + 1) with e by lia.
      change (2 ^ 52 =? 0) with false. cbv iota.
      destruct (Z.ltb_spec 971 e); [lia | ].
      f_equal. rewrite <- Hm52. reflexivity.
Qed.

(** What rounding returns is a canonical double. *)
Lemma to_double_canonical (neg neg' : bool) (p q : Z) (m : positive) (e : Z) :
  0 < p -> 0 < q -> to_double neg p q = Fin neg' m e -> canonical m e.
Proof.
  intros Hp Hq. unfold to_double.
  pose proof (ilog2_ratio_spec p q Hp Hq) as [Hl1 Hl2].
  set (l := ilog2_ratio p q) in *.
  set (er := Z.max (l - 52) (-1074)).
  pose proof (scaled_round_near p q er Hq) as [Hn1 Hn2].
  set (M := scaled_round p q er) in *.
  pose proof (powerRZ_pos 2 er ltac:(lra)) as HE.
  assert (Hupper : M <= 2 ^ 53).
  { apply le_IZR. change (2 ^ 53) with 9007199254740992.
    assert (Hle : (powerRZ 2 (l + 1) <= powerRZ 2 (er + 53))%R).
    { apply powerRZ_le_mono; [lra | subst er; lia]. }
    rewrite (pow2_const er 53) in Hle by lia.
    change (2 ^ 53) with 9007199254740992 in Hle.
    assert (Hlt : (IZR M - 1 / 2 < 9007199254740992)%R) by nra.
    assert (Hz : M < 9007199254740993).
    { apply lt_IZR. lra. }
    apply IZR_le. lia. }
  assert (Hlower : -1074 < er -> 2 ^ 52 <= M).
  { intros Her. assert (Heq : er = l - 52) by (subst er; lia).
    apply le_IZR. change (2 ^ 52) with 4503599627370496.
    pose proof (pow2_const er 52 ltac:(lia)) as H52.
    replace (er + 52) with l in H52 by lia.
    change (2 ^ 52) with 4503599627370496 in H52.
    assert (Hgt : (4503599627370496 - 1 < IZR M)%R) by nra.
    assert (Hz : 4503599627370495 < M) by (apply lt_IZR; lra).
    apply IZR_le. lia. }
  assert (Her : -1074 <= er) by (subst er; lia).
  destruct (Z.eqb_spec M (2 ^ 53)) as [HM | HM].
  - change (2 ^ 52 =? 0) with false. cbv iota.
    destruct (Z.ltb_spec 971 (er + 1)); [discriminate | ].
    intros [= _ <- <-]. unfold canonical.
    change (Z.pos (Z.to_pos (2 ^ 52))) with (2 ^ 52). split; [lia | ].
    split; [reflexivity | left; lia].
  - destruct (Z.eqb_spec M 0) as [HM0 | HM0]; [discriminate | ].
    destruct (Z.ltb_spec 971 er); [discriminate | ].
    assert (HMpos : 0 < M).
    { assert (Hr : (0 < ratio p q)%R) by now apply ratio_pos.
      assert (Hgt : (-1 < IZR M)%R) by nra.
      assert (-1 < M) by (apply lt_IZR; exact Hgt). lia. }
    intros [= _ <- <-]. unfold canonical. rewrite Z2Pos.id by exact HMpos.
    split; [lia | ]. split; [lia | ].
    destruct (Z.eq_dec er (-1074)); [right; assumption | left; apply Hlower; lia].
Qed.



(** ** Decimals *)

Lemma ratio_one (p : Z) : ratio p 1 = IZR p.
Proof. unfold ratio. field. Qed.

Lemma decimal_to_double_ratio (neg : bool) (s ex : Z) :
  0 < s ->
  exists P Q, 0 < P /\ 0 < Q /\ decimal_to_double neg s ex = to_double neg P Q
    /\ ratio P Q = (IZR s * powerRZ 10 ex)%R.
Proof.
  intros Hs. unfold decimal_to_double.
  destruct (Z.eqb_spec s 0); [lia | ].
  destruct (Z.leb_spec 0 ex).
  - exists (s * 10 ^ ex), 1.
    assert (0 < 10 ^ ex) by (apply Z.pow_pos_nonneg; lia).
    split; [nia | split; [lia | split; [reflexivity | ]]].
    rewrite ratio_one, mult_IZR, (IZR_pow 10) by assumption. reflexivity.
  - exists s, (10 ^ (- ex)).
    assert (0 < 10 ^ (- ex)) by (apply Z.pow_pos_nonneg; lia).
    split; [lia | split; [lia | split; [reflexivity | ]]].
    unfold ratio. rewrite (IZR_pow 10) by lia. rewrite powerRZ_neg'.
    pose proof (powerRZ_pos 10 ex ltac:(lra)). field. lra.
Qed.

Lemma decimal_to_double_near (neg : bool) (s ex : Z) (m : positive) (e : Z) :
  0 < s -> canonical m e ->
  (IZR s * powerRZ 10 ex < F2R m e + powerRZ 2 e / 2)%R ->
  (F2R m e - powerRZ 2 e / 2 < IZR s * powerRZ 10 ex)%R ->
  (Z.pos m = 2 ^ 52 -> -1074 < e ->
   (F2R m e - powerRZ 2 e / 4 < IZR s * powerRZ 10 ex)%R) ->
  decimal_to_double neg s ex = Fin neg m e.
Proof.
  intros Hs Hc H1 H2 H3.
  destruct (decimal_to_double_ratio neg s ex Hs) as (P & Q & HP & HQ & -> & Hr).
  apply to_double_near; try assumption; rewrite Hr; assumption.
Qed.

Lemma decimal_to_double_sign (neg : bool) (s ex : Z) (m : positive) (e : Z) :
  decimal_to_double false s ex = Fin false m e ->
  decimal_to_double neg s ex = Fin neg m e.
Proof.
  unfold decimal_to_double, to_double.
  destruct (s =? 0); [discriminate | ].
  destruct (0 <=? ex);
    repeat match goal with
           | |- context [if ?b then _ else _] => destruct b; try discriminate
           end; intros [= <- <-]; reflexivity.
Qed.

(** The two integers [shortest] hands to the search stand for the double. *)
Lemma double_ratio (m : positive) (e : Z) :
  0 < (if 0 <=? e then Z.pos m * 2 ^ e else Z.pos m)
  /\ 0 < (if 0 <=? e then 1 else 2 ^ (- e))
  /\ ratio (if 0 <=? e then Z.pos m * 2 ^ e else Z.pos m)
           (if 0 <=? e then 1 else 2 ^ (- e)) = F2R m e.
Proof.
  unfold F2R. destruct (Z.leb_spec 0 e).
  - assert (0 < 2 ^ e) by (apply Z.pow_pos_nonneg; lia).
    split; [nia | split; [lia | ]].
    rewrite ratio_one, mult_IZR, (IZR_pow 2) by assumption. reflexivity.
  - assert (0 < 2 ^ (- e)) by (apply Z.pow_pos_nonneg; lia).
    split; [lia | split; [lia | ]].
    unfold ratio. rewrite (IZR_pow 2) by lia. rewrite powerRZ_neg'.
    pose proof (powerRZ_pos 2 e ltac:(lra)). field. lra.
Qed.

Lemma below_pow10_spec (p q n : Z) :
  0 < q -> (below_pow10 p q n = true <-> (ratio p q < powerRZ 10 n)%R).
Proof.
  intros Hq. unfold below_pow10. rewrite ratio_lt by exact Hq.
  pose proof (powerRZ_pos 10 n ltac:(lra)) as Hn.
  destruct (Z.leb_spec 0 n).
  - rewrite Z.ltb_lt. rewrite <- (IZR_pow 10) by assumption. rewrite <- mult_IZR.
    rewrite Z.mul_comm. split; [apply IZR_lt | apply lt_IZR].
  - rewrite Z.ltb_lt.
    assert (Hinv : (powerRZ 10 n * powerRZ 10 (- n) = 1)%R).
    { rewrite <- powerRZ_plus by lra. now rewrite Z.add_opp_diag_r. }
    pose proof (powerRZ_pos 10 (- n) ltac:(lra)) as Hn'.
    split; intros Hx.
    + apply IZR_lt in Hx. rewrite mult_IZR, (IZR_pow 10) in Hx by lia.
      apply (Rmult_lt_compat_l (powerRZ 10 n)) in Hx; [ | lra].
      replace (powerRZ 10 n * (IZR p * powerRZ (IZR 10) (- n)))%R
        with (IZR p * (powerRZ 10 n * powerRZ 10 (- n)))%R in Hx by ring.
      rewrite Hinv in Hx. lra.
    + apply lt_IZR. rewrite mult_IZR, (IZR_pow 10) by lia.
      apply (Rmult_lt_compat_l (powerRZ 10 (- n))) in Hx; [ | lra].
      replace (powerRZ 10 (- n) * (powerRZ 10 n * IZR q))%R
        with (IZR q * (powerRZ 10 n * powerRZ 10 (- n)))%R in Hx by ring.
      rewrite Hinv in Hx. change (IZR 10) with 10%R. lra.
Qed.

Lemma find_pow10_spec (fuel : nat) (p q n : Z) :
  below_pow10 p q (n + Z.of_nat fuel) = true ->
  below_pow10 p q (find_pow10 fuel p q n) = true
  /\ n <= find_pow10 fuel p q n
  /\ (find_pow10 fuel p q n = n
      \/ below_pow10 p q (find_pow10 fuel p q n - 1) = false).
Proof.
  revert n. induction fuel as [ | fuel IH]; intros n Hend.
  - simpl in *. rewrite Z.add_0_r in Hend. auto with zarith.
  - cbn [find_pow10]. destruct (below_pow10 p q n) eqn:Hn.
    + auto with zarith.
    + destruct (IH (n + 1)) as (H1 & H2 & H3).
      * rewrite <- Hend. f_equal. lia.
      * split; [exact H1 | ]. split; [lia | ]. right.
        destruct H3 as [-> | H3]; [ | exact H3].
        now replace (n + 1 - 1) with n by lia.
Qed.

Lemma canonical_bounds (m : positive) (e : Z) :
  canonical m e ->
  (powerRZ 10 (-324) <= F2R m e < powerRZ 10 316)%R
  /\ (F2R m e < 9007199254740992 * powerRZ 2 e)%R.
Proof.
  intros (He & Hm & _). unfold F2R.
  pose proof (powerRZ_pos 2 e ltac:(lra)) as HE.
  assert (HM1 : (1 <= IZR (Z.pos m))%R) by (apply IZR_le; lia).
  assert (HM2 : (IZR (Z.pos m) <= 9007199254740991)%R).
  { apply IZR_le. change (2 ^ 53) with 9007199254740992 in Hm. lia. }
  assert (Hlow : (powerRZ 10 (-324) <= powerRZ 2 (-1074))%R).
  { change (-324) with (- (324)). change (-1074) with (- (1074)).
    rewrite !powerRZ_neg'.
    apply Rinv_le_contravar; [apply powerRZ_pos; lra | ].
    change 2%R with (IZR 2). change 10%R with (IZR 10).
    rewrite <- !IZR_pow by lia. apply IZR_le. vm_compute. discriminate. }
  assert (Hhigh : (powerRZ 2 (971 + 53) <= powerRZ 10 316)%R).
  { change 2%R with (IZR 2). change 10%R with (IZR 10).
    rewrite <- !IZR_pow by lia. apply IZR_le. vm_compute. discriminate. }
  pose proof (powerRZ_le_mono 2 (-1074) e ltac:(lra) ltac:(lia)) as Hmono1.
  pose proof (powerRZ_le_mono 2 e 971 ltac:(lra) ltac:(lia)) as Hmono2.
  rewrite (pow2_const 971 53) in Hhigh by lia.
  change (2 ^ 53) with 9007199254740992 in Hhigh.
  pose proof (powerRZ_pos 2 971 ltac:(lra)).
  repeat split; nra.
Qed.

Lemma decimal_exponent_spec (m : positive) (e : Z) :
  canonical m e ->
  let p := if 0 <=? e then Z.pos m * 2 ^ e else Z.pos m in
  let q := if 0 <=? e then 1 else 2 ^ (- e) in
  (powerRZ 10 (decimal_exponent p q - 1) <= F2R m e
   < powerRZ 10 (decimal_exponent p q))%R.
Proof.
  intros Hc p q.
  destruct (double_ratio m e) as (Hp & Hq & Hr). fold p q in Hp, Hq, Hr.
  destruct (canonical_bounds m e Hc) as [[Hlo Hhi] _].
  unfold decimal_exponent.
  destruct (find_pow10_spec 640 p q (-324)) as (H1 & H2 & H3).
  - apply below_pow10_spec; [exact Hq | ]. rewrite Hr. exact Hhi.
  - set (n0 := find_pow10 640 p q (-324)) in *.
    apply below_pow10_spec in H1; [ | exact Hq]. rewrite Hr in H1.
    split; [ | exact H1].
    destruct H3 as [H3 | H3].
    + rewrite H3. eapply Rle_trans; [ | exact Hlo].
      apply powerRZ_le_mono; [lra | lia].
    + apply Rnot_lt_le. intros Hlt. rewrite <- Hr in Hlt.
      apply below_pow10_spec in Hlt; [congruence | exact Hq].
Qed.



(** ** The shortest digits *)

Lemma number_eqb_eq (x y : number) : number_eqb x y = true <-> x = y.
Proof.
  split.
  - destruct x as [ | a | a | a m e], y as [ | b | b | b m' e']; simpl;
      try discriminate; try reflexivity.
    + intros H. apply Bool.eqb_prop in H. now subst.
    + intros H. apply Bool.eqb_prop in H. now subst.
    + intros H. apply andb_true_iff in H as [H He].
      apply andb_true_iff in H as [Hs Hm].
      apply Bool.eqb_prop in Hs. apply Pos.eqb_eq in Hm. apply Z.eqb_eq in He.
      now subst.
  - intros <-. destruct x as [ | a | a | a m e]; simpl;
      rewrite ?Bool.eqb_reflx, ?Pos.eqb_refl, ?Z.eqb_refl; reflexivity.
Qed.

Lemma pow10_const (n : Z) (c : Z) :
  0 <= c -> powerRZ 10 (n + c) = (powerRZ 10 n * IZR (10 ^ c))%R.
Proof. intros Hc. rewrite powerRZ_plus by lra. now rewrite (IZR_pow 10) by exact Hc. Qed.

Lemma candidate_spec (x : number) (k : nat) (s n0 s' n' : Z) :
  (0 < k)%nat -> 10 ^ (Z.of_nat k - 1) <= s <= 10 ^ Z.of_nat k ->
  candidate x k s n0 = Some (s', n') ->
  decimal_to_double false s' (n' - Z.of_nat k) = x
  /\ 10 ^ (Z.of_nat k - 1) <= s' < 10 ^ Z.of_nat k.
Proof.
  intros Hk Hs. unfold candidate.
  assert (Hpow : 10 ^ (Z.of_nat k - 1) < 10 ^ Z.of_nat k).
  { apply Z.pow_lt_mono_r; lia. }
  destruct (Z.eqb_spec s (10 ^ Z.of_nat k)) as [-> | Hne].
  - destruct (number_eqb _ x) eqn:Heq; [ | discriminate].
    intros [= <- <-]. apply number_eqb_eq in Heq. split; [exact Heq | lia].
  - destruct (number_eqb _ x) eqn:Heq; [ | discriminate].
    intros [= <- <-]. apply number_eqb_eq in Heq. split; [exact Heq | lia].
Qed.

Lemma candidate_value (x : number) (k : nat) (s n0 : Z) (m : positive) (e : Z) :
  (0 < k)%nat -> 0 < s -> x = Fin false m e -> canonical m e ->
  let d := (IZR s * powerRZ 10 (n0 - Z.of_nat k))%R in
  (d < F2R m e + powerRZ 2 e / 2)%R ->
  (F2R m e - powerRZ 2 e / 2 < d)%R ->
  (Z.pos m = 2 ^ 52 -> -1074 < e -> (F2R m e - powerRZ 2 e / 4 < d)%R) ->
  candidate x k s n0 <> None.
Proof.
  intros Hk Hs -> Hc d H1 H2 H3. unfold candidate.
  assert (Hnorm : exists s' n', 0 < s'
            /\ (if s =? 10 ^ Z.of_nat k then (10 ^ (Z.of_nat k - 1), n0 + 1) else (s, n0))
               = (s', n')
            /\ (IZR s' * powerRZ 10 (n' - Z.of_nat k))%R = d).
  { destruct (Z.eqb_spec s (10 ^ Z.of_nat k)) as [Heq | Hne].
    - exists (10 ^ (Z.of_nat k - 1)), (n0 + 1).
      split; [apply Z.pow_pos_nonneg; lia | ]. split; [reflexivity | ].
      subst d. rewrite Heq. rewrite !(IZR_pow 10) by lia.
      rewrite <- !powerRZ_plus by lra. f_equal. lia.
    - exists s, n0. auto. }
  destruct Hnorm as (s' & n' & Hs' & -> & Hd).
  rewrite (decimal_to_double_near false s' (n' - Z.of_nat k) m e);
    try assumption; try (rewrite Hd; assumption).
  rewrite (proj2 (number_eqb_eq _ _) eq_refl). discriminate.
Qed.

Section Digits.

Variables (m : positive) (e : Z).
Hypothesis Hc : canonical m e.

Let x : number := Fin false m e.
Let p : Z := if 0 <=? e then Z.pos m * 2 ^ e else Z.pos m.
Let q : Z := if 0 <=? e then 1 else 2 ^ (- e).
Let n0 : Z := decimal_exponent p q.

(** The double scaled to [k] digits before the point, as a fraction. *)
Let num (k : nat) : Z :=
  if 0 <=? Z.of_nat k - n0 then p * 10 ^ (Z.of_nat k - n0) else p.
Let den (k : nat) : Z :=
  if 0 <=? Z.of_nat k - n0 then q else q * 10 ^ (- (Z.of_nat k - n0)).

Lemma den_pos (k : nat) : 0 < den k.
Proof.
  destruct (double_ratio m e) as (Hp & Hq & Hr). fold p q in Hp, Hq, Hr.
  unfold den. destruct (Z.leb_spec 0 (Z.of_nat k - n0)); [exact Hq | ].
  apply Z.mul_pos_pos; [exact Hq | apply Z.pow_pos_nonneg; lia].
Qed.

Lemma scaled_value (k : nat) :
  ratio (num k) (den k) = (F2R m e * powerRZ 10 (Z.of_nat k - n0))%R.
Proof.
  destruct (double_ratio m e) as (Hp & Hq & Hr). fold p q in Hp, Hq, Hr.
  unfold num, den. rewrite (ratio_times_pow 10) by (lia || exact Hq).
  now rewrite Hr.
Qed.

Lemma scaled_range (k : nat) :
  (0 < k)%nat ->
  (IZR (10 ^ (Z.of_nat k - 1)) <= ratio (num k) (den k) < IZR (10 ^ Z.of_nat k))%R.
Proof.
  intros Hk. rewrite scaled_value.
  pose proof (decimal_exponent_spec m e Hc) as [H1 H2]. fold p q n0 in H1, H2.
  rewrite !(IZR_pow 10) by lia.
  pose proof (powerRZ_pos 10 (Z.of_nat k - n0) ltac:(lra)) as Hs.
  assert (A1 : powerRZ 10 (Z.of_nat k - 1)
               = (powerRZ 10 (n0 - 1) * powerRZ 10 (Z.of_nat k - n0))%R).
  { rewrite <- powerRZ_plus by lra. f_equal. lia. }
  assert (A2 : powerRZ 10 (Z.of_nat k)
               = (powerRZ 10 n0 * powerRZ 10 (Z.of_nat k - n0))%R).
  { rewrite <- powerRZ_plus by lra. f_equal. lia. }
  change (IZR 10) with 10%R. rewrite A1, A2. split.
  - apply Rmult_le_compat_r; lra.
  - apply Rmult_lt_compat_r; lra.
Qed.

Lemma floor_range (k : nat) :
  (0 < k)%nat ->
  10 ^ (Z.of_nat k - 1) <= num k / den k < 10 ^ Z.of_nat k.
Proof.
  intros Hk. pose proof (den_pos k) as Hd.
  destruct (scaled_range k Hk) as [H1 H2].
  apply ratio_le in H1; [ | exact Hd]. apply ratio_lt in H2; [ | exact Hd].
  rewrite <- mult_IZR in H1, H2. apply le_IZR in H1. apply lt_IZR in H2.
  split.
  - apply Z.div_le_lower_bound; [exact Hd | lia].
  - apply Z.div_lt_upper_bound; [exact Hd | lia].
Qed.

Lemma digits_at_spec (k : nat) (s n : Z) :
  (0 < k)%nat -> digits_at x p q n0 k = Some (s, n) ->
  decimal_to_double false s (n - Z.of_nat k) = x
  /\ 10 ^ (Z.of_nat k - 1) <= s < 10 ^ Z.of_nat k.
Proof.
  intros Hk. unfold digits_at. fold (num k) (den k).
  pose proof (floor_range k Hk) as Hlo.
  set (lo := num k / den k) in *.
  pose proof (candidate_spec x k lo n0) as Ha.
  pose proof (candidate_spec x k (lo + 1) n0) as Hb.
  destruct (candidate x k lo n0) as [[sa na] | ];
    destruct (candidate x k (lo + 1) n0) as [[sb nb] | ];
    try discriminate.
  - destruct (2 * (num k mod den k) ?= den k); [destruct (Z.even lo) | | ];
      intros [= <- <-];
      (apply Ha; [exact Hk | lia | reflexivity])
      || (apply Hb; [exact Hk | lia | reflexivity]).
  - intros [= <- <-]. apply Ha; [exact Hk | lia | reflexivity].
  - intros [= <- <-]. apply Hb; [exact Hk | lia | reflexivity].
Qed.

(** With seventeen digits one of the two neighbours reads back. *)
Lemma digits_at_17 : digits_at x p q n0 17 <> None.
Proof.
  pose proof (floor_range 17 ltac:(lia)) as Hlo.
  pose proof (den_pos 17) as Hd.
  pose proof (scaled_value 17) as Hval.
  pose proof (decimal_exponent_spec m e Hc) as [Hn1 Hn2]. fold p q n0 in Hn1, Hn2.
  destruct (canonical_bounds m e Hc) as [_ Hbig].
  pose proof (powerRZ_pos 2 e ltac:(lra)) as HE.
  pose proof (Z.div_mod (num 17) (den 17) ltac:(lia)) as Hdm.
  pose proof (Z.mod_pos_bound (num 17) (den 17) Hd) as Hr.
  set (lo := num 17 / den 17) in *. set (r := num 17 mod den 17) in *.
  (* the grid of seventeen-digit decimals around the double *)
  set (G := powerRZ 10 (n0 - 17)).
  assert (HG : (0 < G)%R) by (apply powerRZ_pos; lra).
  assert (HG16 : (powerRZ 10 (n0 - 1) = G * 10000000000000000)%R).
  { subst G. replace (n0 - 1) with (n0 - 17 + 16) by lia.
    rewrite pow10_const by lia. reflexivity. }
  assert (Hinv : (powerRZ 10 (17 - n0) * G = 1)%R).
  { subst G. rewrite <- powerRZ_plus by lra.
    replace (17 - n0 + (n0 - 17)) with 0 by lia. reflexivity. }
  assert (HX : (F2R m e = ratio (num 17) (den 17) * G)%R).
  { rewrite Hval. change (Z.of_nat 17) with 17.
    rewrite Rmult_assoc, Hinv. ring. }
  assert (Hq : (ratio (num 17) (den 17) * IZR (den 17) = IZR (num 17))%R).
  { unfold ratio. field. apply IZR_lt in Hd. lra. }
  assert (Hnum : (IZR (num 17) = IZR (den 17) * IZR lo + IZR r)%R).
  { rewrite <- mult_IZR, <- plus_IZR. now f_equal. }
  assert (Hr0 : (0 <= IZR r)%R) by (apply IZR_le; lia).
  assert (Hr1 : (IZR r < IZR (den 17))%R) by (apply IZR_lt; lia).
  assert (Hd' : (0 < IZR (den 17))%R) by (apply IZR_lt; lia).
  set (t := ratio (num 17) (den 17)) in *.
  assert (Hf0 : (0 <= IZR r / IZR (den 17))%R).
  { apply Rmult_le_pos; [exact Hr0 | ]. apply Rlt_le, Rinv_0_lt_compat. exact Hd'. }
  assert (Hf1 : (IZR r / IZR (den 17) < 1)%R).
  { apply (Rmult_lt_reg_r (IZR (den 17))); [lra | ].
    unfold Rdiv. rewrite Rmult_assoc, Rinv_l by lra. lra. }
  assert (Ht : (t = IZR lo + IZR r / IZR (den 17))%R).
  { apply (Rmult_eq_reg_r (IZR (den 17))); [ | lra].
    rewrite Hq, Hnum. field. lra. }
  set (f := (IZR r / IZR (den 17))%R) in *.
  assert (Hgrid : (G < 9007199254740992 / 10000000000000000 * powerRZ 2 e)%R) by nra.
  assert (Hgrid_bottom :
    Z.pos m = 2 ^ 52 ->
    (G <= 4503599627370496 / 10000000000000000 * powerRZ 2 e)%R).
  { intros Hm. unfold F2R in Hn1. rewrite Hm in Hn1.
    change (IZR (2 ^ 52)) with 4503599627370496%R in Hn1. nra. }
  assert (Hlo0 : 0 < lo).
  { assert (0 < 10 ^ (Z.of_nat 17 - 1)) by (apply Z.pow_pos_nonneg; lia). lia. }
  assert (HfG : (0 <= f * G)%R) by (apply Rmult_le_pos; lra).
  assert (HXlo : (F2R m e = IZR lo * G + f * G)%R) by (rewrite HX, Ht; ring).
  unfold digits_at. fold (num 17) (den 17). fold lo r.
  destruct (Rle_lt_dec f (1 / 2)) as [Hhalf | Hhalf].
  - (* the lower neighbour is within half a step *)
    assert (HfG2 : (f * G <= G / 2)%R) by nra.
    assert (Hcand : candidate x 17 lo n0 <> None).
    { apply (candidate_value x 17 lo n0 m e); try assumption;
        try reflexivity; try lia; change (Z.of_nat 17) with 17; fold G.
      - lra.
      - lra.
      - intros Hm He. specialize (Hgrid_bottom Hm). lra. }
    destruct (candidate x 17 lo n0) as [a | ]; [ | congruence].
    destruct (candidate x 17 (lo + 1) n0) as [b | ]; [ | discriminate].
    destruct (2 * r ?= den 17); [destruct (Z.even lo) | | ]; discriminate.
  - (* the upper neighbour is within half a step *)
    assert (HfG2 : (G / 2 < f * G)%R) by nra.
    assert (HfG3 : (f * G < G)%R) by nra.
    assert (Hcand : candidate x 17 (lo + 1) n0 <> None).
    { apply (candidate_value x 17 (lo + 1) n0 m e); try assumption;
        try reflexivity; try lia; change (Z.of_nat 17) with 17; fold G;
        rewrite plus_IZR.
      - lra.
      - lra.
      - intros Hm He. lra. }
    destruct (candidate x 17 (lo + 1) n0) as [b | ]; [ | congruence].
    destruct (candidate x 17 lo n0) as [a | ]; [ | discriminate].
    destruct (2 * r ?= den 17); [destruct (Z.even lo) | | ]; discriminate.
Qed.

Lemma shortest_from_spec (fuel k : nat) (k' : nat) (s n : Z) :
  (0 < k)%nat -> (k + fuel = 17)%nat ->
  shortest_from fuel x p q n0 k = (k', s, n) ->
  (0 < k')%nat
  /\ decimal_to_double false s (n - Z.of_nat k') = x
  /\ 10 ^ (Z.of_nat k' - 1) <= s < 10 ^ Z.of_nat k'.
Proof.
  revert k. induction fuel as [ | fuel IH]; intros k Hk Hsum.
  - cbn [shortest_from]. assert (k = 17%nat) by lia. subst k.
    pose proof digits_at_17 as H17.
    destruct (digits_at x p q n0 17) as [[s0 n1] | ] eqn:Hd; [ | congruence].
    intros [= <- <- <-]. split; [lia | ]. now apply digits_at_spec.
  - cbn [shortest_from].
    destruct (digits_at x p q n0 k) as [[s0 n1] | ] eqn:Hd.
    + intros [= <- <- <-]. split; [exact Hk | ]. now apply digits_at_spec.
    + apply IH; lia.
Qed.

End Digits.

Lemma shortest_spec (m : positive) (e : Z) (k : nat) (s n : Z) :
  canonical m e -> shortest m e = (k, s, n) ->
  (0 < k)%nat
  /\ decimal_to_double false s (n - Z.of_nat k) = Fin false m e
  /\ 10 ^ (Z.of_nat k - 1) <= s < 10 ^ Z.of_nat k.
Proof.
  intros Hc. unfold shortest. apply (shortest_from_spec m e Hc); lia.
Qed.

(** ** Every finite double but the negative zero survives *)

Lemma canonical_survives (neg : bool) (m : positive) (e : Z) :
  canonical m e -> number_survives (Fin neg m e).
Proof.
  intros Hc. split; [reflexivity | ].
  unfold number_to_string.
  destruct (shortest m e) as [[k s] n] eqn:Hs.
  destruct (shortest_spec m e k s n Hc Hs) as (Hk & Hd & Hr).
  change (if neg then [c_minus] else []) with (sign_text neg).
  rewrite parse_format_digits by assumption.
  f_equal. now apply decimal_to_double_sign.
Qed.

Lemma zero_survives : number_survives (Zero false).
Proof. split; reflexivity. Qed.

(** ** What the reader returns is a double *)

Lemma digits_val_nonneg (ds : jsstring) :
  forallb is_digit ds = true -> 0 <= digits_val ds.
Proof.
  unfold digits_val.
  assert (H : forall acc, 0 <= acc -> forallb is_digit ds = true ->
            0 <= fold_left (fun a d => a * 10 + digit_val d) ds acc).
  { induction ds as [ | d ds IH]; intros acc Hacc Hd; simpl in *; [exact Hacc | ].
    apply andb_true_iff in Hd as [Hd1 Hd2]. apply IH; [ | exact Hd2].
    unfold is_digit, c_zero in Hd1. apply andb_true_iff in Hd1 as [Hd1 _].
    apply N.leb_le in Hd1. unfold digit_val. lia. }
  apply H. lia.
Qed.

Lemma decimal_to_double_canonical (neg : bool) (mant ex : Z) :
  0 <= mant -> canonical_number (decimal_to_double neg mant ex).
Proof.
  intros Hm. unfold decimal_to_double.
  destruct (Z.eqb_spec mant 0); [exact I | ].
  destruct (Z.leb_spec 0 ex).
  - destruct (to_double neg (mant * 10 ^ ex) 1) as [ | s | s | s m e] eqn:Ht;
      try exact I.
    simpl. eapply to_double_canonical; [ | | exact Ht]; [ | lia].
    assert (0 < 10 ^ ex) by (apply Z.pow_pos_nonneg; lia). nia.
  - destruct (to_double neg mant (10 ^ (- ex))) as [ | s | s | s m e] eqn:Ht;
      try exact I.
    simpl. eapply to_double_canonical; [ | | exact Ht]; [lia | ].
    apply Z.pow_pos_nonneg; lia.
Qed.

Lemma read_fraction_digits (s2 fp s3 : jsstring) :
  read_fraction s2 = Some (fp, s3) -> forallb is_digit fp = true.
Proof.
  unfold read_fraction. destruct s2 as [ | c r]; [intros [= <- <-]; reflexivity | ].
  destruct (c =? c_dot)%N; [ | intros [= <- <-]; reflexivity].
  pose proof (span_digits_spec r) as [_ Hd].
  destruct (span_digits r) as [fp' r']. simpl in Hd.
  destruct fp'; [discriminate | ]. intros [= <- <-]. exact Hd.
Qed.

Lemma parse_number_canonical (t : jsstring) (x : number) :
  parse_number t = Some x -> canonical_number x.
Proof.
  unfold parse_number.
  destruct (read_sign t) as [neg s1].
  pose proof (span_digits_spec s1) as [_ Hip].
  destruct (span_digits s1) as [ip s2]. simpl in Hip.
  destruct (int_part_ok ip); [ | discriminate]. simpl.
  destruct (read_fraction s2) as [[fp s3] | ] eqn:Hf; [ | discriminate].
  apply read_fraction_digits in Hf.
  destruct (read_exponent s3) as [[ex rest] | ]; [ | discriminate].
  destruct rest; [ | discriminate]. intros [= <-].
  apply decimal_to_double_canonical. apply digits_val_nonneg.
  rewrite forallb_app, Hip, Hf. reflexivity.
Qed.
(** * JSON: printing and reading a value *)

(** ** The tokens of the text of a value *)

Lemma ws_not_num_char (c : N) : is_ws c = true -> is_num_char c = false.
Proof.
  unfold is_ws. intros H.
  repeat (apply orb_true_iff in H as [H | H]);
    apply N.eqb_eq in H; subst; reflexivity.
Qed.

Lemma delimited_ws (w rest : jsstring) (c : N) :
  forallb is_ws w = true -> is_num_char c = false ->
  delimited (w ++ c :: rest) = true.
Proof.
  destruct w as [ | d w]; simpl; intros Hw Hc.
  - now rewrite Hc.
  - apply andb_true_iff in Hw as [Hd _]. now rewrite ws_not_num_char.
Qed.


Lemma tokenize_quote (k rest : jsstring) :
  tokenize (quote k ++ rest) = emits [TStr k] (tokenize rest).
Proof.
  unfold quote. cbn [app]. rewrite <- app_assoc. cbn [app].
  apply tokenize_string. apply (lex_string_quote_units (length k)). lia.
Qed.

Lemma tokenize_join (w : jsstring) (parts : list jsstring)
  (toks : list (list lexeme)) (tail : jsstring) :
  forallb is_ws w = true -> Forall2 lexes_to parts toks -> parts <> [] ->
  delimited tail = true ->
  tokenize (join (c_comma :: w) parts ++ tail)
  = emits (join [TComma] toks) (tokenize tail).
Proof.
  intros Hw HF. induction HF as [ | p ts ps tss Hp HF IH]; [congruence | ].
  intros _ Htail. destruct HF as [ | p' ts' ps' tss' Hp' HF'].
  - simpl. apply Hp. exact Htail.
  - change (join (c_comma :: w) (p :: p' :: ps'))
      with (p ++ (c_comma :: w) ++ join (c_comma :: w) (p' :: ps')).
    change (join [TComma] (ts :: ts' :: tss'))
      with (ts ++ [TComma] ++ join [TComma] (ts' :: tss')).
    rewrite <- !app_assoc. rewrite Hp by reflexivity.
    cbn [app]. rewrite tokenize_comma, tokenize_ws by exact Hw.
    rewrite IH by (congruence || assumption).
    rewrite !emits_app, <- !app_assoc. reflexivity.
Qed.

Lemma tokenize_wrap (gap stepback : jsstring) (l r : N) (L Rt : lexeme)
  (parts : list jsstring) (toks : list (list lexeme)) :
  (forall s, tokenize (l :: s) = emits [L] (tokenize s)) ->
  (forall s, tokenize (r :: s) = emits [Rt] (tokenize s)) ->
  is_num_char r = false ->
  forallb is_ws gap = true -> forallb is_ws stepback = true ->
  Forall2 lexes_to parts toks ->
  lexes_to (wrap gap stepback l r parts) (L :: join [TComma] toks ++ [Rt]).
Proof.
  intros Hl Hr Hrn Hgap Hstep HF rest Hrest. unfold wrap.
  destruct HF as [ | p ts ps tss Hp HF].
  - cbn [app join]. rewrite Hl, Hr, emits_app. reflexivity.
  - assert (HF' : Forall2 lexes_to (p :: ps) (ts :: tss)) by (constructor; assumption).
    assert (Hne : p :: ps <> []) by discriminate.
    destruct gap as [ | g gap'].
    + cbn [app]. rewrite Hl. rewrite <- app_assoc.
      rewrite (tokenize_join [] _ _ _ eq_refl HF' Hne).
      * cbn [app]. rewrite Hr, !emits_app. reflexivity.
      * cbn [app delimited]. now rewrite Hrn.
    + assert (Hind : forallb is_ws (stepback ++ g :: gap') = true).
      { rewrite forallb_app, Hstep. exact Hgap. }
      set (ind := stepback ++ g :: gap') in *.
      cbn [app]. rewrite Hl.
      rewrite tokenize_cons_ws by reflexivity.
      rewrite <- !app_assoc. rewrite tokenize_ws by exact Hind.
      rewrite (tokenize_join (c_lf :: ind) _ (ts :: tss));
        [ | cbn [forallb]; now rewrite Hind | exact HF' | exact Hne | reflexivity ].
      cbn [app]. rewrite tokenize_cons_ws by reflexivity.
      rewrite <- ?app_assoc. rewrite tokenize_ws by exact Hstep.
      cbn [app]. rewrite Hr, !emits_app. reflexivity.
Qed.

Lemma Forall2_map_both {A B C : Type} (Q : B -> C -> Prop) (f : A -> B) (g : A -> C)
  (xs : list A) :
  Forall (fun x => Q (f x) (g x)) xs -> Forall2 Q (List.map f xs) (List.map g xs).
Proof. induction 1; simpl; constructor; assumption. Qed.

Lemma well_formed_arr (xs : list value) :
  well_formed (JArr xs) <-> Forall well_formed xs.
Proof.
  simpl. induction xs as [ | x xs IH]; simpl.
  - split; [constructor | auto].
  - rewrite Forall_cons_iff; tauto.
Qed.

Lemma well_formed_obj (props : list (jsstring * value)) :
  well_formed (JObj props) <->
  keys_ordered props /\ Forall (fun kv => well_formed (snd kv)) props.
Proof.
  simpl. apply and_iff_compat_l.
  induction props as [ | kv props IH]; simpl.
  - split; [constructor | auto].
  - rewrite Forall_cons_iff; tauto.
Qed.

Lemma reread_well_formed (v : value) : well_formed v -> well_formed (reread v).
Proof.
  induction v as [ | b | x | s | xs IH | props IH] using value_induction;
    intros Hwf; try exact I.
  - destruct x; simpl in *; auto.
  - apply well_formed_arr in Hwf. cbn [reread]. apply well_formed_arr.
    rewrite List.Forall_forall in *. intros y Hy.
    apply in_map_iff in Hy as (x & <- & Hx). auto.
  - apply well_formed_obj in Hwf as [Hord Hwf]. cbn [reread].
    apply well_formed_obj. split.
    + unfold keys_ordered in *. rewrite map_map. exact Hord.
    + rewrite List.Forall_forall in *. intros kv Hkv.
      apply in_map_iff in Hkv as (kv' & <- & Hkv'). simpl. auto.
Qed.

Lemma plain_arr (xs : list value) : plain (JArr xs) <-> Forall plain xs.
Proof.
  simpl. induction xs as [ | x xs IH]; simpl.
  - split; [constructor | auto].
  - rewrite Forall_cons_iff; tauto.
Qed.

Lemma plain_obj (props : list (jsstring * value)) :
  plain (JObj props) <-> Forall (fun kv => plain (snd kv)) props.
Proof.
  simpl. induction props as [ | kv props IH]; simpl.
  - split; [constructor | auto].
  - rewrite Forall_cons_iff; tauto.
Qed.

(** A value reads back as itself exactly when it is plain. *)
Lemma reread_plain (v : value) : reread v = v <-> plain v.
Proof.
  induction v as [ | b | x | s | xs IH | props IH] using value_induction;
    try (simpl; tauto).
  - destruct x as [ | [ | ] | [ | ] | neg m e]; simpl; split;
      (tauto || discriminate || reflexivity).
  - rewrite plain_arr. cbn [reread]. split.
    + intros [= H]. induction IH as [ | x xs Hx HF IHF]; [constructor | ].
      simpl in H. injection H as H1 H2. constructor; [now apply Hx | auto].
    + intros H. f_equal. induction IH as [ | x xs Hx HF IHF]; [reflexivity | ].
      apply Forall_cons_iff in H as [H1 H2]. simpl. f_equal; [now apply Hx | auto].
  - rewrite plain_obj. cbn [reread]. split.
    + intros [= H]. induction IH as [ | [k x] props Hx HF IHF]; [constructor | ].
      simpl in H. injection H as H1 H2. constructor; [now apply Hx | auto].
    + intros H. f_equal. induction IH as [ | [k x] props Hx HF IHF]; [reflexivity | ].
      apply Forall_cons_iff in H as [H1 H2]. simpl in *.
      f_equal; [f_equal; now apply Hx | auto].
Qed.

Lemma tokenize_serialize (v : value) :
  well_formed v ->
  forall gap indent, forallb is_ws gap = true -> forallb is_ws indent = true ->
  lexes_to (serialize gap indent v) (tokens_of (reread v)).
Proof.
  induction v as [ | b | x | s | xs IH | props IH] using value_induction;
    intros Hwf gap indent Hgap Hind.
  - intros rest _. apply tokenize_null.
  - intros rest _. destruct b; [apply tokenize_true | apply tokenize_false].
  - intros rest Hrest. destruct x as [ | neg | neg | neg m e].
    + apply tokenize_null.
    + change (serialize gap indent (JNum (Zero neg)))
        with (number_to_string (Zero false)).
      apply tokenize_number_text; [apply zero_survives | exact Hrest].
    + apply tokenize_null.
    + change (serialize gap indent (JNum (Fin neg m e)))
        with (number_to_string (Fin neg m e)).
      apply tokenize_number_text; [ | exact Hrest].
      now apply canonical_survives.
  - intros rest _. apply tokenize_quote.
  - apply well_formed_arr in Hwf. cbn [serialize reread tokens_of].
    apply tokenize_wrap; try assumption;
      [apply tokenize_lbracket | apply tokenize_rbracket | reflexivity | ].
    rewrite map_map.
    apply (Forall2_map_both lexes_to (serialize gap (indent ++ gap))
             (fun x => tokens_of (reread x))).
    rewrite Forall_forall in *.
    intros x Hx. apply IH; [exact Hx | auto | exact Hgap | ].
    rewrite forallb_app, Hind. exact Hgap.
  - apply well_formed_obj in Hwf as [_ Hwf]. cbn [serialize reread tokens_of].
    apply tokenize_wrap; try assumption;
      [apply tokenize_lbrace | apply tokenize_rbrace | reflexivity | ].
    rewrite map_map. cbn [fst snd].
    apply (Forall2_map_both lexes_to
             (fun kv : jsstring * value =>
                let '(k, v') := kv in
                quote k ++ c_colon :: (if truthy gap then [c_space] else [])
                  ++ serialize gap (indent ++ gap) v')
             (fun kv => TStr (fst kv) :: TColon :: tokens_of (reread (snd kv)))).
    rewrite Forall_forall in *.
    intros [k v] Hkv rest Hrest. cbn [fst snd].
    rewrite <- app_assoc. rewrite tokenize_quote. cbn [app].
    rewrite tokenize_colon. rewrite <- app_assoc.
    rewrite tokenize_ws by (destruct (truthy gap); reflexivity).
    rewrite (IH (k, v) Hkv (Hwf (k, v) Hkv) gap (indent ++ gap));
      [ | exact Hgap | rewrite forallb_app, Hind; exact Hgap | exact Hrest].
    rewrite !emits_app. reflexivity.
Qed.



(** ** Objects *)

Lemma key_eqb_eq (a b : jsstring) : key_eqb a b = true <-> a = b.
Proof. unfold key_eqb. apply bool_decide_eq_true. Qed.

Lemma key_eqb_neq (a b : jsstring) : key_eqb a b = false <-> a <> b.
Proof. unfold key_eqb. apply bool_decide_eq_false. Qed.

Lemma has_key_false (k : jsstring) (props : list (jsstring * value)) :
  has_key k props = false <-> Forall (fun k' => k <> k') (List.map fst props).
Proof.
  induction props as [ | [k' v'] props IH]; simpl.
  - split; [constructor | reflexivity].
  - rewrite orb_false_iff, Forall_cons_iff, key_eqb_neq, IH. reflexivity.
Qed.

Lemma replace_key_keys (k : jsstring) (v : value) (props : list (jsstring * value)) :
  List.map fst (replace_key k v props) = List.map fst props.
Proof.
  induction props as [ | [k' v'] props IH]; simpl; [reflexivity | ].
  destruct (key_eqb k k'); simpl; [reflexivity | now rewrite IH].
Qed.

Lemma replace_key_values (P : value -> Prop) (k : jsstring) (v : value)
  (props : list (jsstring * value)) :
  P v -> Forall (fun kv => P (snd kv)) props ->
  Forall (fun kv => P (snd kv)) (replace_key k v props).
Proof.
  intros Hv. induction 1 as [ | [k' v'] props Hkv HF IH]; simpl; [constructor | ].
  destruct (key_eqb k k'); constructor; assumption.
Qed.

Lemma insert_index_Forall (P : jsstring * value -> Prop) (i : Z) (k : jsstring)
  (v : value) (props : list (jsstring * value)) :
  P (k, v) -> Forall P props -> Forall P (insert_index i k v props).
Proof.
  intros Hk. induction 1 as [ | [k' v'] props Hkv HF IH]; simpl.
  - constructor; [exact Hk | constructor].
  - destruct (array_index k') as [j | ].
    + destruct (j <=? i); constructor; auto.
    + constructor; auto.
Qed.

Lemma StronglySorted_snoc {A : Type} (R : A -> A -> Prop) (l : list A) (x : A) :
  StronglySorted R l -> Forall (fun y => R y x) l -> StronglySorted R (l ++ [x]).
Proof.
  induction 1 as [ | a l Hs IH Ha]; simpl; intros HF.
  - constructor; constructor.
  - apply Forall_cons_iff in HF as [Hax HF]. constructor; [auto | ].
    apply Forall_app; split; [exact Ha | constructor; [exact Hax | constructor]].
Qed.

Lemma StronglySorted_middle {A : Type} (R : A -> A -> Prop) (l1 l2 : list A) (x : A) :
  StronglySorted R (l1 ++ x :: l2) -> Forall (fun y => R y x) l1.
Proof.
  induction l1 as [ | a l1 IH]; simpl; intros H; [constructor | ].
  apply StronglySorted_inv in H as [Hs Ha]. constructor; [ | auto].
  rewrite Forall_app, Forall_cons_iff in Ha. tauto.
Qed.

Lemma insert_index_ordered (i : Z) (k : jsstring) (v : value)
  (props : list (jsstring * value)) :
  array_index k = Some i ->
  Forall (fun k' => k <> k') (List.map fst props) ->
  keys_ordered props -> keys_ordered (insert_index i k v props).
Proof.
  unfold keys_ordered. intros Hi.
  induction props as [ | [k' v'] props IH]; simpl; intros Hne Hs.
  - constructor; constructor.
  - apply Forall_cons_iff in Hne as [Hk' Hne].
    apply StronglySorted_inv in Hs as [Hs Hall].
    assert (Hfront : forall j, array_index k' = Some j -> i < j ->
              StronglySorted key_before (k :: k' :: List.map fst props)).
    { intros j Hj Hij. constructor; [constructor; assumption | ].
      constructor.
      - split; [exact Hk' | ]. intros j' Hj'. exists i. split; [exact Hi | ].
        rewrite Hj in Hj'. injection Hj' as <-. lia.
      - rewrite Forall_forall in *. intros k2 Hk2. split; [auto | ].
        intros j2 Hj2. exists i. split; [exact Hi | ].
        destruct (Hall k2 Hk2) as [_ Hb]. destruct (Hb j2 Hj2) as (j' & Hj' & Hle).
        rewrite Hj in Hj'. injection Hj' as <-. lia. }
    destruct (array_index k') as [j | ] eqn:Hj.
    + destruct (Z.leb_spec j i).
      * simpl. constructor; [auto | ].
        change (Forall (key_before k') (List.map fst (insert_index i k v props))).
        rewrite Forall_map. apply insert_index_Forall.
        -- simpl. split; [congruence | ]. intros j' Hj'. exists j. split; [exact Hj | ].
           rewrite Hi in Hj'. injection Hj' as <-. lia.
        -- rewrite <- Forall_map. exact Hall.
      * simpl. apply (Hfront j eq_refl). lia.
    + simpl. constructor; [constructor; assumption | ].
      constructor.
      * split; [exact Hk' | ]. intros j' Hj'. congruence.
      * rewrite Forall_forall in *. intros k2 Hk2. split; [auto | ].
        intros j2 Hj2. destruct (Hall k2 Hk2) as [_ Hb].
        destruct (Hb j2 Hj2) as (j' & Hj' & _). congruence.
Qed.

Lemma obj_define_ordered (k : jsstring) (v : value) (props : list (jsstring * value)) :
  keys_ordered props -> keys_ordered (obj_define k v props).
Proof.
  intros Hs. unfold obj_define.
  destruct (has_key k props) eqn:Hk.
  - unfold keys_ordered. now rewrite replace_key_keys.
  - apply has_key_false in Hk.
    destruct (array_index k) as [i | ] eqn:Hi.
    + now apply insert_index_ordered.
    + unfold keys_ordered. rewrite map_app. simpl.
      apply StronglySorted_snoc; [exact Hs | ].
      rewrite Forall_forall in *. intros k' Hk'. split.
      * intros Heq. apply (Hk k'); [exact Hk' | congruence].
      * intros j Hj. congruence.
Qed.

Lemma obj_define_values (P : value -> Prop) (k : jsstring) (v : value)
  (props : list (jsstring * value)) :
  P v -> Forall (fun kv => P (snd kv)) props ->
  Forall (fun kv => P (snd kv)) (obj_define k v props).
Proof.
  intros Hv HF. unfold obj_define. destruct (has_key k props).
  - now apply replace_key_values.
  - destruct (array_index k).
    + now apply insert_index_Forall.
    + apply Forall_app. split; [exact HF | constructor; [exact Hv | constructor]].
Qed.

Lemma insert_index_append (i : Z) (k : jsstring) (v : value)
  (props : list (jsstring * value)) :
  Forall (fun k' => exists j, array_index k' = Some j /\ j <= i) (List.map fst props) ->
  insert_index i k v props = props ++ [(k, v)].
Proof.
  induction props as [ | [k' v'] props IH]; simpl; intros HF; [reflexivity | ].
  apply Forall_cons_iff in HF as [(j & Hj & Hle) HF].
  rewrite Hj. destruct (Z.leb_spec j i); [ | lia]. now rewrite IH.
Qed.

Lemma obj_define_append (k : jsstring) (v : value) (props : list (jsstring * value)) :
  Forall (fun k' => key_before k' k) (List.map fst props) ->
  obj_define k v props = props ++ [(k, v)].
Proof.
  intros HF. unfold obj_define.
  assert (Hk : has_key k props = false).
  { apply has_key_false. rewrite Forall_forall in *. intros k' Hk' Heq.
    destruct (HF k' Hk') as [Hne _]. congruence. }
  rewrite Hk. destruct (array_index k) as [i | ] eqn:Hi; [ | reflexivity].
  apply insert_index_append. rewrite Forall_forall in *.
  intros k' Hk'. destruct (HF k' Hk') as [_ Hb]. apply Hb. exact Hi.
Qed.

Lemma fold_define_ordered (props acc : list (jsstring * value)) :
  keys_ordered (acc ++ props) ->
  fold_left (fun a kv => obj_define (fst kv) (snd kv) a) props acc = acc ++ props.
Proof.
  revert acc. induction props as [ | [k v] props IH]; intros acc Hs; simpl.
  - now rewrite app_nil_r.
  - rewrite obj_define_append.
    + rewrite IH; rewrite <- app_assoc; [reflexivity | exact Hs].
    + unfold keys_ordered in Hs. rewrite map_app in Hs. simpl in Hs.
      now apply StronglySorted_middle in Hs.
Qed.



(** ** The parser on the tokens of a value *)

Lemma size_pos (v : value) : (1 <= size v)%nat.
Proof. destruct v; simpl; lia. Qed.

Lemma size_arr_bound (xs : list value) (x : value) :
  In x xs -> (size x < size (JArr xs))%nat.
Proof.
  simpl. induction xs as [ | y xs IH]; simpl; [tauto | ].
  intros [-> | H]; [lia | ]. apply IH in H. lia.
Qed.

Lemma size_arr_length (xs : list value) : (length xs < size (JArr xs))%nat.
Proof.
  simpl. induction xs as [ | y xs IH]; simpl; [lia | ].
  pose proof (size_pos y). lia.
Qed.

Lemma size_obj_bound (props : list (jsstring * value)) (kv : jsstring * value) :
  In kv props -> (size (snd kv) < size (JObj props))%nat.
Proof.
  simpl. induction props as [ | y props IH]; simpl; [tauto | ].
  intros [-> | H]; [lia | ]. apply IH in H. lia.
Qed.

Lemma size_obj_length (props : list (jsstring * value)) :
  (length props < size (JObj props))%nat.
Proof.
  simpl. induction props as [ | y props IH]; simpl; [lia | ].
  pose proof (size_pos (snd y)). lia.
Qed.

Lemma parse_elements_tokens (pv : parser) (xs : list value) :
  (forall x, In x xs -> forall rest, pv (tokens_of x ++ rest) = Some (x, rest)) ->
  forall acc f rest, xs <> [] -> (length xs <= f)%nat ->
  parse_elements pv f (join [TComma] (List.map tokens_of xs) ++ TRBracket :: rest) acc
  = Some (JArr (rev acc ++ xs), rest).
Proof.
  induction xs as [ | x xs IH]; intros Hpv acc f rest Hne Hf; [congruence | ].
  destruct f as [ | f]; [simpl in Hf; lia | ].
  destruct xs as [ | x' xs'].
  - simpl. rewrite Hpv by (left; reflexivity). reflexivity.
  - change (join [TComma] (List.map tokens_of (x :: x' :: xs')))
      with (tokens_of x ++ [TComma] ++ join [TComma] (List.map tokens_of (x' :: xs'))).
    rewrite <- !app_assoc. cbn [parse_elements].
    rewrite Hpv by (left; reflexivity). cbn [app].
    rewrite IH; [ | intros; apply Hpv; right; assumption | discriminate
                | simpl in *; lia].
    simpl. rewrite <- app_assoc. reflexivity.
Qed.


Lemma parse_members_tokens (pv : parser) (props : list (jsstring * value)) :
  (forall kv, In kv props ->
     forall rest, pv (tokens_of (snd kv) ++ rest) = Some (snd kv, rest)) ->
  forall acc f rest, props <> [] -> (length props <= f)%nat ->
  parse_members pv f (join [TComma] (List.map member_tokens props) ++ TRBrace :: rest) acc
  = Some (JObj (fold_left (fun a kv => obj_define (fst kv) (snd kv) a) props acc), rest).
Proof.
  induction props as [ | [k v] props IH]; intros Hpv acc f rest Hne Hf; [congruence | ].
  destruct f as [ | f]; [simpl in Hf; lia | ].
  destruct props as [ | kv' props'].
  - simpl. rewrite (Hpv (k, v)) by (left; reflexivity). reflexivity.
  - change (join [TComma] (List.map member_tokens ((k, v) :: kv' :: props')))
      with (member_tokens (k, v) ++ [TComma]
              ++ join [TComma] (List.map member_tokens (kv' :: props'))).
    unfold member_tokens at 1. cbn [fst snd app parse_members].
    rewrite <- !app_assoc.
    rewrite (Hpv (k, v)) by (left; reflexivity). cbn [app snd].
    rewrite IH; [ | intros; apply Hpv; right; assumption | discriminate
                | simpl in *; lia].
    reflexivity.
Qed.

Lemma parse_value_array (f : nat) (t : lexeme) (ts : list lexeme) :
  t <> TRBracket ->
  parse_value (S f) (TLBracket :: t :: ts)
  = parse_elements (parse_value f) f (t :: ts) [].
Proof. destruct t; intros H; try reflexivity. congruence. Qed.

Lemma tokens_of_head (v : value) :
  exists t ts, tokens_of v = t :: ts /\ t <> TRBracket.
Proof.
  destruct v as [ | [ | ] | x | s | xs | props]; simpl; eexists; eexists;
    (split; [reflexivity | discriminate]).
Qed.

Lemma parse_value_elements (f : nat) (xs : list value) (rest : list lexeme) :
  xs <> [] ->
  parse_value (S f)
    (TLBracket :: join [TComma] (List.map tokens_of xs) ++ TRBracket :: rest)
  = parse_elements (parse_value f) f
      (join [TComma] (List.map tokens_of xs) ++ TRBracket :: rest) [].
Proof.
  destruct xs as [ | x xs]; [congruence | intros _].
  destruct (tokens_of_head x) as (t & ts & Ht & Hne).
  assert (Hj : exists ts', join [TComma] (List.map tokens_of (x :: xs)) = t :: ts').
  { destruct xs; simpl; rewrite Ht; simpl; eauto. }
  destruct Hj as [ts' ->]. apply parse_value_array. exact Hne.
Qed.

Lemma parse_value_members (f : nat) (props : list (jsstring * value))
  (rest : list lexeme) :
  props <> [] ->
  parse_value (S f)
    (TLBrace :: join [TComma] (List.map member_tokens props) ++ TRBrace :: rest)
  = parse_members (parse_value f) f
      (join [TComma] (List.map member_tokens props) ++ TRBrace :: rest) [].
Proof.
  destruct props as [ | [k v] props]; [congruence | intros _].
  assert (Hj : exists ts', join [TComma] (List.map member_tokens ((k, v) :: props))
                           = TStr k :: ts').
  { destruct props; simpl; eauto. }
  destruct Hj as [ts' ->]. reflexivity.
Qed.

Lemma parse_tokens_of (v : value) :
  well_formed v ->
  forall f rest, (size v <= f)%nat ->
  parse_value f (tokens_of v ++ rest) = Some (v, rest).
Proof.
  induction v as [ | b | x | s | xs IH | props IH] using value_induction;
    intros Hwf f rest Hf;
    (destruct f as [ | f]; [simpl in Hf; lia | ]).
  - reflexivity.
  - destruct b; reflexivity.
  - reflexivity.
  - reflexivity.
  - apply well_formed_arr in Hwf. destruct xs as [ | x xs]; [reflexivity | ].
    cbn [tokens_of]. cbn [app]. rewrite <- app_assoc.
    change ([TRBracket] ++ rest) with (TRBracket :: rest).
    rewrite parse_value_elements by discriminate.
    rewrite parse_elements_tokens; [reflexivity | | discriminate | ].
    + intros y Hy rest'. rewrite List.Forall_forall in IH, Hwf.
      apply IH; [exact Hy | auto | ].
      pose proof (size_arr_bound _ _ Hy). lia.
    + pose proof (size_arr_length (x :: xs)). lia.
  - apply well_formed_obj in Hwf as [Hord Hwf].
    destruct props as [ | [k v] props]; [reflexivity | ].
    cbn [tokens_of]. cbn [app]. rewrite <- app_assoc.
    change ([TRBrace] ++ rest) with (TRBrace :: rest).
    change (List.map (fun kv : jsstring * value =>
                        TStr (fst kv) :: TColon :: tokens_of (snd kv)))
      with (List.map member_tokens).
    rewrite parse_value_members by discriminate.
    rewrite parse_members_tokens; [ | | discriminate | ].
    + rewrite fold_define_ordered by exact Hord. reflexivity.
    + intros kv Hkv rest'. rewrite List.Forall_forall in IH, Hwf.
      apply IH; [exact Hkv | auto | ].
      pose proof (size_obj_bound _ _ Hkv). lia.
    + pose proof (size_obj_length ((k, v) :: props)). lia.
Qed.

Lemma join_length {A : Type} (sep : list A) (parts : list (list A)) :
  (fold_right (fun p n => length p + n) 0 parts <= length (join sep parts))%nat.
Proof.
  induction parts as [ | p parts IH]; simpl; [lia | ].
  destruct parts as [ | p' parts']; [simpl; lia | ].
  rewrite !length_app. simpl in *. lia.
Qed.

Lemma size_le_tokens (v : value) : (size v <= length (tokens_of v))%nat.
Proof.
  induction v as [ | b | x | s | xs IH | props IH] using value_induction;
    try (simpl; lia).
  - cbn [tokens_of size length]. rewrite length_app.
    pose proof (join_length [TComma] (List.map tokens_of xs)) as Hj.
    assert (fold_right (fun x n => size x + n) 0 xs
            <= fold_right (fun p n => length p + n) 0 (List.map tokens_of xs))%nat.
    { induction IH as [ | x xs Hx HF IHF]; simpl; [lia | ].
      specialize (IHF (join_length _ _)). lia. }
    simpl. lia.
  - cbn [tokens_of size length]. rewrite length_app.
    change (List.map (fun kv : jsstring * value =>
                        TStr (fst kv) :: TColon :: tokens_of (snd kv)))
      with (List.map member_tokens).
    pose proof (join_length [TComma] (List.map member_tokens props)) as Hj.
    assert (fold_right (fun kv n => size (snd kv) + n) 0 props
            <= fold_right (fun p n => length p + n) 0 (List.map member_tokens props))%nat.
    { induction IH as [ | kv props Hx HF IHF]; simpl; [lia | ].
      specialize (IHF (join_length _ _)). lia. }
    simpl. lia.
Qed.

Lemma spaces_are_ws (n : nat) : forallb is_ws (repeat c_space n) = true.
Proof. induction n; simpl; [reflexivity | exact IHn]. Qed.

(** Reading the text of a value gives the value back, but for the
    infinities and the negative zero. *)
Lemma JSON_parse_stringify (space : nat) (v : value) :
  well_formed v ->
  JSON_parse (JSON_stringify space v) = Some (reread v).
Proof.
  intros Hwf. unfold JSON_parse, JSON_stringify.
  pose proof (tokenize_serialize v Hwf (repeat c_space (Nat.min 10 space)) []
                (spaces_are_ws _) eq_refl [] eq_refl) as Hlex.
  rewrite app_nil_r in Hlex. rewrite Hlex.
  change (tokenize []) with (Some (@nil lexeme)). cbn [emits].
  rewrite parse_tokens_of; [reflexivity | now apply reread_well_formed | ].
  rewrite app_nil_r. pose proof (size_le_tokens (reread v)). lia.
Qed.

(** ** What the parser returns is well formed *)

Lemma emit_some (t : lexeme) (r : option (list lexeme)) (ts : list lexeme) :
  emit t r = Some ts -> exists ts', r = Some ts' /\ ts = t :: ts'.
Proof. destruct r as [ts' | ]; [intros [= <-]; eauto | discriminate]. Qed.

Lemma lex_canonical (f : nat) (s : jsstring) (ts : list lexeme) :
  lex f s = Some ts -> Forall canonical_lexeme ts.
Proof.
  revert s ts. induction f as [ | f IH]; intros s ts.
  - destruct s; [intros [= <-]; constructor | discriminate].
  - destruct s as [ | c r]; [intros [= <-]; constructor | ].
    assert (Hemit : forall t r' ts0, canonical_lexeme t ->
              emit t (lex f r') = Some ts0 -> Forall canonical_lexeme ts0).
    { intros t r' ts0 Ht H. apply emit_some in H as (ts' & H & ->).
      constructor; [exact Ht | eauto]. }
    assert (Hkw : forall w t ts0, canonical_lexeme t ->
              keyword w t (c :: r) (lex f) = Some ts0 -> Forall canonical_lexeme ts0).
    { intros w t ts0 Ht. unfold keyword.
      destruct (strip_prefix (js w) (c :: r)); [ | discriminate]. now apply Hemit. }
    cbn [lex].
    repeat match goal with
           | |- (if ?b then _ else _) = _ -> _ => destruct b
           end;
      try (apply Hemit; exact I); try (apply Hkw; exact I); try discriminate.
    + apply IH.
    + destruct (lex_string r) as [[str r'] | ]; [ | discriminate].
      apply Hemit. exact I.
    + destruct (span_num (c :: r)) as [sp r'].
      destruct (parse_number sp) as [x | ] eqn:Hx; [ | discriminate].
      apply Hemit. simpl. now apply parse_number_canonical in Hx.
Qed.

Lemma parse_elements_wf (pv : parser) :
  (forall ts v r, Forall canonical_lexeme ts -> pv ts = Some (v, r) ->
     well_formed v /\ Forall canonical_lexeme r) ->
  forall f ts acc v r, Forall canonical_lexeme ts -> Forall well_formed acc ->
  parse_elements pv f ts acc = Some (v, r) ->
  well_formed v /\ Forall canonical_lexeme r.
Proof.
  intros Hpv. induction f as [ | f IH]; intros ts acc v r Hts Hacc; [discriminate | ].
  simpl. destruct (pv ts) as [[x ts'] | ] eqn:Hx; [ | discriminate].
  apply Hpv in Hx as [Hx Hts']; [ | exact Hts].
  destruct ts' as [ | t ts'']; [discriminate | ].
  apply Forall_cons_iff in Hts' as [_ Hts''].
  destruct t; try discriminate.
  - intros [= <- <-]. split; [ | exact Hts'']. apply well_formed_arr.
    apply Forall_app. split; [ | constructor; [exact Hx | constructor]].
    apply Forall_rev. exact Hacc.
  - apply IH; [exact Hts'' | constructor; assumption].
Qed.

Lemma parse_members_wf (pv : parser) :
  (forall ts v r, Forall canonical_lexeme ts -> pv ts = Some (v, r) ->
     well_formed v /\ Forall canonical_lexeme r) ->
  forall f ts acc v r, Forall canonical_lexeme ts ->
  keys_ordered acc -> Forall (fun kv => well_formed (snd kv)) acc ->
  parse_members pv f ts acc = Some (v, r) ->
  well_formed v /\ Forall canonical_lexeme r.
Proof.
  intros Hpv. induction f as [ | f IH]; intros ts acc v r Hts Hord Hacc;
    [discriminate | ].
  simpl. destruct ts as [ | t ts]; [discriminate | ].
  apply Forall_cons_iff in Hts as [_ Hts].
  destruct t; try discriminate.
  destruct ts as [ | t ts]; [discriminate | ].
  apply Forall_cons_iff in Hts as [_ Hts].
  destruct t; try discriminate.
  destruct (pv ts) as [[x ts'] | ] eqn:Hx; [ | discriminate].
  apply Hpv in Hx as [Hx Hts']; [ | exact Hts].
  destruct ts' as [ | t ts'']; [discriminate | ].
  apply Forall_cons_iff in Hts' as [_ Hts''].
  destruct t; try discriminate.
  - intros [= <- <-]. split; [ | exact Hts'']. apply well_formed_obj. split.
    + now apply obj_define_ordered.
    + now apply obj_define_values.
  - apply IH; [exact Hts'' | now apply obj_define_ordered
              | now apply obj_define_values].
Qed.

Lemma parse_value_wf (f : nat) (ts : list lexeme) (v : value) (r : list lexeme) :
  Forall canonical_lexeme ts -> parse_value f ts = Some (v, r) ->
  well_formed v /\ Forall canonical_lexeme r.
Proof.
  revert ts v r. induction f as [ | f IH]; intros ts v r Hts; [discriminate | ].
  simpl. destruct ts as [ | t ts]; [discriminate | ].
  apply Forall_cons_iff in Hts as [Ht Hts].
  destruct t; try discriminate; try (intros [= <- <-]; split; [exact I | exact Hts]).
  - destruct ts as [ | t ts].
    + intros H. eapply parse_members_wf in H; eauto; constructor.
    + destruct t;
        try (intros H; eapply parse_members_wf in H; eauto; constructor).
      intros [= <- <-]. apply Forall_cons_iff in Hts as [_ Hts].
      split; [ | exact Hts]. simpl. split; constructor.
  - destruct ts as [ | t ts].
    + intros H. eapply parse_elements_wf in H; eauto.
    + destruct t; try (intros H; eapply parse_elements_wf in H; eauto).
      intros [= <- <-]. apply Forall_cons_iff in Hts as [_ Hts].
      split; [exact I | exact Hts].
  - intros [= <- <-]. split; [exact Ht | exact Hts].
Qed.

Lemma JSON_parse_wf (text : jsstring) (v : value) :
  JSON_parse text = Some v -> well_formed v.
Proof.
  unfold JSON_parse. destruct (tokenize text) as [ts | ] eqn:Hl; [ | discriminate].
  apply lex_canonical in Hl.
  destruct (parse_value (S (length ts)) ts) as [[v' r] | ] eqn:Hp; [ | discriminate].
  destruct r; [ | discriminate]. intros [= <-].
  eapply parse_value_wf in Hp; [ | exact Hl]. tauto.
Qed.

(** * The pipeline *)

(** ** The shape of a submission *)

Lemma handleSubmit_unfold (sh : Shell) {R : Type} (T : Transport R) (s : AppState) :
  handleSubmit sh T s =
  match options_of s with
  | None => (rejected_invalid s, [])
  | Some o => (received T s (fetch T (fullUrl_of s) o), [(fullUrl_of s, o)])
  end.
Proof.
  destruct sh; unfold handleSubmit, Web.handleSubmit, Mobile.handleSubmit,
    options_of, sends_body, received, rejected_invalid, started, headers_of, fullUrl_of;
    cbv zeta;
    change (method (setStatusCode None (setResponse [] (setError [] (setLoading true s)))))
      with (method s);
    (destruct (match method s with GET => false | _ => true end && truthy (jsonBody s));
     [ destruct (JSON_parse (jsonBody s)) | ];
     try reflexivity;
     match goal with
     | |- context [fetch T ?u ?o] =>
         destruct (fetch T u o) as [res | err]; [ | reflexivity ];
         destruct (json T res) as [[data | e] res'];
         [ reflexivity | destruct (text T res') as [[t | e'] res'']; reflexivity ]
     end).
Qed.

Lemma js_keys_differ : js "Authorization" <> js "Content-Type".
Proof. intros H. vm_compute in H. discriminate H. Qed.

Lemma headers_of_content_type (s : AppState) :
  headers_of s !! js "Content-Type" = Some (js "application/json").
Proof.
  unfold headers_of. destruct (useAuth s && truthy (token s)).
  - rewrite lookup_insert_ne by exact js_keys_differ. apply lookup_singleton_eq.
  - apply lookup_singleton_eq.
Qed.

Lemma headers_of_authorization (s : AppState) :
  headers_of s !! js "Authorization" =
  if useAuth s && truthy (token s) then Some (js "Bearer " ++ token s) else None.
Proof.
  unfold headers_of. destruct (useAuth s && truthy (token s)).
  - apply lookup_insert_eq.
  - apply lookup_singleton_ne. intros H. symmetry in H. exact (js_keys_differ H).
Qed.

Lemma options_of_headers (s : AppState) (o : RequestInit) :
  options_of s = Some o -> init_headers o = headers_of s /\ init_method o = method s.
Proof.
  unfold options_of. destruct (sends_body s).
  - destruct (JSON_parse (jsonBody s)); intros H; inversion H; subst; auto.
  - intros H; inversion H; subst; auto.
Qed.

Lemma truthy_false (x : jsstring) : truthy x = false <-> x = [].
Proof. destruct x; simpl; split; congruence. Qed.

Lemma truthy_true (x : jsstring) : truthy x = true <-> x <> [].
Proof. destruct x; simpl; split; congruence. Qed.

(** ** Status classification *)

(** C1 (as amended): in both shells the colour of a status code is the
    colour of exactly one bucket: neutral for an absent code and for 0,
    success for 200-299, redirect for 300-399, client error for 400-499, and
    server error for every other integer (500 and above, but also 1-199 and
    the negative ones); distinct buckets have distinct colours. *)
Theorem status_classification (sh : Shell) (code : option Z) :
  (code = None \/ code = Some 0 ->
   getStatusCodeColor sh code = colour sh Neutral) /\
  (forall c, code = Some c -> 200 <= c < 300 ->
   getStatusCodeColor sh code = colour sh Success) /\
  (forall c, code = Some c -> 300 <= c < 400 ->
   getStatusCodeColor sh code = colour sh Redirect) /\
  (forall c, code = Some c -> 400 <= c < 500 ->
   getStatusCodeColor sh code = colour sh ClientError) /\
  (forall c, code = Some c -> c <> 0 -> c < 200 \/ 500 <= c ->
   getStatusCodeColor sh code = colour sh ServerError) /\
  (forall b b', colour sh b = colour sh b' -> b = b').
Proof.
  repeat split.
  - intros [-> | ->]; destruct sh; reflexivity.
  - intros c -> Hc. destruct sh; simpl;
      destruct (Z.eqb_spec c 0); try lia;
      destruct (Z.leb_spec 200 c); try lia;
      destruct (Z.ltb_spec c 300); try lia; reflexivity.
  - intros c -> Hc. destruct sh; simpl;
      destruct (Z.eqb_spec c 0); try lia;
      destruct (Z.leb_spec 200 c); try lia;
      destruct (Z.ltb_spec c 300); try lia;
      destruct (Z.leb_spec 300 c); try lia;
      destruct (Z.ltb_spec c 400); try lia; reflexivity.
  - intros c -> Hc. destruct sh; simpl;
      destruct (Z.eqb_spec c 0); try lia;
      destruct (Z.leb_spec 200 c); try lia;
      destruct (Z.ltb_spec c 300); try lia;
      destruct (Z.leb_spec 300 c); try lia;
      destruct (Z.ltb_spec c 400); try lia;
      destruct (Z.leb_spec 400 c); try lia;
      destruct (Z.ltb_spec c 500); try lia; reflexivity.
  - intros c -> Hc0 Hc. destruct sh; simpl;
      destruct (Z.eqb_spec c 0); try lia;
      destruct (Z.leb_spec 200 c); destruct (Z.ltb_spec c 300); try lia;
      destruct (Z.leb_spec 300 c); destruct (Z.ltb_spec c 400); try lia;
      destruct (Z.leb_spec 400 c); destruct (Z.ltb_spec c 500); try lia;
      reflexivity.
  - intros b b' H. destruct sh, b, b'; try reflexivity;
      vm_compute in H; discriminate H.
Qed.

Lemma status_classification_witness :
  getStatusCodeColor Browser (Some 404) = colour Browser ClientError
  /\ getStatusCodeColor MobileApp (Some 150) = colour MobileApp ServerError.
Proof.
  split.
  - apply (proj1 (proj2 (proj2 (proj2 (status_classification Browser (Some 404))))) 404);
      [reflexivity | lia].
  - apply (proj1 (proj2 (proj2 (proj2 (proj2
             (status_classification MobileApp (Some 150)))))) 150);
      [reflexivity | lia | lia].
Defined.

(** C1 as stated fails: the informational code 100 is below 200, yet both
    shells show it in the colour of a server error, not the neutral one. *)
Lemma status_100_is_not_neutral :
  100 < 200
  /\ getStatusCodeColor Browser (Some 100) = colour Browser ServerError
  /\ getStatusCodeColor Browser (Some 100) <> colour Browser Neutral
  /\ getStatusCodeColor MobileApp (Some 100) = colour MobileApp ServerError
  /\ getStatusCodeColor MobileApp (Some 100) <> colour MobileApp Neutral.
Proof.
  repeat split; try reflexivity; try lia;
    intros H; vm_compute in H; discriminate H.
Qed.

(** ** Request preparation *)

(** C2: the options passed to the transport have no body for GET, whatever
    the JSON body field holds; no body for POST or PUT with an empty JSON
    body; and for POST or PUT with a non-empty JSON body that parses, the
    body is the field itself, unchanged. *)
Theorem body_attachment (sh : Shell) {R : Type} (T : Transport R) (s : AppState) :
  (method s = GET ->
   exists u h, snd (handleSubmit sh T s) =
     [(u, {| init_method := GET; init_headers := h; init_body := None |})]) /\
  (method s <> GET -> jsonBody s = [] ->
   exists u h, snd (handleSubmit sh T s) =
     [(u, {| init_method := method s; init_headers := h; init_body := None |})]) /\
  (method s <> GET -> jsonBody s <> [] ->
   forall v, JSON_parse (jsonBody s) = Some v ->
   exists u h, snd (handleSubmit sh T s) =
     [(u, {| init_method := method s; init_headers := h;
             init_body := Some (jsonBody s) |})]).
Proof.
  rewrite handleSubmit_unfold. unfold options_of, sends_body. repeat split.
  - intros ->. simpl. eauto.
  - intros _ ->. simpl. rewrite andb_false_r. simpl. eauto.
  - intros Hm Hb v Hv. apply truthy_true in Hb. rewrite Hb, Hv.
    destruct (method s); [congruence | simpl; eauto ..].
Qed.

Lemma body_attachment_witness :
  exists u h, snd (handleSubmit Browser (respond_with 200 None) post_a1) =
    [(u, {| init_method := POST; init_headers := h; init_body := Some body_a1 |})].
Proof.
  apply (proj2 (proj2 (body_attachment Browser (respond_with 200 None) post_a1)))
    with (v := JObj [(js "a", JNum (Fin false 4503599627370496 (-52)))]);
    [discriminate | discriminate | vm_compute; reflexivity].
Defined.


(** C3: a POST or PUT whose non-empty JSON body does not parse is aborted:
    the transport is not called, the error message is the one of an invalid
    request body, and there is neither a response nor a status code. *)
Theorem invalid_body_aborts (sh : Shell) {R : Type} (T : Transport R) (s : AppState) :
  method s <> GET -> jsonBody s <> [] -> JSON_parse (jsonBody s) = None ->
  snd (handleSubmit sh T s) = []
  /\ error (fst (handleSubmit sh T s)) = js "Invalid JSON in request body"
  /\ response (fst (handleSubmit sh T s)) = []
  /\ statusCode (fst (handleSubmit sh T s)) = None
  /\ loading (fst (handleSubmit sh T s)) = false.
Proof.
  intros Hm Hb Hp. rewrite handleSubmit_unfold. unfold options_of, sends_body.
  apply truthy_true in Hb. rewrite Hb, Hp.
  destruct (method s); [congruence | simpl; auto ..].
Qed.

Lemma invalid_body_aborts_witness :
  snd (handleSubmit Browser (respond_with 200 None) post_invalid) = []
  /\ error (fst (handleSubmit Browser (respond_with 200 None) post_invalid))
     = js "Invalid JSON in request body"
  /\ response (fst (handleSubmit Browser (respond_with 200 None) post_invalid)) = []
  /\ statusCode (fst (handleSubmit Browser (respond_with 200 None) post_invalid)) = None
  /\ loading (fst (handleSubmit Browser (respond_with 200 None) post_invalid)) = false.
Proof.
  apply (invalid_body_aborts Browser (respond_with 200 None) post_invalid);
    [discriminate | discriminate | vm_compute; reflexivity].
Defined.


(** A submission that is not aborted has options for its call. *)
Lemma options_of_sent (s : AppState) :
  method s = GET \/ jsonBody s = [] \/ JSON_parse (jsonBody s) <> None ->
  exists o, options_of s = Some o.
Proof.
  unfold options_of, sends_body. intros [H | [H | H]].
  - rewrite H. simpl. eauto.
  - rewrite H. simpl. rewrite andb_false_r. eauto.
  - destruct (_ && _); [ | eauto].
    destruct (JSON_parse (jsonBody s)); [eauto | congruence].
Qed.

(** C4: a submission that is not aborted calls the transport once, and the
    URL of the call is the base URL followed by the path when the query
    string is empty, and the base URL, the path, a question mark and the
    query string when it is not; the three texts are taken as they are,
    whatever they hold. *)
Theorem url_builder (sh : Shell) {R : Type} (T : Transport R) (s : AppState) :
  method s = GET \/ jsonBody s = [] \/ JSON_parse (jsonBody s) <> None ->
  exists o,
    (urlParams s = [] ->
     snd (handleSubmit sh T s) = [(baseUrl s ++ url s, o)])
    /\ (urlParams s <> [] ->
        snd (handleSubmit sh T s)
        = [(baseUrl s ++ url s ++ js "?" ++ urlParams s, o)]).
Proof.
  intros Hgo. destruct (options_of_sent s Hgo) as [o Ho].
  exists o. rewrite handleSubmit_unfold, Ho. cbn [snd]. unfold fullUrl_of. split.
  - intros ->. simpl. now rewrite app_nil_r.
  - intros Hq. apply truthy_true in Hq. now rewrite Hq.
Qed.

Lemma url_builder_witness :
  (exists o, snd (handleSubmit Browser (respond_with 200 None) get_users)
             = [(js "http://localhost:3000/api/users?id=1", o)])
  /\ (exists o, snd (handleSubmit MobileApp (respond_with 200 None)
                       (setUrlParams [] get_users))
                = [(js "http://localhost:3000/api/users", o)]).
Proof.
  split.
  - destruct (url_builder Browser (respond_with 200 None) get_users
                (or_introl eq_refl)) as [o [_ H]].
    exists o. apply H. discriminate.
  - destruct (url_builder MobileApp (respond_with 200 None) (setUrlParams [] get_users)
                (or_introl eq_refl)) as [o [H _]].
    exists o. apply H. reflexivity.
Defined.


(** C5: a submission that is not aborted calls the transport once, and the
    headers of the call hold an Authorization header exactly when
    authentication is on and the token is not empty, its value being the
    token after the word Bearer and a space; the JSON content type is always
    among them.  With authentication on and an empty token the submission
    goes exactly as with authentication off: the same calls, and the same
    error message, response and status code. *)
Theorem authorization_header (sh : Shell) {R : Type} (T : Transport R) (s : AppState) :
  (method s = GET \/ jsonBody s = [] \/ JSON_parse (jsonBody s) <> None ->
   exists u o,
     snd (handleSubmit sh T s) = [(u, o)]
     /\ (forall v, init_headers o !! js "Authorization" = Some v <->
                   useAuth s = true /\ token s <> [] /\ v = js "Bearer " ++ token s)
     /\ init_headers o !! js "Content-Type" = Some (js "application/json"))
  /\ (useAuth s = true -> token s = [] ->
      snd (handleSubmit sh T s) = snd (handleSubmit sh T (setUseAuth false s))
      /\ error (fst (handleSubmit sh T s))
         = error (fst (handleSubmit sh T (setUseAuth false s)))
      /\ response (fst (handleSubmit sh T s))
         = response (fst (handleSubmit sh T (setUseAuth false s)))
      /\ statusCode (fst (handleSubmit sh T s))
         = statusCode (fst (handleSubmit sh T (setUseAuth false s)))).
Proof.
  split.
  - intros Hgo. destruct (options_of_sent s Hgo) as [o Ho].
    exists (fullUrl_of s), o. rewrite handleSubmit_unfold, Ho. cbn [snd].
    split; [reflexivity | ].
    apply options_of_headers in Ho as [-> _]. split.
    + intros v. rewrite headers_of_authorization.
      destruct (useAuth s); simpl.
      * destruct (token s) eqn:Ht; simpl.
        -- split; [discriminate | intros (_ & H & _); congruence].
        -- split; [intros [= <-]; repeat split; congruence
                  | intros (_ & _ & ->); reflexivity].
      * split; [discriminate | intros (H & _); discriminate].
    + apply headers_of_content_type.
  - intros Hu Ht. rewrite !handleSubmit_unfold.
    assert (Ho : options_of (setUseAuth false s) = options_of s).
    { unfold options_of, sends_body, headers_of. simpl. rewrite Hu, Ht. reflexivity. }
    rewrite Ho. change (fullUrl_of (setUseAuth false s)) with (fullUrl_of s).
    destruct (options_of s) as [o | ]; simpl; [ | auto].
    destruct (fetch T (fullUrl_of s) o) as [res | err]; simpl; [ | auto].
    destruct (json T res) as [[data | e] res']; simpl; [auto | ].
    destruct (text T res') as [[t | e'] res'']; simpl; auto.
Qed.

Lemma authorization_header_witness :
  (exists u o,
     snd (handleSubmit Browser (respond_with 200 None) get_with_token) = [(u, o)]
     /\ init_headers o !! js "Authorization" = Some (js "Bearer abc")
     /\ init_headers o !! js "Content-Type" = Some (js "application/json"))
  /\ (exists u o,
        snd (handleSubmit MobileApp (respond_with 200 None) (setUseAuth true initial))
        = [(u, o)]
        /\ init_headers o !! js "Authorization" = None
        /\ init_headers o !! js "Content-Type" = Some (js "application/json")).
Proof.
  split.
  - destruct (proj1 (authorization_header Browser (respond_with 200 None) get_with_token)
                (or_introl eq_refl)) as (u & o & Hc & Hauth & Hct).
    exists u, o. split; [exact Hc | split; [ | exact Hct]].
    apply Hauth. repeat split. discriminate.
  - destruct (proj1 (authorization_header MobileApp (respond_with 200 None)
                       (setUseAuth true initial))
                (or_introl eq_refl)) as (u & o & Hc & Hauth & Hct).
    exists u, o. split; [exact Hc | split; [ | exact Hct]].
    destruct (init_headers o !! js "Authorization") as [v | ] eqn:E; [ | reflexivity].
    destruct (proj1 (Hauth v) eq_refl) as (_ & Hne & _). now contradiction Hne.
Defined.


(** ** The result of a submission *)

(** C7 (as amended): after every submission the response text and the error
    message are not both set; the status code is absent only when the
    transport call failed or the submission was aborted before the call
    because the JSON body is invalid; and when the transport call failed the
    status code is absent and the error message begins with the words
    Request failed and a colon. *)
Theorem response_result_invariant (sh : Shell) {R : Type} (T : Transport R)
  (s : AppState) :
  (response (fst (handleSubmit sh T s)) = []
   \/ error (fst (handleSubmit sh T s)) = []) /\
  (statusCode (fst (handleSubmit sh T s)) = None ->
   transport_failed T (snd (handleSubmit sh T s))
   \/ (snd (handleSubmit sh T s) = []
       /\ error (fst (handleSubmit sh T s)) = js "Invalid JSON in request body")) /\
  (transport_failed T (snd (handleSubmit sh T s)) ->
   statusCode (fst (handleSubmit sh T s)) = None
   /\ exists msg, error (fst (handleSubmit sh T s)) = js "Request failed:" ++ msg).
Proof.
  rewrite handleSubmit_unfold.
  destruct (options_of s) as [o | ]; simpl.
  - destruct (fetch T (fullUrl_of s) o) as [res | err] eqn:Hf; simpl.
    + assert (Hnf : ~ transport_failed T [(fullUrl_of s, o)]).
      { intros (u & o' & err & [Hin | []] & Hrej).
        injection Hin as <- <-. congruence. }
      destruct (json T res) as [[data | e] res']; simpl.
      * split; [auto | split; [discriminate | intros H; destruct (Hnf H)]].
      * destruct (text T res') as [[t | e'] res'']; simpl;
          (split; [auto | split; [discriminate | intros H; destruct (Hnf H)]]).
    + split; [auto | split].
      * intros _. left. exists (fullUrl_of s), o, err. simpl. auto.
      * intros _. split; [reflexivity | ].
        exists (c_space :: describe err). reflexivity.
  - split; [auto | split].
    + intros _. right. auto.
    + intros (u & o' & err & [] & _).
Qed.

Lemma response_result_invariant_witness :
  statusCode (fst (handleSubmit Browser unreachable initial)) = None
  /\ exists msg,
       error (fst (handleSubmit Browser unreachable initial))
       = js "Request failed:" ++ msg.
Proof.
  apply (proj2 (proj2 (response_result_invariant Browser unreachable initial))).
  exists (fullUrl_of initial),
    {| init_method := GET; init_headers := headers_of initial; init_body := None |},
    (ErrorObject (js "Failed to fetch")).
  split; [left; reflexivity | reflexivity].
Defined.

(** C7 as stated fails: a POST with an invalid JSON body ends without a
    status code although no transport call failed (none was made). *)
Lemma aborted_submission_has_no_failed_call :
  statusCode (fst (handleSubmit Browser (respond_with 200 None) post_invalid)) = None
  /\ snd (handleSubmit Browser (respond_with 200 None) post_invalid) = []
  /\ ~ transport_failed (respond_with 200 None)
         (snd (handleSubmit Browser (respond_with 200 None) post_invalid)).
Proof.
  split; [vm_compute; reflexivity | split; [vm_compute; reflexivity | ]].
  intros (u & o & err & Hin & _). vm_compute in Hin. exact Hin.
Qed.


(** ** The two shells *)

(** C8: for every state and every transport, the submission of the browser
    shell and that of the mobile shell call the transport with the same URL,
    headers and body and leave the same state behind. *)
Theorem shells_agree {R : Type} (T : Transport R) (s : AppState) :
  Web.handleSubmit T s = Mobile.handleSubmit T s.
Proof. reflexivity. Qed.

(** ** Reading the response *)

Lemma status_is_recorded (sh : Shell) {R : Type} (T : Transport R) (s : AppState)
  (o : RequestInit) (res : R) :
  options_of s = Some o -> fetch T (fullUrl_of s) o = Resolved res ->
  statusCode (fst (handleSubmit sh T s)) = Some (status T res).
Proof.
  intros Ho Hf. rewrite handleSubmit_unfold, Ho, Hf. simpl.
  destruct (json T res) as [[data | e] res']; simpl; [reflexivity | ].
  destruct (text T res') as [[t | e'] res'']; reflexivity.
Qed.

Lemma json_body_is_formatted (sh : Shell) {R : Type} (T : Transport R) (s : AppState)
  (o : RequestInit) (res res' : R) (data : value) :
  options_of s = Some o -> fetch T (fullUrl_of s) o = Resolved res ->
  json T res = (Resolved data, res') ->
  response (fst (handleSubmit sh T s)) = JSON_stringify 2 data
  /\ error (fst (handleSubmit sh T s)) = [].
Proof.
  intros Ho Hf Hj. rewrite handleSubmit_unfold, Ho, Hf. simpl. rewrite Hj. auto.
Qed.

(** With a transport whose [text()] still answers after [json()] has
    failed, the response text is the raw text or the placeholder. *)
Lemma text_fallback_when_readable (sh : Shell) {R : Type} (T : Transport R)
  (s : AppState) (o : RequestInit) (res res' res'' : R) (e : thrown) (t : jsstring) :
  options_of s = Some o -> fetch T (fullUrl_of s) o = Resolved res ->
  json T res = (Rejected e, res') -> text T res' = (Resolved t, res'') ->
  response (fst (handleSubmit sh T s))
  = (if truthy t then t else js "No response body").
Proof.
  intros Ho Hf Hj Ht. rewrite handleSubmit_unfold, Ho, Hf. simpl.
  rewrite Hj, Ht. reflexivity.
Qed.

(** With a response of the Fetch standard, [json()] has consumed the body
    when it fails, so [text()] rejects and the submission ends in the outer
    handler: a body that is not JSON is never shown. *)
Lemma consumed_body_is_lost (sh : Shell) (already_read syntax_error : jsstring)
  (network : jsstring -> RequestInit -> Result (Z * option jsstring))
  (s : AppState) (o : RequestInit) (code : Z) (body : jsstring) :
  options_of s = Some o ->
  network (fullUrl_of s) o = Resolved (code, Some body) ->
  JSON_parse body = None ->
  let r := fst (handleSubmit sh (standard already_read syntax_error network) s) in
  statusCode r = Some code /\ response r = []
  /\ error r = js "Request failed: " ++ already_read.
Proof.
  intros Ho Hn Hp. rewrite handleSubmit_unfold, Ho. simpl.
  unfold standard_fetch. rewrite Hn. simpl.
  unfold Response_json, consume. simpl. rewrite Hp. simpl. auto.
Qed.

(** C6, at the failing input: the server answers 200 with the plain text
    hello (the transport is the one of the Fetch standard, with the error
    messages of the polyfill of React Native).  The status code is
    recorded, but the response text stays empty and the error message
    reports the failed second read of the body; the raw text is not
    shown. *)
Theorem non_json_body_is_lost :
  let network := fun (_ : jsstring) (_ : RequestInit) =>
                   Resolved (200, Some (js "hello")) in
  let T := standard (js "Already read") (js "Unexpected token") network in
  forall sh : Shell,
    statusCode (fst (handleSubmit sh T initial)) = Some 200
    /\ response (fst (handleSubmit sh T initial)) = []
    /\ response (fst (handleSubmit sh T initial)) <> js "hello"
    /\ error (fst (handleSubmit sh T initial)) = js "Request failed: Already read".
Proof.
  intros network T sh.
  destruct (consumed_body_is_lost sh (js "Already read") (js "Unexpected token")
              network initial
              {| init_method := GET; init_headers := headers_of initial;
                 init_body := None |} 200 (js "hello") eq_refl eq_refl)
    as (H1 & H2 & H3).
  - vm_compute. reflexivity.
  - fold T in H1, H2, H3. rewrite H1, H2, H3.
    repeat split; discriminate.
Qed.

(** ** The environment store *)

Lemma two_env_map_well_formed (m : value) : two_env_map m -> well_formed m.
Proof.
  intros (d & p & [-> | ->]); apply well_formed_obj;
    (split; [ | repeat constructor]); unfold keys_ordered; simpl;
    (constructor; [constructor; constructor | constructor; [ | constructor]]);
    (split; [intros H; vm_compute in H; discriminate H
            | intros j Hj; vm_compute in Hj; discriminate Hj]).
Qed.

Lemma two_env_map_plain (m : value) : two_env_map m -> reread m = m.
Proof. intros (d & p & [-> | ->]); reflexivity. Qed.

Lemma two_env_map_member (m : value) (e : Environment) :
  two_env_map m -> exists u, member m (env_key e) = Some (JStr u).
Proof. intros (d & p & [-> | ->]); destruct e; vm_compute; eauto. Qed.

Lemma stringify_object_truthy (space : nat) (props : list (jsstring * value)) :
  truthy (JSON_stringify space (JObj props)) = true.
Proof.
  unfold JSON_stringify. cbn [serialize]. unfold wrap.
  destruct (List.map _ props); [reflexivity | ].
  destruct (repeat c_space (Nat.min 10 space)); reflexivity.
Qed.

Lemma get_prop_replace_key (k : jsstring) (v : value) (props : list (jsstring * value)) :
  has_key k props = true -> get_prop k (replace_key k v props) = Some v.
Proof.
  induction props as [ | [k' v'] props IH]; simpl; [discriminate | ].
  destruct (key_eqb k k') eqn:E; simpl.
  - now rewrite E.
  - rewrite E. exact IH.
Qed.

Lemma get_prop_insert_index (i : Z) (k : jsstring) (v : value)
  (props : list (jsstring * value)) :
  has_key k props = false -> get_prop k (insert_index i k v props) = Some v.
Proof.
  assert (Hrefl : key_eqb k k = true) by (apply key_eqb_eq; reflexivity).
  induction props as [ | [k' v'] props IH]; simpl; intros Hk.
  - now rewrite Hrefl.
  - apply orb_false_iff in Hk as [Hk1 Hk2].
    destruct (array_index k') as [j | ].
    + destruct (j <=? i); simpl; [rewrite Hk1; auto | now rewrite Hrefl].
    + simpl. now rewrite Hrefl.
Qed.

Lemma get_prop_app_new (k : jsstring) (v : value) (props : list (jsstring * value)) :
  has_key k props = false -> get_prop k (props ++ [(k, v)]) = Some v.
Proof.
  assert (Hrefl : key_eqb k k = true) by (apply key_eqb_eq; reflexivity).
  induction props as [ | [k' v'] props IH]; simpl; intros Hk.
  - now rewrite Hrefl.
  - apply orb_false_iff in Hk as [Hk1 Hk2]. rewrite Hk1. auto.
Qed.

(** Reading a key that has just been defined. *)
Lemma get_prop_obj_define (k : jsstring) (v : value) (props : list (jsstring * value)) :
  get_prop k (obj_define k v props) = Some v.
Proof.
  unfold obj_define. destruct (has_key k props) eqn:Hk.
  - now apply get_prop_replace_key.
  - destruct (array_index k); [now apply get_prop_insert_index
                              | now apply get_prop_app_new].
Qed.

Lemma saveBaseUrl_unfold (sh : Shell) (st : gmap jsstring jsstring) (s : AppState) :
  saveBaseUrl sh st s
  = (setSavedUrls (spread_with (savedUrls s) (env_key (environment s)) (JStr (baseUrl s))) s,
     setItem st storage_key
       (JSON_stringify 0
          (spread_with (savedUrls s) (env_key (environment s)) (JStr (baseUrl s))))).
Proof. destruct sh; reflexivity. Qed.

Lemma two_env_map_saved (m : value) (e : Environment) (u : jsstring) :
  two_env_map m ->
  two_env_map (spread_with m (env_key e) (JStr u))
  /\ forall e', e' <> e ->
       member (spread_with m (env_key e) (JStr u)) (env_key e') = member m (env_key e').
Proof.
  intros (d & p & [-> | ->]); destruct e; (split;
    [ first [ exists u, p; left; reflexivity | exists u, p; right; reflexivity
            | exists d, u; left; reflexivity | exists d, u; right; reflexivity ]
    | intros [ | ] He; try congruence; reflexivity ]).
Qed.

Lemma loadSavedUrls_of_text (sh : Shell) (st : gmap jsstring jsstring) (s : AppState)
  (m : value) (u : jsstring) :
  getItem st storage_key = Some (JSON_stringify 0 m) ->
  two_env_map m -> member m (env_key (environment s)) = Some (JStr u) ->
  loadSavedUrls sh st s = LoadedState (setBaseUrl u (setSavedUrls m s)).
Proof.
  intros Hst Hm Hu.
  pose proof (JSON_parse_stringify 0 m (two_env_map_well_formed m Hm)) as Hp.
  rewrite (two_env_map_plain m Hm) in Hp.
  assert (Ht : truthy (JSON_stringify 0 m) = true).
  { destruct Hm as (d & p & [-> | ->]); apply stringify_object_truthy. }
  assert (Hn : m <> JNull) by (destruct Hm as (d & p & [-> | ->]); discriminate).
  destruct sh; unfold loadSavedUrls, Web.loadSavedUrls, Mobile.loadSavedUrls;
    rewrite Hst, Ht, Hp; destruct m; try congruence; cbv beta iota;
    rewrite Hu; reflexivity.
Qed.

(** Saving a URL that is already the saved one leaves the map as it is. *)
Lemma spread_with_same (m : value) (e : Environment) (u : jsstring) :
  two_env_map m -> member m (env_key e) = Some (JStr u) ->
  spread_with m (env_key e) (JStr u) = m.
Proof.
  intros (d & p & [-> | ->]) H; destruct e; vm_compute in H;
    injection H as <-; reflexivity.
Qed.

(** C9: when the saved URLs map the two environment names to strings,
    loading from the storage that a save leaves succeeds, in any state, and
    the loaded map is equal to the map that was saved: it maps the two
    environment names to strings, the current environment to the base URL
    and the other one to the URL it had; it is the map the save started
    from when the base URL is the one that map holds. *)
Theorem environment_store_roundtrip (sh : Shell) (st : gmap jsstring jsstring)
  (s s0 : AppState) :
  two_env_map (savedUrls s) ->
  exists s2,
    loadSavedUrls sh (snd (saveBaseUrl sh st s)) s0 = LoadedState s2
    /\ savedUrls s2 = savedUrls (fst (saveBaseUrl sh st s))
    /\ two_env_map (savedUrls s2)
    /\ member (savedUrls s2) (env_key (environment s)) = Some (JStr (baseUrl s))
    /\ (forall e, e <> environment s ->
        member (savedUrls s2) (env_key e) = member (savedUrls s) (env_key e))
    /\ (member (savedUrls s) (env_key (environment s)) = Some (JStr (baseUrl s)) ->
        savedUrls s2 = savedUrls s).
Proof.
  intros Hm. rewrite saveBaseUrl_unfold. cbn [fst snd savedUrls setSavedUrls].
  set (m := spread_with (savedUrls s) (env_key (environment s)) (JStr (baseUrl s))).
  destruct (two_env_map_saved (savedUrls s) (environment s) (baseUrl s) Hm)
    as [Hm' Hother]. fold m in Hm', Hother.
  destruct (two_env_map_member m (environment s0) Hm') as [u Hu].
  exists (setBaseUrl u (setSavedUrls m s0)). split.
  - apply loadSavedUrls_of_text; [ | exact Hm' | exact Hu].
    unfold getItem, setItem. apply lookup_insert_eq.
  - cbn [savedUrls setBaseUrl setSavedUrls].
    split; [reflexivity | split; [exact Hm' | split; [ | split]]].
    + unfold m, spread_with, member. apply get_prop_obj_define.
    + exact Hother.
    + intros Hsame. now apply spread_with_same.
Qed.

Lemma environment_store_roundtrip_witness :
  (exists s2,
     loadSavedUrls Browser
       (snd (saveBaseUrl Browser ∅ (setBaseUrl (js "http://localhost:3000") initial)))
       initial = LoadedState s2
     /\ savedUrls s2
        = savedUrls (fst (saveBaseUrl Browser ∅
                            (setBaseUrl (js "http://localhost:3000") initial)))
     /\ member (savedUrls s2) (js "development")
        = Some (JStr (js "http://localhost:3000"))
     /\ member (savedUrls s2) (js "production") = Some (JStr []))
  /\ (exists s2,
        loadSavedUrls MobileApp
          (snd (saveBaseUrl MobileApp ∅
                  (setBaseUrl (js "https://api.example.com")
                     (setEnvironment production initial))))
          initial = LoadedState s2
        /\ savedUrls s2
           = savedUrls (fst (saveBaseUrl MobileApp ∅
                               (setBaseUrl (js "https://api.example.com")
                                  (setEnvironment production initial))))
        /\ member (savedUrls s2) (js "production")
           = Some (JStr (js "https://api.example.com"))
        /\ member (savedUrls s2) (js "development") = Some (JStr [])).
Proof.
  split.
  - destruct (environment_store_roundtrip Browser ∅
                (setBaseUrl (js "http://localhost:3000") initial) initial)
      as (s2 & Hl & Heq & _ & Hcur & Hoth & _).
    + exists [], []. left. reflexivity.
    + exists s2. split; [exact Hl | split; [exact Heq | split; [exact Hcur | ]]].
      apply (Hoth production). discriminate.
  - destruct (environment_store_roundtrip MobileApp ∅
                (setBaseUrl (js "https://api.example.com")
                   (setEnvironment production initial)) initial)
      as (s2 & Hl & Heq & _ & Hcur & Hoth & _).
    + exists [], []. left. reflexivity.
    + exists s2. split; [exact Hl | split; [exact Heq | split; [exact Hcur | ]]].
      apply (Hoth development). discriminate.
Defined.

(** ** Formatting the JSON body *)

(** C10 (as amended): when the JSON body does not parse, formatting leaves
    it and every other slot but the error message unchanged and sets the
    error message; when it parses, formatting replaces it with the text of
    the parsed value at two spaces of indentation.  That text always parses,
    and it parses to the same value exactly when the value holds no
    infinity (a literal beyond the range of a double, printed as null) and
    no negative zero (printed as 0). *)
Theorem format_json_body (sh : Shell) (s : AppState) :
  (JSON_parse (jsonBody s) = None ->
   formatJsonBody sh s = setError (js "Invalid JSON in request body") s) /\
  (forall v, JSON_parse (jsonBody s) = Some v ->
   formatJsonBody sh s = setJsonBody (JSON_stringify 2 v) s
   /\ JSON_parse (JSON_stringify 2 v) = Some (reread v)
   /\ (JSON_parse (JSON_stringify 2 v) = Some v <-> plain v)).
Proof.
  split.
  - intros H. destruct sh; simpl; unfold Web.formatJsonBody, Mobile.formatJsonBody;
      now rewrite H.
  - intros v H.
    assert (Hr : JSON_parse (JSON_stringify 2 v) = Some (reread v)).
    { apply JSON_parse_stringify. eapply JSON_parse_wf. exact H. }
    split; [ | split; [exact Hr | ]].
    + destruct sh; simpl; unfold Web.formatJsonBody, Mobile.formatJsonBody;
        now rewrite H.
    + rewrite Hr, <- reread_plain. split; [intros [= E]; exact E | intros ->; reflexivity].
Qed.

Lemma format_json_body_witness :
  formatJsonBody Browser post_a1
  = setJsonBody (JSON_stringify 2 (JObj [(js "a", JNum (Fin false 4503599627370496 (-52)))]))
      post_a1
  /\ JSON_parse (JSON_stringify 2 (JObj [(js "a", JNum (Fin false 4503599627370496 (-52)))]))
     = Some (JObj [(js "a", JNum (Fin false 4503599627370496 (-52)))]).
Proof.
  destruct (proj2 (format_json_body Browser post_a1)
              (JObj [(js "a", JNum (Fin false 4503599627370496 (-52)))]))
    as (H1 & _ & H3); [vm_compute; reflexivity | ].
  split; [exact H1 | apply H3].
  simpl. auto.
Defined.

(** C10 as stated fails: the body 1e400 parses (to Infinity), formatting
    replaces it with null, and null does not parse to the value the
    original parses to. *)
Lemma formatting_an_overflowing_number :
  let s := setJsonBody (js "1e400") initial in
  JSON_parse (jsonBody s) = Some (JNum (Inf false))
  /\ jsonBody (formatJsonBody Browser s) = js "null"
  /\ JSON_parse (jsonBody (formatJsonBody Browser s)) = Some JNull
  /\ JSON_parse (jsonBody (formatJsonBody Browser s)) <> JSON_parse (jsonBody s).
Proof.
  vm_compute. repeat split; discriminate.
Qed.
(** * More of the pipeline *)

(** ** What a submission leaves alone *)

Lemma received_frame {R : Type} (T : Transport R) (s : AppState) (r : Result R) :
  let s' := received T s r in
  same_form s s' /\ environment s' = environment s /\ savedUrls s' = savedUrls s
  /\ copied s' = copied s /\ loading s' = false.
Proof.
  unfold received, same_form. destruct r as [res | err]; simpl.
  - destruct (json T res) as [[data | e] res']; simpl; [tauto | ].
    destruct (text T res') as [[t | e'] res'']; simpl; tauto.
  - tauto.
Qed.

Lemma same_form_options (s s' : AppState) :
  same_form s s' -> options_of s = options_of s' /\ fullUrl_of s = fullUrl_of s'.
Proof.
  intros (Hm & Hu & Hb & Ha & Ht & Hj & Hp).
  unfold options_of, sends_body, headers_of, fullUrl_of.
  rewrite Hm, Hu, Hb, Ha, Ht, Hj, Hp. split; reflexivity.
Qed.

Lemma received_same_result {R : Type} (T : Transport R) (s s' : AppState)
  (r : Result R) :
  same_result (received T s r) (received T s' r).
Proof.
  unfold received, same_result. destruct r as [res | err]; simpl.
  - destruct (json T res) as [[data | e] res']; simpl; [tauto | ].
    destruct (text T res') as [[t | e'] res'']; simpl; tauto.
  - tauto.
Qed.

(** X1: a submission changes nothing but its result: the request form, the
    environment, the saved URLs and the copy mark stay as they are; it ends
    with the loading mark off, and it calls the transport at most once. *)
Theorem submission_frame (sh : Shell) {R : Type} (T : Transport R) (s : AppState) :
  same_form s (fst (handleSubmit sh T s))
  /\ environment (fst (handleSubmit sh T s)) = environment s
  /\ savedUrls (fst (handleSubmit sh T s)) = savedUrls s
  /\ copied (fst (handleSubmit sh T s)) = copied s
  /\ loading (fst (handleSubmit sh T s)) = false
  /\ (length (snd (handleSubmit sh T s)) <= 1)%nat.
Proof.
  rewrite handleSubmit_unfold. destruct (options_of s) as [o | ]; simpl.
  - pose proof (received_frame T s (fetch T (fullUrl_of s) o)) as H. simpl in H.
    intuition.
  - unfold same_form. simpl. intuition.
Qed.

(** X2: the result of a submission depends on the request form only: what an
    earlier submission left in the response, the error message, the status
    code or the loading mark has no influence on the calls of the transport
    nor on the new result. *)
Theorem submission_forgets_earlier_result (sh : Shell) {R : Type} (T : Transport R)
  (s s' : AppState) :
  same_form s s' ->
  snd (handleSubmit sh T s) = snd (handleSubmit sh T s')
  /\ same_result (fst (handleSubmit sh T s)) (fst (handleSubmit sh T s')).
Proof.
  intros H. apply same_form_options in H as [Ho Hu].
  rewrite !handleSubmit_unfold, <- Ho, <- Hu.
  destruct (options_of s) as [o | ]; simpl.
  - split; [reflexivity | apply received_same_result].
  - unfold same_result. simpl. tauto.
Qed.

Lemma submission_forgets_earlier_result_witness :
  snd (handleSubmit Browser (respond_with 200 None) post_a1)
  = snd (handleSubmit Browser (respond_with 200 None)
           (setError (js "Request failed: Failed to fetch") post_a1))
  /\ same_result
       (fst (handleSubmit Browser (respond_with 200 None) post_a1))
       (fst (handleSubmit Browser (respond_with 200 None)
               (setError (js "Request failed: Failed to fetch") post_a1))).
Proof.
  apply (submission_forgets_earlier_result Browser (respond_with 200 None) post_a1
           (setError (js "Request failed: Failed to fetch") post_a1)).
  unfold same_form. simpl. tauto.
Defined.

(** X3: a submission makes no call of the transport exactly when the method is
    not GET and the JSON body is not empty and does not parse; in every
    other case it makes exactly one call, with the full URL. *)
Theorem submission_aborts_iff (sh : Shell) {R : Type} (T : Transport R) (s : AppState) :
  (snd (handleSubmit sh T s) = [] <->
   method s <> GET /\ jsonBody s <> [] /\ JSON_parse (jsonBody s) = None)
  /\ (snd (handleSubmit sh T s) = []
      \/ exists o, snd (handleSubmit sh T s) = [(fullUrl_of s, o)]).
Proof.
  rewrite handleSubmit_unfold. unfold options_of, sends_body.
  assert (Hcall : forall o : RequestInit,
            ([(fullUrl_of s, o)] = [] <->
             method s <> GET /\ jsonBody s <> [] /\ JSON_parse (jsonBody s) = None)
            -> ([(fullUrl_of s, o)] = [] <->
                method s <> GET /\ jsonBody s <> [] /\ JSON_parse (jsonBody s) = None)
               /\ ([(fullUrl_of s, o)] = []
                   \/ exists o', [(fullUrl_of s, o)] = [(fullUrl_of s, o')])).
  { intros o H. split; [exact H | eauto]. }
  destruct (match method s with GET => false | _ => true end) eqn:Hm.
  - destruct (jsonBody s) as [ | c b] eqn:Hb; simpl.
    + apply Hcall. split; [discriminate | intros (_ & H & _); congruence].
    + destruct (JSON_parse (c :: b)) eqn:Hp; simpl.
      * apply Hcall. split; [discriminate | intros (_ & _ & H); discriminate].
      * split; [ | left; reflexivity]. split; [ | reflexivity].
        intros _. repeat split; [ | discriminate].
        intros H. rewrite H in Hm. discriminate.
  - simpl. apply Hcall. split; [discriminate | ].
    intros (H & _). destruct (method s); congruence.
Qed.

(** ** Formatting twice *)

Lemma serialize_reread (gap : jsstring) (v : value) (indent : jsstring) :
  serialize gap indent (reread v) = serialize gap indent v.
Proof.
  revert indent.
  induction v as [ | b | x | s | xs IH | props IH] using value_induction;
    intros indent; try reflexivity.
  - destruct x as [ | neg | neg | neg m e]; reflexivity.
  - cbn [reread serialize]. f_equal. rewrite map_map.
    apply map_ext_in. intros x Hx. rewrite List.Forall_forall in IH.
    now apply IH.
  - cbn [reread serialize]. f_equal. rewrite map_map.
    apply map_ext_in. intros [k x] Hx. cbn [fst snd].
    rewrite List.Forall_forall in IH.
    rewrite (IH (k, x) Hx). reflexivity.
Qed.

(** X4: formatting the JSON body a second time changes nothing: a body that
    does not parse is left with the same error message, and the text of a
    parsed body formats to itself. *)
Theorem format_json_body_idempotent (sh : Shell) (s : AppState) :
  formatJsonBody sh (formatJsonBody sh s) = formatJsonBody sh s.
Proof.
  assert (H : forall s, formatJsonBody sh s = Web.formatJsonBody s)
    by (intros s0; destruct sh; reflexivity).
  rewrite !H. unfold Web.formatJsonBody at 2 3.
  destruct (JSON_parse (jsonBody s)) as [v | ] eqn:Hp.
  - unfold Web.formatJsonBody. cbn [jsonBody setJsonBody].
    rewrite (JSON_parse_stringify 2 v (JSON_parse_wf _ _ Hp)).
    unfold JSON_stringify. rewrite serialize_reread. reflexivity.
  - unfold Web.formatJsonBody. cbn [jsonBody setError]. rewrite Hp. reflexivity.
Qed.

(** X5: after formatting a JSON body that parses, a POST or PUT is sent with
    the formatted text as its body: the text that formatting writes always
    passes the check of the submission. *)
Theorem formatted_body_is_sent (sh : Shell) {R : Type} (T : Transport R)
  (s : AppState) (v : value) :
  method s <> GET -> JSON_parse (jsonBody s) = Some v ->
  snd (handleSubmit sh T (formatJsonBody sh s))
  = [(fullUrl_of s,
      {| init_method := method s; init_headers := headers_of s;
         init_body := Some (JSON_stringify 2 v) |})].
Proof.
  intros Hm Hp.
  assert (H : formatJsonBody sh s = setJsonBody (JSON_stringify 2 v) s).
  { destruct sh; simpl; unfold Web.formatJsonBody, Mobile.formatJsonBody;
      now rewrite Hp. }
  rewrite H, handleSubmit_unfold. unfold options_of, sends_body.
  cbn [jsonBody method setJsonBody].
  rewrite (JSON_parse_stringify 2 v (JSON_parse_wf _ _ Hp)).
  assert (Ht : truthy (JSON_stringify 2 v) = true).
  { destruct (JSON_stringify 2 v) eqn:E; [ | reflexivity].
    pose proof (JSON_parse_stringify 2 v (JSON_parse_wf _ _ Hp)) as Hr.
    rewrite E in Hr. discriminate Hr. }
  rewrite Ht. destruct (method s); [congruence | reflexivity ..].
Qed.

Lemma formatted_body_is_sent_witness :
  snd (handleSubmit Browser (respond_with 200 None) (formatJsonBody Browser post_a1))
  = [(fullUrl_of post_a1,
      {| init_method := method post_a1; init_headers := headers_of post_a1;
         init_body :=
           Some (JSON_stringify 2
                   (JObj [(js "a", JNum (Fin false 4503599627370496 (-52)))])) |})].
Proof.
  apply (formatted_body_is_sent Browser (respond_with 200 None) post_a1);
    [discriminate | vm_compute; reflexivity].
Defined.

(** X6: an empty JSON body is reported as invalid by the formatting, although a
    submission accepts it: the submission calls the transport, without a
    body. *)
Theorem empty_body_formats_as_invalid (sh : Shell) {R : Type} (T : Transport R)
  (s : AppState) :
  jsonBody s = [] ->
  formatJsonBody sh s = setError (js "Invalid JSON in request body") s
  /\ snd (handleSubmit sh T s)
     = [(fullUrl_of s,
         {| init_method := method s; init_headers := headers_of s;
            init_body := None |})].
Proof.
  intros Hb. split.
  - destruct sh; simpl; unfold Web.formatJsonBody, Mobile.formatJsonBody;
      rewrite Hb; reflexivity.
  - rewrite handleSubmit_unfold. unfold options_of, sends_body. rewrite Hb.
    simpl. rewrite andb_false_r. reflexivity.
Qed.

Lemma empty_body_formats_as_invalid_witness :
  formatJsonBody MobileApp (setMethod POST initial)
  = setError (js "Invalid JSON in request body") (setMethod POST initial)
  /\ snd (handleSubmit MobileApp unreachable (setMethod POST initial))
     = [(fullUrl_of (setMethod POST initial),
         {| init_method := POST; init_headers := headers_of (setMethod POST initial);
            init_body := None |})].
Proof.
  apply (empty_body_formats_as_invalid MobileApp unreachable (setMethod POST initial)).
  reflexivity.
Defined.

(** ** The reason phrase of a status code *)

(** X7: both shells show the same text for a status code; the text is empty
    for an absent code and for every code outside the ten known ones, and
    it is not empty for these. *)
Theorem status_text_known_codes (sh : Shell) (code : option Z) :
  getStatusText sh code = Web.getStatusText code
  /\ getStatusText sh code = Mobile.getStatusText code
  /\ (getStatusText sh code <> [] <-> exists c, code = Some c /\ In c known_codes).
Proof.
  split; [destruct sh; reflexivity | split; [destruct sh; reflexivity | ]].
  assert (H : getStatusText sh code = Web.getStatusText code)
    by (destruct sh; reflexivity).
  rewrite H. clear H. destruct code as [c | ]; simpl.
  - unfold known_codes.
    destruct (Z.eqb_spec c 0) as [-> | H0].
    { split; [congruence | ]. intros (c' & [= <-] & Hin). simpl in Hin.
      repeat (destruct Hin as [Hin | Hin]; [discriminate Hin | ]). destruct Hin. }
    repeat match goal with
           | |- context [c =? ?n] =>
               destruct (Z.eqb_spec c n) as [-> | ?];
               [ split; [intros _; exists n; split; [reflexivity | simpl; tauto]
                        | intros _; discriminate] | ]
           end.
    simpl. split; [congruence | ].
    intros (c' & [= <-] & Hin). simpl in Hin. intuition congruence.
  - split; [congruence | intros (c & Hc & _); discriminate].
Qed.

(** ** Saving the base URL *)

Lemma setBaseUrl_same (s : AppState) : setBaseUrl (baseUrl s) s = s.
Proof. destruct s; reflexivity. Qed.

Lemma updateBaseUrl_unfold (sh : Shell) (s : AppState) :
  updateBaseUrl sh s = Web.updateBaseUrl s.
Proof. destruct sh; reflexivity. Qed.

(** X8: whatever the saved URLs held before, saving puts the base URL under the
    current environment, changes no other slot of the state, writes the text
    of the new map under the one storage key and leaves every other key of
    the storage alone. *)
Theorem save_stores_the_base_url (sh : Shell) (st : gmap jsstring jsstring)
  (s : AppState) :
  member (savedUrls (fst (saveBaseUrl sh st s))) (env_key (environment s))
  = Some (JStr (baseUrl s))
  /\ fst (saveBaseUrl sh st s)
     = setSavedUrls (savedUrls (fst (saveBaseUrl sh st s))) s
  /\ getItem (snd (saveBaseUrl sh st s)) storage_key
     = Some (JSON_stringify 0 (savedUrls (fst (saveBaseUrl sh st s))))
  /\ forall k, k <> storage_key ->
       getItem (snd (saveBaseUrl sh st s)) k = getItem st k.
Proof.
  rewrite saveBaseUrl_unfold. cbn [fst snd savedUrls setSavedUrls].
  split; [ | split; [reflexivity | split]].
  - unfold spread_with, member. apply get_prop_obj_define.
  - unfold getItem, setItem. apply lookup_insert_eq.
  - intros k Hk. unfold getItem, setItem. apply lookup_insert_ne. congruence.
Qed.

Lemma updateBaseUrl_saved (sh : Shell) (s : AppState) :
  updateBaseUrl sh
    (setSavedUrls (spread_with (savedUrls s) (env_key (environment s)) (JStr (baseUrl s))) s)
  = LoadedState
      (setSavedUrls (spread_with (savedUrls s) (env_key (environment s)) (JStr (baseUrl s)))
         s).
Proof.
  rewrite updateBaseUrl_unfold.
  unfold Web.updateBaseUrl. cbn [savedUrls setSavedUrls environment].
  unfold spread_with at 1. cbv iota.
  unfold spread_with at 1. unfold member. rewrite get_prop_obj_define.
  f_equal. unfold or_else. cbn [baseUrl setSavedUrls].
  destruct (truthy (baseUrl s)) eqn:Ht.
  - destruct s; reflexivity.
  - apply truthy_false in Ht. destruct s; simpl in *. now subst.
Qed.

(** X9: the effect that follows the saved URLs finds the state as the saving
    left it: saving does not disturb the base URL field. *)
Theorem save_keeps_the_base_url (sh : Shell) (st : gmap jsstring jsstring)
  (s : AppState) :
  updateBaseUrl sh (fst (saveBaseUrl sh st s)) = LoadedState (fst (saveBaseUrl sh st s)).
Proof. rewrite saveBaseUrl_unfold. cbn [fst]. apply updateBaseUrl_saved. Qed.

Lemma or_else_nil (u : jsstring) : or_else u [] = u.
Proof. destruct u; reflexivity. Qed.

(** X10: when the saved URLs map the two environment names to strings, they
    still do after saving, and the URL of the other environment is the one
    it was. *)
Theorem save_keeps_the_other_environment (sh : Shell) (st : gmap jsstring jsstring)
  (s : AppState) :
  two_env_map (savedUrls s) ->
  two_env_map (savedUrls (fst (saveBaseUrl sh st s)))
  /\ forall e, e <> environment s ->
       member (savedUrls (fst (saveBaseUrl sh st s))) (env_key e)
       = member (savedUrls s) (env_key e).
Proof.
  intros H. rewrite saveBaseUrl_unfold. cbn [fst savedUrls setSavedUrls].
  now apply two_env_map_saved.
Qed.

Lemma save_keeps_the_other_environment_witness :
  two_env_map
    (savedUrls (fst (saveBaseUrl Browser ∅ (setBaseUrl (js "http://localhost:3000") initial))))
  /\ forall e, e <> development ->
       member (savedUrls (fst (saveBaseUrl Browser ∅
                                 (setBaseUrl (js "http://localhost:3000") initial))))
         (env_key e)
       = member (savedUrls initial) (env_key e).
Proof.
  apply (save_keeps_the_other_environment Browser ∅
           (setBaseUrl (js "http://localhost:3000") initial)).
  exists [], []. left. reflexivity.
Defined.

(** X11: a base URL that was saved comes back: loading from the storage that
    the saving left, in a state with the same environment, sets the base URL
    field to the base URL that was saved. *)
Theorem saved_base_url_is_restored (sh : Shell) (st : gmap jsstring jsstring)
  (s s0 : AppState) :
  two_env_map (savedUrls s) -> environment s0 = environment s ->
  exists s2,
    loadSavedUrls sh (snd (saveBaseUrl sh st s)) s0 = LoadedState s2
    /\ baseUrl s2 = baseUrl s.
Proof.
  intros Hm He. rewrite saveBaseUrl_unfold. cbn [snd].
  set (m := spread_with (savedUrls s) (env_key (environment s)) (JStr (baseUrl s))).
  exists (setBaseUrl (baseUrl s) (setSavedUrls m s0)). split; [ | reflexivity].
  apply loadSavedUrls_of_text.
  - unfold getItem, setItem. apply lookup_insert_eq.
  - apply two_env_map_saved. exact Hm.
  - rewrite He. unfold m, spread_with, member. apply get_prop_obj_define.
Qed.

Lemma saved_base_url_is_restored_witness :
  exists s2,
    loadSavedUrls MobileApp
      (snd (saveBaseUrl MobileApp ∅ (setBaseUrl (js "http://localhost:3000") initial)))
      initial = LoadedState s2
    /\ baseUrl s2 = js "http://localhost:3000".
Proof.
  apply (saved_base_url_is_restored MobileApp ∅
           (setBaseUrl (js "http://localhost:3000") initial) initial).
  - exists [], []. left. reflexivity.
  - reflexivity.
Defined.

(** ** Loading when nothing usable is stored *)

(** X12: with no text under the storage key, or the empty text, the load leaves
    the state as it is in both shells.  With a text that is not JSON, the
    load of the browser shell throws, and the one of the mobile shell
    catches the exception and leaves the state as it is. *)
Theorem load_without_saved_urls (st : gmap jsstring jsstring) (s : AppState) :
  (getItem st storage_key = None \/ getItem st storage_key = Some [] ->
   forall sh, loadSavedUrls sh st s = LoadedState s)
  /\ (forall data, getItem st storage_key = Some data -> data <> [] ->
      JSON_parse data = None ->
      loadSavedUrls Browser st s = LoadThrew
      /\ loadSavedUrls MobileApp st s = LoadedState s).
Proof.
  split.
  - intros [H | H] sh; destruct sh; simpl;
      unfold Web.loadSavedUrls, Mobile.loadSavedUrls; rewrite H; reflexivity.
  - intros data H Hne Hp. apply truthy_true in Hne.
    simpl. unfold Web.loadSavedUrls, Mobile.loadSavedUrls.
    rewrite H, Hne, Hp. split; reflexivity.
Qed.

Lemma load_without_saved_urls_witness :
  (forall sh, loadSavedUrls sh ∅ initial = LoadedState initial)
  /\ loadSavedUrls Browser (setItem ∅ storage_key (js "{invalid")) initial = LoadThrew
  /\ loadSavedUrls MobileApp (setItem ∅ storage_key (js "{invalid")) initial
     = LoadedState initial.
Proof.
  split.
  - apply (proj1 (load_without_saved_urls ∅ initial)). left. reflexivity.
  - apply (proj2 (load_without_saved_urls (setItem ∅ storage_key (js "{invalid")) initial)
             (js "{invalid")); [reflexivity | discriminate | vm_compute; reflexivity].
Defined.

(** X13: a stored text that parses to null: the load of the browser shell
    throws; the one of the mobile shell has put null in the saved URLs when
    it catches the exception, and the effect that follows the saved URLs
    then throws. *)
Theorem load_of_null (st : gmap jsstring jsstring) (s : AppState) (data : jsstring) :
  getItem st storage_key = Some data -> JSON_parse data = Some JNull ->
  loadSavedUrls Browser st s = LoadThrew
  /\ loadSavedUrls MobileApp st s = LoadedState (setSavedUrls JNull s)
  /\ updateBaseUrl MobileApp (setSavedUrls JNull s) = LoadThrew.
Proof.
  intros H Hp.
  assert (Ht : truthy data = true).
  { destruct data; [discriminate Hp | reflexivity]. }
  simpl. unfold Web.loadSavedUrls, Mobile.loadSavedUrls.
  rewrite H, Ht, Hp. repeat split; reflexivity.
Qed.

Lemma load_of_null_witness :
  loadSavedUrls Browser (setItem ∅ storage_key (js "null")) initial = LoadThrew
  /\ loadSavedUrls MobileApp (setItem ∅ storage_key (js "null")) initial
     = LoadedState (setSavedUrls JNull initial)
  /\ updateBaseUrl MobileApp (setSavedUrls JNull initial) = LoadThrew.
Proof.
  apply (load_of_null (setItem ∅ storage_key (js "null")) initial (js "null"));
    [reflexivity | vm_compute; reflexivity].
Defined.

(** ** Switching the environment *)

Lemma same_environment_spec (a b : Environment) :
  same_environment a b = true <-> a = b.
Proof. destruct a, b; simpl; split; congruence. Qed.

Lemma selectEnvironment_saved (e : Environment) (s : AppState) (u : jsstring) :
  e <> environment s ->
  member (savedUrls s) (env_key e) = Some (JStr u) ->
  selectEnvironment e s = LoadedState (setBaseUrl u (setEnvironment e s)).
Proof.
  intros He H. unfold selectEnvironment.
  destruct (same_environment e (environment s)) eqn:E;
    [apply same_environment_spec in E; congruence | ].
  unfold Mobile.updateBaseUrl.
  cbn [savedUrls environment setEnvironment]. rewrite H, or_else_nil.
  destruct (savedUrls s); try reflexivity. discriminate H.
Qed.

(** X14: switching to the other environment replaces the base URL field by the
    URL saved for it, whatever the field held, and by the empty text when
    nothing is saved for it; pressing the environment that is selected
    changes nothing. *)
Theorem environment_switch (e : Environment) (s : AppState) :
  (e = environment s -> selectEnvironment e s = LoadedState s)
  /\ (e <> environment s ->
      forall u, member (savedUrls s) (env_key e) = Some (JStr u) ->
      selectEnvironment e s = LoadedState (setBaseUrl u (setEnvironment e s)))
  /\ (e <> environment s -> savedUrls s <> JNull ->
      member (savedUrls s) (env_key e) = None ->
      selectEnvironment e s = LoadedState (setBaseUrl [] (setEnvironment e s))).
Proof.
  split; [ | split].
  - intros ->. unfold selectEnvironment.
    now rewrite (proj2 (same_environment_spec _ _) eq_refl).
  - intros He u. now apply selectEnvironment_saved.
  - intros He Hn H. unfold selectEnvironment.
    destruct (same_environment e (environment s)) eqn:E;
      [apply same_environment_spec in E; congruence | ].
    unfold Mobile.updateBaseUrl.
    cbn [savedUrls environment setEnvironment]. rewrite H.
    destruct (savedUrls s); congruence.
Qed.

Lemma environment_switch_witness :
  selectEnvironment production
    (setBaseUrl (js "http://localhost:3000") initial)
  = LoadedState (setBaseUrl [] (setEnvironment production
                                   (setBaseUrl (js "http://localhost:3000") initial))).
Proof.
  apply (proj1 (proj2 (environment_switch production
                         (setBaseUrl (js "http://localhost:3000") initial))));
    [discriminate | reflexivity].
Defined.

(** X15: going to the other environment and back: the base URL field then holds
    the URL saved for the first environment.  It is the text of the field
    when that was saved before leaving; a text that was not saved is lost. *)
Theorem environment_round_trip (st : gmap jsstring jsstring) (s : AppState)
  (e : Environment) :
  two_env_map (savedUrls s) -> e <> environment s ->
  (exists s1 s2,
     selectEnvironment e (fst (saveBaseUrl MobileApp st s)) = LoadedState s1
     /\ selectEnvironment (environment s) s1 = LoadedState s2
     /\ baseUrl s2 = baseUrl s)
  /\ (exists s1 s2,
        selectEnvironment e s = LoadedState s1
        /\ selectEnvironment (environment s) s1 = LoadedState s2
        /\ member (savedUrls s) (env_key (environment s)) = Some (JStr (baseUrl s2))).
Proof.
  intros Hm He. split.
  - rewrite saveBaseUrl_unfold. cbn [fst].
    set (m := spread_with (savedUrls s) (env_key (environment s)) (JStr (baseUrl s))).
    assert (Hm' : two_env_map m) by (apply two_env_map_saved; exact Hm).
    destruct (two_env_map_member m e Hm') as [u Hu].
    exists (setBaseUrl u (setEnvironment e (setSavedUrls m s))),
      (setBaseUrl (baseUrl s)
         (setEnvironment (environment s)
            (setBaseUrl u (setEnvironment e (setSavedUrls m s))))).
    split; [now apply selectEnvironment_saved | split; [ | reflexivity]].
    apply selectEnvironment_saved; [cbn; congruence | ].
    cbn [savedUrls setBaseUrl setEnvironment setSavedUrls].
    unfold m, spread_with, member. apply get_prop_obj_define.
  - destruct (two_env_map_member (savedUrls s) e Hm) as [u Hu].
    destruct (two_env_map_member (savedUrls s) (environment s) Hm) as [u0 Hu0].
    exists (setBaseUrl u (setEnvironment e s)),
      (setBaseUrl u0 (setEnvironment (environment s) (setBaseUrl u (setEnvironment e s)))).
    split; [now apply selectEnvironment_saved | split; [ | exact Hu0]].
    apply selectEnvironment_saved; [cbn; congruence | exact Hu0].
Qed.

Lemma environment_round_trip_witness :
  exists s1 s2,
    selectEnvironment production
      (fst (saveBaseUrl MobileApp ∅ (setBaseUrl (js "http://localhost:3000") initial)))
    = LoadedState s1
    /\ selectEnvironment development s1 = LoadedState s2
    /\ baseUrl s2 = js "http://localhost:3000".
Proof.
  apply (proj1 (environment_round_trip ∅
                  (setBaseUrl (js "http://localhost:3000") initial) production
                  (ex_intro _ [] (ex_intro _ [] (or_introl eq_refl)))
                  ltac:(discriminate))).
Defined.

(** ** Copying the response *)

Lemma copyToClipboard_granted (sh : Shell) (s : AppState) (d : Device) :
  clipboard_granted d = true ->
  copyToClipboard sh s d
  = (setCopied true s,
     {| clipboard := response s; clipboard_granted := true; clock := clock d;
        timers := schedule (clock d + 2000) (setCopied false) (timers d) |}).
Proof.
  intros H. destruct sh; simpl;
    unfold Web.copyToClipboard, Mobile.copyToClipboard, writeText, setTimeout;
    rewrite H; reflexivity.
Qed.

(** X16: when the write to the clipboard is allowed, both shells put the
    response on the clipboard and set the copy mark.  When it is rejected,
    the clipboard keeps what it held; the browser shell, which does not wait
    for the write, sets the copy mark all the same, and the mobile shell
    changes nothing. *)
Theorem copy_to_clipboard (s : AppState) (d : Device) :
  (clipboard_granted d = true ->
   forall sh, clipboard (snd (copyToClipboard sh s d)) = response s
              /\ fst (copyToClipboard sh s d) = setCopied true s)
  /\ (clipboard_granted d = false ->
      clipboard (snd (copyToClipboard Browser s d)) = clipboard d
      /\ fst (copyToClipboard Browser s d) = setCopied true s
      /\ copyToClipboard MobileApp s d = (s, d)).
Proof.
  split.
  - intros H sh. rewrite copyToClipboard_granted by exact H. split; reflexivity.
  - intros H. simpl.
    unfold Web.copyToClipboard, Mobile.copyToClipboard, writeText, setTimeout.
    rewrite H. repeat split; reflexivity.
Qed.

Lemma copy_to_clipboard_witness :
  let d := {| clipboard := js "old"; clipboard_granted := false; clock := 0;
              timers := [] |} in
  let s := setResponse (js "null") initial in
  clipboard (snd (copyToClipboard Browser s d)) = js "old"
  /\ fst (copyToClipboard Browser s d) = setCopied true s
  /\ copyToClipboard MobileApp s d = (s, d).
Proof.
  intros d s. apply (proj2 (copy_to_clipboard s d)). reflexivity.
Defined.

(** X17: the copy mark goes off 2000 milliseconds after the copy.  When the
    response is copied again before that, the timer of the first copy still
    fires: the mark goes off 2000 milliseconds after the first copy, however
    late the second one was. *)
Theorem copy_mark_timer (sh : Shell) (s : AppState) (d : Device) (d1 d2 : Z) :
  clipboard_granted d = true -> timers d = [] -> 0 <= d1 -> 0 <= d2 ->
  fst (elapse d1 (copyToClipboard sh s d)) = setCopied (d1 <? 2000) s
  /\ (d1 < 2000 ->
      let w := elapse d1 (copyToClipboard sh s d) in
      fst (elapse d2 (copyToClipboard sh (fst w) (snd w)))
      = setCopied (d1 + d2 <? 2000) s).
Proof.
  intros Hg Ht H1 H2. rewrite copyToClipboard_granted by exact Hg.
  rewrite Ht. cbn [schedule]. split.
  - unfold elapse. cbn [clock timers run_due].
    destruct (Z.leb_spec (clock d + 2000) (clock d + d1));
      destruct (Z.ltb_spec d1 2000); try lia; cbn [fst]; destruct s; reflexivity.
  - intros Hd. cbv zeta.
    assert (Hw : elapse d1
                   (setCopied true s,
                    {| clipboard := response s; clipboard_granted := true;
                       clock := clock d;
                       timers := [(clock d + 2000, setCopied false)] |})
                 = (setCopied true s,
                    {| clipboard := response s; clipboard_granted := true;
                       clock := clock d + d1;
                       timers := [(clock d + 2000, setCopied false)] |})).
    { unfold elapse. cbn [clock timers run_due clipboard clipboard_granted].
      destruct (Z.leb_spec (clock d + 2000) (clock d + d1)); [lia | reflexivity]. }
    rewrite Hw. cbn [fst snd]. rewrite copyToClipboard_granted by reflexivity.
    cbn [clock timers schedule response setCopied].
    destruct (Z.leb_spec (clock d + 2000) (clock d + d1 + 2000)); [ | lia].
    unfold elapse. cbn [clock timers run_due fst].
    destruct (Z.leb_spec (clock d + 2000) (clock d + d1 + d2));
      destruct (Z.ltb_spec (d1 + d2) 2000); try lia.
    + destruct (Z.leb_spec (clock d + d1 + 2000) (clock d + d1 + d2));
        cbn [fst]; destruct s; reflexivity.
    + cbn [fst]. destruct s; reflexivity.
Qed.

Lemma copy_mark_timer_witness :
  let d := {| clipboard := []; clipboard_granted := true; clock := 0; timers := [] |} in
  let s := setResponse (js "null") initial in
  fst (elapse 1500 (copyToClipboard Browser s d)) = setCopied true s
  /\ (let w := elapse 1500 (copyToClipboard Browser s d) in
      fst (elapse 600 (copyToClipboard Browser (fst w) (snd w))) = setCopied false s).
Proof.
  intros d s.
  destruct (copy_mark_timer Browser s d 1500 600) as [H1 H2];
    [reflexivity | reflexivity | lia | lia | ].
  split; [exact H1 | apply H2; lia].
Defined.

(** * Highlighting the response *)

(** ** The matcher *)

Lemma iterate_bound (m : RegExp.Matcher) :
  (forall prev s k n, m prev s k = Some n ->
     exists prev' i n', (i <= length s)%nat /\ k prev' (drop i s) = Some n'
                        /\ n = (i + n')%nat) ->
  forall fuel prev s k n, RegExp.iterate m k fuel prev s = Some n ->
    exists prev' i n', (i <= length s)%nat /\ k prev' (drop i s) = Some n'
                       /\ n = (i + n')%nat.
Proof.
  intros Hm fuel. induction fuel as [ | fuel IH]; intros prev s k n H.
  - exists prev, O, n. simpl in H. rewrite drop_0. auto with lia.
  - cbn [RegExp.iterate] in H.
    destruct (m prev s _) as [n0 | ] eqn:E.
    + injection H as ->. apply Hm in E as (p1 & i1 & n1 & Hi1 & Hk1 & ->).
      destruct (length (drop i1 s) <? length s)%nat; [ | discriminate].
      apply IH in Hk1 as (p2 & i2 & n2 & Hi2 & Hk2 & ->).
      rewrite length_drop in Hi2. rewrite drop_drop in Hk2.
      exists p2, (i1 + i2)%nat, n2. repeat split; [lia | exact Hk2 | lia].
    + exists prev, O, n. rewrite drop_0. auto with lia.
Qed.

(** A match ends inside the input: the result of a matcher is a number of
    characters of the input followed by the result of its continuation. *)
Lemma matcher_bound (r : RegExp.pattern) :
  forall prev s k n, RegExp.matcher r prev s k = Some n ->
    exists prev' i n', (i <= length s)%nat /\ k prev' (drop i s) = Some n'
                       /\ n = (i + n')%nat.
Proof.
  induction r as [ | c | inv rs | a IHa b IHb | a IHa b IHb | a IHa | a IHa | | | ];
    intros prev s k n H; cbn [RegExp.matcher] in H.
  - exists prev, O, n. rewrite drop_0. auto with lia.
  - destruct s as [ | c' s']; [discriminate | ].
    destruct (c =? c')%N; [ | discriminate].
    destruct (k (Some c') s') as [n' | ] eqn:E; [ | discriminate].
    injection H as <-. exists (Some c'), 1%nat, n'. simpl. rewrite drop_0. auto with lia.
  - destruct s as [ | c' s']; [discriminate | ].
    destruct (RegExp.in_class inv rs c'); [ | discriminate].
    destruct (k (Some c') s') as [n' | ] eqn:E; [ | discriminate].
    injection H as <-. exists (Some c'), 1%nat, n'. simpl. rewrite drop_0. auto with lia.
  - apply IHa in H as (p1 & i1 & n1 & Hi1 & Hk1 & ->).
    apply IHb in Hk1 as (p2 & i2 & n2 & Hi2 & Hk2 & ->).
    rewrite length_drop in Hi2. rewrite drop_drop in Hk2.
    exists p2, (i1 + i2)%nat, n2. repeat split; [lia | exact Hk2 | lia].
  - destruct (RegExp.matcher a prev s k) as [n0 | ] eqn:E.
    + injection H as ->. now apply IHa in E.
    + now apply IHb in H.
  - now apply (iterate_bound (RegExp.matcher a) IHa) in H.
  - destruct (RegExp.matcher a prev s _) as [n0 | ] eqn:E.
    + injection H as ->. apply IHa in E as (p1 & i1 & n1 & Hi1 & Hk1 & ->).
      destruct (length (drop i1 s) <? length s)%nat; [ | discriminate].
      exists p1, i1, n1. auto.
    + exists prev, O, n. rewrite drop_0. auto with lia.
  - destruct (xorb _ _); [ | discriminate].
    exists prev, O, n. rewrite drop_0. auto with lia.
  - destruct prev; [discriminate | ].
    exists None, O, n. rewrite drop_0. auto with lia.
  - destruct s; [ | discriminate].
    exists prev, O, n. auto with lia.
Qed.

Lemma match_at_bound (r : RegExp.pattern) (prev : option N) (s : jsstring) (n : nat) :
  RegExp.match_at r prev s = Some n -> (n <= length s)%nat.
Proof.
  intros H. apply matcher_bound in H as (p & i & n' & Hi & [= <-] & ->). lia.
Qed.

(** ** The replacement *)

Lemma replace_from_enough (r : RegExp.pattern) (f : jsstring -> jsstring)
  (fuel1 fuel2 : nat) :
  forall prev s, (length s < fuel1)%nat -> (length s < fuel2)%nat ->
    RegExp.replace_from fuel1 r f prev s = RegExp.replace_from fuel2 r f prev s.
Proof.
  revert fuel2. induction fuel1 as [ | fuel1 IH]; intros fuel2 prev s H1 H2; [lia | ].
  destruct fuel2 as [ | fuel2]; [lia | ].
  cbn [RegExp.replace_from].
  destruct (RegExp.match_at r prev s) as [[ | n] | ] eqn:E.
  - destruct s as [ | c s']; [reflexivity | ].
    simpl in H1, H2. rewrite (IH fuel2) by lia. reflexivity.
  - apply match_at_bound in E.
    rewrite (IH fuel2); [reflexivity | rewrite length_drop; lia ..].
  - destruct s as [ | c s']; [reflexivity | ].
    simpl in H1, H2. rewrite (IH fuel2) by lia. reflexivity.
Qed.

Lemma highlight_skip (prev : option N) (c : N) (s : jsstring) :
  RegExp.match_at Web.tokenPattern prev (c :: s) = None ->
  highlight_from prev (c :: s) = c :: highlight_from (Some c) s.
Proof.
  intros H. unfold highlight_from. cbn [RegExp.replace_from length].
  rewrite H. reflexivity.
Qed.

Lemma ending_app (prev : option N) (a b : jsstring) :
  RegExp.ending prev (a ++ b) = RegExp.ending (RegExp.ending prev a) b.
Proof. revert prev. induction a as [ | c a IH]; intros prev; simpl; auto. Qed.

Lemma highlight_token (prev : option N) (t rest : jsstring) :
  t <> [] ->
  RegExp.match_at Web.tokenPattern prev (t ++ rest) = Some (length t) ->
  highlight_from prev (t ++ rest)
  = Web.tokenSpan t ++ highlight_from (RegExp.ending prev t) rest.
Proof.
  intros Hne H. unfold highlight_from.
  set (after := RegExp.replace_from (S (length rest)) Web.tokenPattern Web.tokenSpan
                  (RegExp.ending prev t) rest).
  cbn [RegExp.replace_from]. rewrite H. destruct t as [ | c t']; [congruence | ].
  cbn [length]. change (S (length t')) with (length (c :: t')).
  rewrite take_app_length, drop_app_length. f_equal.
  apply replace_from_enough; rewrite ?length_app; simpl; lia.
Qed.

Lemma highlight_nil (prev : option N) : highlight_from prev [] = [].
Proof.
  unfold highlight_from. cbn [RegExp.replace_from length].
  assert (H : RegExp.match_at Web.tokenPattern prev [] = None).
  { unfold RegExp.match_at, Web.tokenPattern. cbn.
    destruct (xorb (RegExp.word_before prev) false); reflexivity. }
  rewrite H. reflexivity.
Qed.

(** ** Iterations *)

Lemma ltb_app_length (chunk rest : jsstring) :
  chunk <> [] -> (length rest <? length (chunk ++ rest))%nat = true.
Proof.
  intros H. apply Nat.ltb_lt. rewrite length_app.
  destruct chunk; [congruence | simpl; lia].
Qed.

Lemma iterate_stop (m : RegExp.Matcher) (k : option N -> jsstring -> option nat)
  (fuel : nat) (prev : option N) (s : jsstring) :
  (forall k0, m prev s k0 = None) -> RegExp.iterate m k fuel prev s = k prev s.
Proof. intros H. destruct fuel; simpl; [reflexivity | now rewrite H]. Qed.

Lemma iterate_step (m : RegExp.Matcher) (k : option N -> jsstring -> option nat)
  (fuel : nat) (prev : option N) (chunk rest : jsstring) (n : nat) :
  chunk <> [] ->
  (forall k0, m prev (chunk ++ rest) k0
              = option_map (Nat.add (length chunk)) (k0 (RegExp.ending prev chunk) rest)) ->
  RegExp.iterate m k fuel (RegExp.ending prev chunk) rest = Some n ->
  RegExp.iterate m k (S fuel) prev (chunk ++ rest) = Some (length chunk + n)%nat.
Proof.
  intros Hne Hm Hn. cbn [RegExp.iterate]. rewrite Hm.
  rewrite ltb_app_length by exact Hne. rewrite Hn. reflexivity.
Qed.

Lemma opt_skip (a : RegExp.pattern) (k : option N -> jsstring -> option nat)
  (prev : option N) (s : jsstring) :
  (forall k0, RegExp.matcher a prev s k0 = None) ->
  RegExp.matcher (RegExp.Opt a) prev s k = k prev s.
Proof. intros H. cbn [RegExp.matcher]. now rewrite H. Qed.

Lemma opt_take (a : RegExp.pattern) (k : option N -> jsstring -> option nat)
  (prev : option N) (chunk rest : jsstring) (n : nat) :
  chunk <> [] ->
  (forall k0, RegExp.matcher a prev (chunk ++ rest) k0
              = option_map (Nat.add (length chunk)) (k0 (RegExp.ending prev chunk) rest)) ->
  k (RegExp.ending prev chunk) rest = Some n ->
  RegExp.matcher (RegExp.Opt a) prev (chunk ++ rest) k = Some (length chunk + n)%nat.
Proof.
  intros Hne Hm Hn. cbn [RegExp.matcher]. rewrite Hm.
  rewrite ltb_app_length by exact Hne. rewrite Hn. reflexivity.
Qed.

(** ** Classes *)

Lemma in_class_one (invert : bool) (a c : N) :
  RegExp.in_class invert [(a, a)] c = xorb invert (c =? a)%N.
Proof.
  unfold RegExp.in_class. cbn [existsb fst snd]. f_equal.
  destruct (N.eqb_spec c a) as [-> | H].
  - now rewrite N.leb_refl.
  - rewrite orb_false_r. apply andb_false_iff.
    destruct (N.leb_spec a c); [right; apply N.leb_gt; lia | now left].
Qed.

Lemma in_class_two (invert : bool) (a b c : N) :
  RegExp.in_class invert [(a, a); (b, b)] c = xorb invert ((c =? a) || (c =? b))%N.
Proof.
  pose proof (in_class_one false a c) as Ha. pose proof (in_class_one false b c) as Hb.
  unfold RegExp.in_class in *. cbn [existsb fst snd xorb] in *.
  rewrite orb_false_r in Ha, Hb. now rewrite orb_false_r, Ha, Hb.
Qed.

Lemma digit_class_spec (c : N) :
  RegExp.in_class false RegExp.digit_class c = is_digit c.
Proof.
  unfold RegExp.in_class, RegExp.digit_class, is_digit. cbn [existsb fst snd xorb].
  now rewrite orb_false_r.
Qed.

Lemma digit_is_word (c : N) :
  is_digit c = true -> RegExp.in_class false RegExp.word_class c = true.
Proof.
  unfold is_digit, c_zero. intros H. apply andb_true_iff in H as [H1 H2].
  unfold RegExp.in_class, RegExp.word_class. cbn [existsb fst snd xorb].
  rewrite H1, H2. now rewrite !orb_true_r.
Qed.

Lemma hex_digit_alnum (d : N) :
  (d < 16)%N ->
  RegExp.in_class false [(97, 122); (65, 90); (48, 57)]%N (hex_digit d) = true.
Proof.
  intros H.
  assert (Hd : (d = 0 \/ d = 1 \/ d = 2 \/ d = 3 \/ d = 4 \/ d = 5 \/ d = 6
                \/ d = 7 \/ d = 8 \/ d = 9 \/ d = 10 \/ d = 11 \/ d = 12
                \/ d = 13 \/ d = 14 \/ d = 15)%N) by lia.
  repeat (destruct Hd as [-> | Hd]; [reflexivity | ]). subst. reflexivity.
Qed.

(** ** The text of a string *)

Lemma unit_literal (c : N) :
  (c =? c_quote)%N = false -> (c =? c_backslash)%N = false -> string_unit_text [c].
Proof.
  intros Hq Hb. split; [discriminate | ]. intros prev rest k.
  unfold Web.stringUnit. cbn [RegExp.matcher app].
  rewrite (N.eqb_sym c_backslash c), Hb.
  rewrite in_class_two, Hb, Hq. cbn [orb xorb length RegExp.ending].
  destruct (k (Some c) rest); reflexivity.
Qed.

Lemma unit_escape (x : N) :
  (x =? c_u)%N = false -> string_unit_text [c_backslash; x].
Proof.
  intros Hu. split; [discriminate | ]. intros prev rest k.
  unfold Web.stringUnit. cbn [RegExp.matcher app].
  rewrite N.eqb_refl, (N.eqb_sym c_u x), Hu.
  rewrite in_class_one, Hu. cbn [xorb option_map length RegExp.ending].
  destruct (k (Some x) rest); reflexivity.
Qed.

Lemma unit_unicode (c : N) : string_unit_text (unicode_escape c).
Proof.
  split; [discriminate | ]. intros prev rest k.
  unfold Web.stringUnit, unicode_escape. cbn [RegExp.matcher RegExp.Times app].
  rewrite !N.eqb_refl.
  rewrite !hex_digit_alnum by (apply N.mod_lt; discriminate).
  cbn [length RegExp.ending].
  destruct (k (Some (hex_digit (c mod 16))) rest); reflexivity.
Qed.

Lemma unit_quote_unit (c : N) : string_unit_text (quote_unit c).
Proof.
  unfold quote_unit.
  repeat match goal with
         | |- context [(c =? ?k)%N] =>
             destruct (N.eqb_spec c k); [apply unit_escape; reflexivity | ]
         end.
  destruct ((c <? 32)%N || is_high_surrogate c || is_low_surrogate c);
    [apply unit_unicode | ].
  apply unit_literal; apply N.eqb_neq; assumption.
Qed.

Lemma string_unit_stops (prev : option N) (rest : jsstring)
  (k : option N -> jsstring -> option nat) :
  RegExp.matcher Web.stringUnit prev (c_quote :: rest) k = None.
Proof. reflexivity. Qed.

Lemma string_body_step (chunk : jsstring) (k : option N -> jsstring -> option nat)
  (fuel : nat) (prev : option N) (rest : jsstring) (n : nat) :
  string_unit_text chunk ->
  RegExp.iterate (RegExp.matcher Web.stringUnit) k fuel (RegExp.ending prev chunk) rest
  = Some n ->
  RegExp.iterate (RegExp.matcher Web.stringUnit) k (S fuel) prev (chunk ++ rest)
  = Some (length chunk + n)%nat.
Proof.
  intros [Hne Hm] Hn. apply iterate_step; [exact Hne | | exact Hn].
  intros k0. apply Hm.
Qed.

(** The star of the string pattern takes the whole text of a string. *)
Lemma string_body (len : nat) (k : option N -> jsstring -> option nat) :
  forall (s : jsstring) (fuel : nat) (prev : option N) (rest : jsstring) (n : nat),
    (length s <= len)%nat -> (length (quote_units s) <= fuel)%nat ->
    k (RegExp.ending prev (quote_units s)) (c_quote :: rest) = Some n ->
    RegExp.iterate (RegExp.matcher Web.stringUnit) k fuel prev
      (quote_units s ++ c_quote :: rest)
    = Some (length (quote_units s) + n)%nat.
Proof.
  induction len as [ | len IH]; intros s fuel prev rest n Hlen Hfuel Hk.
  - destruct s; [ | simpl in Hlen; lia]. cbn [quote_units app length] in *.
    rewrite iterate_stop by (intros k0; apply string_unit_stops). exact Hk.
  - destruct s as [ | c r].
    { cbn [quote_units app length] in *.
      rewrite iterate_stop by (intros k0; apply string_unit_stops). exact Hk. }
    simpl in Hlen. cbn [quote_units] in *.
    destruct (is_high_surrogate c) eqn:Hh.
    + destruct r as [ | d r'].
      * destruct fuel as [ | fuel]; [simpl in Hfuel; lia | ].
        rewrite (string_body_step (unicode_escape c) k fuel prev (c_quote :: rest) n
                   (unit_unicode c)); [reflexivity | ].
        rewrite iterate_stop by (intros k0; apply string_unit_stops). exact Hk.
      * destruct (is_low_surrogate d) eqn:Hl.
        -- destruct (surrogate_literal c) as (A1 & A2 & _); [now rewrite Hh | ].
           destruct (surrogate_literal d) as (B1 & B2 & _);
             [now rewrite Hl, orb_true_r | ].
           cbn [length] in Hfuel.
           destruct fuel as [ | [ | fuel]]; [lia | lia | ].
           change ((c :: d :: quote_units r') ++ c_quote :: rest)
             with ([c] ++ [d] ++ (quote_units r' ++ c_quote :: rest)).
           rewrite (string_body_step [c] k (S fuel) prev _
                      (S (length (quote_units r') + n)) (unit_literal c A1 A2)).
           ++ cbn [length]. f_equal; lia.
           ++ rewrite (string_body_step [d] k fuel _ _
                         (length (quote_units r') + n) (unit_literal d B1 B2));
                [reflexivity | ].
              apply IH; [simpl in Hlen; lia | lia | exact Hk].
        -- rewrite length_app in Hfuel. cbn [unicode_escape length] in Hfuel.
           destruct fuel as [ | fuel]; [lia | ].
           rewrite <- app_assoc.
           rewrite (string_body_step (unicode_escape c) k fuel prev _
                      (length (quote_units (d :: r')) + n) (unit_unicode c)).
           ++ rewrite length_app. f_equal; lia.
           ++ apply IH; [simpl in *; lia | lia | ].
              rewrite ending_app in Hk. exact Hk.
    + pose proof (unit_quote_unit c) as Hu.
      assert (Hl : (1 <= length (quote_unit c))%nat).
      { destruct Hu as [Hne _]. destruct (quote_unit c); [congruence | simpl; lia]. }
      rewrite length_app in Hfuel.
      destruct fuel as [ | fuel]; [lia | ].
      rewrite <- app_assoc.
      rewrite (string_body_step (quote_unit c) k fuel prev _
                 (length (quote_units r) + n) Hu).
      * rewrite length_app. f_equal; lia.
      * apply IH; [lia | lia | ]. rewrite ending_app in Hk. exact Hk.
Qed.

(** White space and a colon: no match when no colon is ahead. *)
Lemma no_colon_iterate (kc : option N -> jsstring -> option nat) (fuel : nat) :
  (forall p, kc p [] = None) ->
  (forall p c r, (c =? c_colon)%N = false -> kc p (c :: r) = None) ->
  forall prev s,
    no_colon_ahead s = true ->
    RegExp.iterate (RegExp.matcher (RegExp.Class false RegExp.space_class)) kc fuel prev s
    = None.
Proof.
  intros Hnil Hcons.
  assert (Hkc : forall p s, no_colon_ahead s = true -> kc p s = None).
  { intros p [ | c r] H; [apply Hnil | ]. apply Hcons. cbn [no_colon_ahead] in H.
    destruct (RegExp.in_class false RegExp.space_class c) eqn:Hs.
    - destruct (N.eqb_spec c c_colon) as [-> | Hc]; [discriminate Hs | reflexivity].
    - now apply negb_true_iff in H. }
  induction fuel as [ | fuel IH]; intros prev s H.
  - cbn [RegExp.iterate]. now apply Hkc.
  - cbn [RegExp.iterate RegExp.matcher]. rewrite (Hkc prev s H).
    destruct s as [ | c r]; [reflexivity | ].
    cbn [no_colon_ahead] in H.
    destruct (RegExp.in_class false RegExp.space_class c) eqn:Hs; [ | reflexivity].
    assert (Hlt : (length r <? length (c :: r))%nat = true)
      by (apply Nat.ltb_lt; simpl; lia).
    rewrite Hlt, IH by exact H. reflexivity.
Qed.

Lemma colon_ahead_none (prev : option N) (s : jsstring)
  (k : option N -> jsstring -> option nat) :
  no_colon_ahead s = true -> RegExp.matcher Web.colonAhead prev s k = None.
Proof.
  intros H. unfold Web.colonAhead. cbn [RegExp.matcher].
  apply (no_colon_iterate
           (fun prev' s' =>
              match s' with
              | [] => None
              | c' :: s'0 =>
                  if (c_colon =? c')%N then option_map S (k (Some c') s'0) else None
              end)); [reflexivity | | exact H].
  intros p c r Hc. now rewrite N.eqb_sym, Hc.
Qed.

Lemma colon_ahead_here (prev : option N) (rest : jsstring)
  (k : option N -> jsstring -> option nat) :
  RegExp.matcher Web.colonAhead prev (c_colon :: rest) k
  = option_map S (k (Some c_colon) rest).
Proof.
  unfold Web.colonAhead. cbn [RegExp.matcher length RegExp.iterate].
  reflexivity.
Qed.

Lemma length_quote (s : jsstring) : length (quote s) = S (S (length (quote_units s))).
Proof. unfold quote. simpl. rewrite length_app. simpl. lia. Qed.

Lemma string_pattern_units (s rest : jsstring) (prev : option N)
  (k : option N -> jsstring -> option nat) (n : nat) :
  RegExp.matcher (RegExp.Opt Web.colonAhead) (Some c_quote) rest k = Some n ->
  RegExp.matcher Web.stringPattern prev (quote s ++ rest) k
  = Some (length (quote s) + n)%nat.
Proof.
  intros Hk. unfold Web.stringPattern, quote.
  cbn [app]. rewrite <- app_assoc. cbn [app].
  cbn [RegExp.matcher]. rewrite N.eqb_refl.
  rewrite (string_body (length s) _ s _ _ rest (S n)); [ | lia | | ].
  - cbn [option_map]. f_equal. cbn [length]. rewrite length_app. simpl. lia.
  - rewrite length_app. simpl. lia.
  - cbn [RegExp.matcher]. rewrite N.eqb_refl.
    cbn [RegExp.matcher] in Hk. rewrite Hk. reflexivity.
Qed.

(** A string that is a value: the match is the string. *)
Lemma match_string (s rest : jsstring) (prev : option N) :
  no_colon_ahead rest = true ->
  RegExp.match_at Web.tokenPattern prev (quote s ++ rest) = Some (length (quote s)).
Proof.
  intros H. unfold RegExp.match_at, Web.tokenPattern. cbn [RegExp.matcher].
  rewrite (string_pattern_units s rest prev _ O).
  - f_equal; lia.
  - rewrite opt_skip; [reflexivity | ]. intros k0. now apply colon_ahead_none.
Qed.

(** A string that is a key: the match is the string and its colon. *)
Lemma match_key (s rest : jsstring) (prev : option N) :
  RegExp.match_at Web.tokenPattern prev ((quote s ++ [c_colon]) ++ rest)
  = Some (length (quote s ++ [c_colon])).
Proof.
  unfold RegExp.match_at, Web.tokenPattern. cbn [RegExp.matcher].
  rewrite <- app_assoc. cbn [app].
  rewrite (string_pattern_units s (c_colon :: rest) prev _ 1).
  - f_equal. rewrite length_app. simpl. lia.
  - cbn [RegExp.matcher]. rewrite colon_ahead_here.
    assert (Hlt : (length rest <? length (c_colon :: rest))%nat = true)
      by (apply Nat.ltb_lt; simpl; lia).
    rewrite Hlt. reflexivity.
Qed.

(** ** The text of a number *)

Lemma nonempty_length {A : Type} (l : list A) : (0 < length l)%nat -> l <> [].
Proof. destruct l; simpl; [lia | discriminate]. Qed.

(** The parts of what [format_digits] prints. *)
Lemma format_digits_shape (k : nat) (s n : Z) :
  (0 < k)%nat ->
  exists ip fp ex,
    format_digits k s n = ip ++ fraction_text fp ++ exponent_text ex
    /\ forallb is_digit ip = true /\ ip <> []
    /\ forallb is_digit fp = true
    /\ match ex with
       | Some (_, ep) => forallb is_digit ep = true /\ ep <> []
       | None => True
       end.
Proof.
  intros Hk.
  pose proof (digits_of_digits k s) as Hdig.
  pose proof (digits_of_length k s) as Hlen.
  unfold format_digits.
  set (ds := digits_of k s) in *.
  set (kz := Z.of_nat k).
  assert (Hds : ds <> []) by (apply nonempty_length; lia).
  destruct ((kz <=? n) && (n <=? 21)) eqn:C1.
  { exists (ds ++ repeat c_zero (Z.to_nat (n - kz))), [], None.
    cbn [fraction_text exponent_text]. rewrite !app_nil_r.
    repeat split.
    - rewrite forallb_app, Hdig. apply zeros_are_digits.
    - destruct ds; [congruence | discriminate]. }
  destruct ((0 <? n) && (n <=? 21)) eqn:C2.
  { apply andb_true_iff in C2 as [C2 C2']. apply Z.ltb_lt in C2. apply Z.leb_le in C2'.
    assert (Hnk : n < kz).
    { destruct (Z.leb_spec kz n); [ | lia].
      destruct (Z.leb_spec n 21); [discriminate | lia]. }
    destruct (forallb_take_drop is_digit (Z.to_nat n) ds Hdig) as [Ht Hd].
    exists (take (Z.to_nat n) ds), (drop (Z.to_nat n) ds), None.
    cbn [exponent_text]. rewrite app_nil_r.
    rewrite fraction_text_cons
      by (apply nonempty_length; rewrite length_drop; subst kz; lia).
    repeat split; [exact Ht | | exact Hd].
    apply nonempty_length. rewrite length_take. subst kz. lia. }
  destruct ((-6 <? n) && (n <=? 0)) eqn:C3.
  { exists [c_zero], (repeat c_zero (Z.to_nat (- n)) ++ ds), None.
    cbn [exponent_text]. rewrite app_nil_r.
    rewrite fraction_text_cons
      by (destruct (repeat c_zero (Z.to_nat (- n))); [exact Hds | discriminate]).
    repeat split; [discriminate | ].
    rewrite forallb_app, zeros_are_digits, Hdig. reflexivity. }
  destruct (decimal_spec (Z.abs (n - 1)) ltac:(lia)) as (He1 & He2 & _).
  destruct (Nat.eqb_spec k 1) as [-> | Hk1].
  { exists ds, [], (Some (negb (0 <? n - 1), decimal (Z.abs (n - 1)))).
    rewrite exponent_part_text. cbn [fraction_text app].
    repeat split; assumption. }
  { destruct (forallb_take_drop is_digit 1 ds Hdig) as [Ht Hd].
    exists (take 1 ds), (drop 1 ds), (Some (negb (0 <? n - 1), decimal (Z.abs (n - 1)))).
    rewrite exponent_part_text.
    rewrite fraction_text_cons by (apply nonempty_length; rewrite length_drop; lia).
    repeat split; try assumption.
    apply nonempty_length. rewrite length_take. lia. }
Qed.

(** The parts of the text of a finite number. *)
Lemma number_text_shape (x : number) :
  is_finite x = true -> canonical_number x ->
  exists neg ip fp ex,
    number_to_string x = sign_text neg ++ ip ++ fraction_text fp ++ exponent_text ex
    /\ forallb is_digit ip = true /\ ip <> []
    /\ forallb is_digit fp = true
    /\ match ex with
       | Some (_, ep) => forallb is_digit ep = true /\ ep <> []
       | None => True
       end.
Proof.
  destruct x as [ | neg | neg | neg m e]; try discriminate; intros _ Hc.
  - exists false, [c_zero], [], None. repeat split; discriminate.
  - cbn [number_to_string canonical_number] in *.
    destruct (shortest m e) as [[k s] n] eqn:Hs.
    destruct (shortest_spec m e k s n Hc Hs) as (Hk & _ & _).
    destruct (format_digits_shape k s n Hk) as (ip & fp & ex & -> & H).
    exists neg, ip, fp, ex. split; [reflexivity | exact H].
Qed.

(** ** Matching a number *)

Lemma digit_class_fails (prev : option N) (s : jsstring)
  (k : option N -> jsstring -> option nat) :
  match s with [] => true | c :: _ => negb (is_digit c) end = true ->
  RegExp.matcher (RegExp.Class false RegExp.digit_class) prev s k = None.
Proof.
  destruct s as [ | c r]; [reflexivity | ]. intros H. cbn [RegExp.matcher].
  rewrite digit_class_spec. apply negb_true_iff in H. now rewrite H.
Qed.

(** The star of the digits takes all the digits. *)
Lemma digits_iterate (ds : jsstring) :
  forall (k : option N -> jsstring -> option nat) (fuel : nat) (prev : option N)
         (rest : jsstring) (n : nat),
    forallb is_digit ds = true -> (length ds <= fuel)%nat ->
    match rest with [] => true | c :: _ => negb (is_digit c) end = true ->
    k (RegExp.ending prev ds) rest = Some n ->
    RegExp.iterate (RegExp.matcher (RegExp.Class false RegExp.digit_class)) k fuel prev
      (ds ++ rest)
    = Some (length ds + n)%nat.
Proof.
  induction ds as [ | c ds IH]; intros k fuel prev rest n Hd Hfuel Hrest Hk.
  - cbn [app length RegExp.ending] in *.
    rewrite iterate_stop by (intros k0; now apply digit_class_fails). exact Hk.
  - cbn [forallb] in Hd. apply andb_true_iff in Hd as [Hc Hd].
    cbn [length] in Hfuel. destruct fuel as [ | fuel]; [lia | ].
    change ((c :: ds) ++ rest) with ([c] ++ (ds ++ rest)).
    rewrite (iterate_step _ k fuel prev [c] (ds ++ rest) (length ds + n)).
    + reflexivity.
    + discriminate.
    + intros k0. cbn [RegExp.matcher app length RegExp.ending].
      rewrite digit_class_spec, Hc. destruct (k0 (Some c) (ds ++ rest)); reflexivity.
    + apply IH; [exact Hd | lia | exact Hrest | exact Hk].
Qed.

(** One or more digits. *)
Lemma digits_plus (ds : jsstring) (k : option N -> jsstring -> option nat)
  (prev : option N) (rest : jsstring) (n : nat) :
  forallb is_digit ds = true -> ds <> [] ->
  match rest with [] => true | c :: _ => negb (is_digit c) end = true ->
  k (RegExp.ending prev ds) rest = Some n ->
  RegExp.matcher (RegExp.Plus (RegExp.Class false RegExp.digit_class)) prev (ds ++ rest) k
  = Some (length ds + n)%nat.
Proof.
  intros Hd Hne Hrest Hk. destruct ds as [ | c ds]; [congruence | ].
  cbn [forallb] in Hd. apply andb_true_iff in Hd as [Hc Hd].
  unfold RegExp.Plus. cbn [RegExp.matcher app].
  rewrite digit_class_spec, Hc.
  rewrite (digits_iterate ds k _ (Some c) rest n); [reflexivity | exact Hd | | exact Hrest | exact Hk].
  rewrite length_app. lia.
Qed.

Lemma after_number_head (rest : jsstring) :
  closes rest = true ->
  match rest with
  | [] => True
  | c :: _ => is_digit c = false /\ (c =? c_dot)%N = false /\ (c =? c_e)%N = false
              /\ (c =? c_E)%N = false
  end.
Proof.
  unfold closes. intros H. apply andb_true_iff in H as [_ H].
  destruct rest as [ | c r]; [exact I | ].
  apply andb_true_iff in H as [Hw Hd]. apply negb_true_iff in Hw, Hd.
  repeat split.
  - destruct (is_digit c) eqn:E; [ | reflexivity].
    apply digit_is_word in E. congruence.
  - exact Hd.
  - destruct (N.eqb_spec c c_e) as [-> | ]; [discriminate Hw | reflexivity].
  - destruct (N.eqb_spec c c_E) as [-> | ]; [discriminate Hw | reflexivity].
Qed.

(** The optional exponent. *)
Lemma exponent_opt (ex : option (bool * jsstring)) (prev : option N) (rest : jsstring) :
  match ex with
  | Some (_, ep) => forallb is_digit ep = true /\ ep <> []
  | None => True
  end ->
  closes rest = true ->
  RegExp.matcher (RegExp.Opt Web.exponentPattern) prev (exponent_text ex ++ rest)
    (fun _ _ => Some O)
  = Some (length (exponent_text ex)).
Proof.
  intros Hex Hrest. pose proof (after_number_head rest Hrest) as Hhead.
  assert (Hnd : match rest with [] => true | c :: _ => negb (is_digit c) end = true).
  { destruct rest as [ | c r]; [reflexivity | ]. destruct Hhead as (-> & _). reflexivity. }
  destruct ex as [[eneg ep] | ].
  - destruct Hex as [Hep Hne]. cbn [exponent_text].
    set (sign := if eneg then c_minus else c_plus).
    assert (Hsign : RegExp.in_class false [(c_plus, c_plus); (c_minus, c_minus)] sign = true)
      by (subst sign; destruct eneg; reflexivity).
    cbn [RegExp.matcher app]. unfold Web.exponentPattern. cbn [RegExp.matcher].
    change (RegExp.in_class false [(c_e, c_e); (c_E, c_E)] c_e) with true. cbv iota.
    rewrite Hsign.
    assert (L1 : (length (ep ++ rest) <? length (sign :: ep ++ rest))%nat = true)
      by (apply Nat.ltb_lt; simpl; lia).
    rewrite L1.
    rewrite (digits_plus ep _ (Some sign) rest O Hep Hne Hnd).
    + cbn [option_map length]. f_equal. lia.
    + assert (L2 : (length rest <? length (c_e :: sign :: ep ++ rest))%nat = true)
        by (apply Nat.ltb_lt; simpl; rewrite length_app; lia).
      rewrite L2. reflexivity.
  - cbn [exponent_text app length]. rewrite opt_skip; [reflexivity | ].
    intros k0. unfold Web.exponentPattern. cbn [RegExp.matcher].
    destruct rest as [ | c r]; [reflexivity | ].
    destruct Hhead as (_ & _ & He & HE).
    rewrite in_class_two, He, HE. reflexivity.
Qed.

Lemma exponent_text_head (ex : option (bool * jsstring)) (rest : jsstring) :
  closes rest = true ->
  match exponent_text ex ++ rest with
  | [] => True
  | c :: _ => is_digit c = false /\ (c =? c_dot)%N = false
  end.
Proof.
  intros H. destruct ex as [[eneg ep] | ].
  - cbn [exponent_text app]. split; reflexivity.
  - cbn [exponent_text app]. pose proof (after_number_head rest H) as Hh.
    destruct rest; [exact I | tauto].
Qed.

(** The optional fraction and the optional exponent. *)
Lemma fraction_opt (fp : jsstring) (ex : option (bool * jsstring)) (prev : option N)
  (rest : jsstring) :
  forallb is_digit fp = true ->
  match ex with
  | Some (_, ep) => forallb is_digit ep = true /\ ep <> []
  | None => True
  end ->
  closes rest = true ->
  RegExp.matcher
    (RegExp.Seq (RegExp.Opt Web.fractionPattern) (RegExp.Opt Web.exponentPattern))
    prev (fraction_text fp ++ exponent_text ex ++ rest) (fun _ _ => Some O)
  = Some (length (fraction_text fp ++ exponent_text ex)).
Proof.
  intros Hfp Hex Hrest.
  pose proof (exponent_text_head ex rest Hrest) as Hhead.
  assert (Hnd : match exponent_text ex ++ rest with
                | [] => true
                | c :: _ => negb (is_digit c)
                end = true).
  { destruct (exponent_text ex ++ rest); [reflexivity | ].
    destruct Hhead as (-> & _). reflexivity. }
  cbn [RegExp.matcher].
  destruct fp as [ | f0 fp'].
  - cbn [fraction_text app].
    change (RegExp.matcher (RegExp.Opt Web.fractionPattern) prev (exponent_text ex ++ rest)
              (fun prev' s' =>
                 RegExp.matcher (RegExp.Opt Web.exponentPattern) prev' s'
                   (fun _ _ => Some O))
            = Some (length (exponent_text ex))).
    rewrite opt_skip.
    + now apply exponent_opt.
    + intros k0. unfold Web.fractionPattern. cbn [RegExp.matcher].
      destruct (exponent_text ex ++ rest) as [ | c r]; [reflexivity | ].
      destruct Hhead as (_ & Hd). now rewrite N.eqb_sym, Hd.
  - cbn [fraction_text]. set (fp := f0 :: fp') in *.
    change ((c_dot :: fp) ++ exponent_text ex ++ rest)
      with (c_dot :: fp ++ exponent_text ex ++ rest).
    unfold Web.fractionPattern. cbn [RegExp.matcher]. rewrite N.eqb_refl.
    rewrite (digits_iterate fp _ _ (Some c_dot) (exponent_text ex ++ rest)
               (length (exponent_text ex))); [ | exact Hfp | rewrite length_app; lia | exact Hnd | ].
    + cbn [option_map]. f_equal. cbn [length app]. rewrite !length_app. lia.
    + assert (L : (length (exponent_text ex ++ rest)
                   <? length (c_dot :: fp ++ exponent_text ex ++ rest))%nat = true)
        by (apply Nat.ltb_lt; simpl; rewrite !length_app; lia).
      rewrite L. now apply exponent_opt.
Qed.

Lemma string_pattern_fails (c : N) (s : jsstring) (prev : option N)
  (k : option N -> jsstring -> option nat) :
  (c_quote =? c)%N = false -> RegExp.matcher Web.stringPattern prev (c :: s) k = None.
Proof. intros H. unfold Web.stringPattern. cbn [RegExp.matcher]. now rewrite H. Qed.

Lemma word_pattern_fails (c : N) (s : jsstring) (prev : option N)
  (k : option N -> jsstring -> option nat) :
  (c_t =? c)%N = false -> (c_f =? c)%N = false -> (c_n =? c)%N = false ->
  RegExp.matcher Web.wordPattern prev (c :: s) k = None.
Proof.
  intros Ht Hf Hn. unfold Web.wordPattern. cbn [RegExp.matcher].
  destruct (xorb _ _); [ | reflexivity].
  unfold RegExp.Str. cbn [js list_ascii_of_string List.map fold_right RegExp.matcher].
  change (ch "t") with c_t. change (ch "f") with c_f. change (ch "n") with c_n.
  now rewrite Ht, Hf, Hn.
Qed.

Lemma digit_not_letter (c : N) :
  is_digit c = true ->
  (c_quote =? c)%N = false /\ (c_t =? c)%N = false /\ (c_f =? c)%N = false
  /\ (c_n =? c)%N = false /\ (c_minus =? c)%N = false.
Proof.
  unfold is_digit, c_zero. intros H. apply andb_true_iff in H as [H1 H2].
  apply N.leb_le in H1, H2.
  repeat split; apply N.eqb_neq; unfold c_quote, c_t, c_f, c_n, c_minus; lia.
Qed.

Lemma fraction_text_head (fp : jsstring) (ex : option (bool * jsstring))
  (rest : jsstring) :
  closes rest = true ->
  match fraction_text fp ++ exponent_text ex ++ rest with
  | [] => true
  | c :: _ => negb (is_digit c)
  end = true.
Proof.
  intros H. destruct fp as [ | f0 fp']; [ | reflexivity].
  cbn [fraction_text app]. pose proof (exponent_text_head ex rest H) as Hh.
  destruct (exponent_text ex ++ rest); [reflexivity | ].
  destruct Hh as (-> & _). reflexivity.
Qed.

(** The number pattern takes the whole text of a number. *)
Lemma match_number_parts (neg : bool) (ip fp : jsstring) (ex : option (bool * jsstring))
  (prev : option N) (rest : jsstring) :
  forallb is_digit ip = true -> ip <> [] -> forallb is_digit fp = true ->
  match ex with
  | Some (_, ep) => forallb is_digit ep = true /\ ep <> []
  | None => True
  end ->
  closes rest = true ->
  RegExp.match_at Web.tokenPattern prev
    ((sign_text neg ++ ip ++ fraction_text fp ++ exponent_text ex) ++ rest)
  = Some (length (sign_text neg ++ ip ++ fraction_text fp ++ exponent_text ex)).
Proof.
  intros Hip Hne Hfp Hex Hrest.
  assert (Hdigits :
    forall prev',
      RegExp.matcher
        (RegExp.Seq (RegExp.Plus (RegExp.Class false RegExp.digit_class))
           (RegExp.Seq (RegExp.Opt Web.fractionPattern) (RegExp.Opt Web.exponentPattern)))
        prev' (ip ++ fraction_text fp ++ exponent_text ex ++ rest) (fun _ _ => Some O)
      = Some (length (ip ++ fraction_text fp ++ exponent_text ex))).
  { intros prev'. cbn [RegExp.matcher].
    change (RegExp.matcher (RegExp.Plus (RegExp.Class false RegExp.digit_class)) prev'
              (ip ++ fraction_text fp ++ exponent_text ex ++ rest)
              (fun prev0 s0 =>
                 RegExp.matcher
                   (RegExp.Seq (RegExp.Opt Web.fractionPattern)
                      (RegExp.Opt Web.exponentPattern)) prev0 s0 (fun _ _ => Some O))
            = Some (length (ip ++ fraction_text fp ++ exponent_text ex))).
    rewrite (digits_plus ip _ prev' _ (length (fraction_text fp ++ exponent_text ex))
               Hip Hne (fraction_text_head fp ex rest Hrest)).
    - f_equal. rewrite !length_app. lia.
    - now apply fraction_opt. }
  destruct ip as [ | i0 ip']; [congruence | ].
  assert (Hi0 : is_digit i0 = true)
    by (cbn [forallb] in Hip; now apply andb_true_iff in Hip).
  destruct (digit_not_letter i0 Hi0) as (Q & T & F & Nn & M).
  unfold RegExp.match_at, Web.tokenPattern. rewrite <- !app_assoc.
  destruct neg; cbn [sign_text app].
  - cbn [RegExp.matcher].
    rewrite string_pattern_fails by reflexivity.
    rewrite word_pattern_fails by reflexivity.
    unfold Web.numberPattern. cbn [RegExp.matcher]. rewrite N.eqb_refl.
    assert (L : (length ((i0 :: ip') ++ fraction_text fp ++ exponent_text ex ++ rest)
                 <? length (c_minus :: (i0 :: ip') ++ fraction_text fp
                              ++ exponent_text ex ++ rest))%nat = true)
      by (apply Nat.ltb_lt; simpl; lia).
    change (i0 :: ip' ++ fraction_text fp ++ exponent_text ex ++ rest)
      with ((i0 :: ip') ++ fraction_text fp ++ exponent_text ex ++ rest).
    rewrite L.
    pose proof (Hdigits (Some c_minus)) as Hd. cbn [RegExp.matcher] in Hd.
    rewrite Hd. reflexivity.
  - cbn [RegExp.matcher].
    rewrite string_pattern_fails by exact Q.
    rewrite word_pattern_fails by assumption.
    unfold Web.numberPattern. cbn [RegExp.matcher]. rewrite M.
    change (i0 :: ip' ++ fraction_text fp ++ exponent_text ex ++ rest)
      with ((i0 :: ip') ++ fraction_text fp ++ exponent_text ex ++ rest).
    pose proof (Hdigits prev) as Hd. cbn [RegExp.matcher] in Hd.
    rewrite Hd. reflexivity.
Qed.

(** The text of a finite number is one match. *)
Lemma match_number (x : number) (prev : option N) (rest : jsstring) :
  is_finite x = true -> canonical_number x -> closes rest = true ->
  RegExp.match_at Web.tokenPattern prev (number_to_string x ++ rest)
  = Some (length (number_to_string x)).
Proof.
  intros Hf Hc Hrest.
  destruct (number_text_shape x Hf Hc) as (neg & ip & fp & ex & -> & H1 & H2 & H3 & H4).
  now apply match_number_parts.
Qed.

(** ** Matching a word *)

Lemma match_true (prev : option N) (rest : jsstring) :
  RegExp.word_before prev = false -> RegExp.word_at rest = false ->
  RegExp.match_at Web.tokenPattern prev (js "true" ++ rest) = Some 4%nat.
Proof.
  intros Hp Hr. unfold RegExp.match_at, Web.tokenPattern, Web.stringPattern,
    Web.wordPattern, RegExp.Str.
  cbn [js list_ascii_of_string List.map fold_right app RegExp.matcher].
  cbn. rewrite Hp. cbn. rewrite Hr. reflexivity.
Qed.

Lemma match_false (prev : option N) (rest : jsstring) :
  RegExp.word_before prev = false -> RegExp.word_at rest = false ->
  RegExp.match_at Web.tokenPattern prev (js "false" ++ rest) = Some 5%nat.
Proof.
  intros Hp Hr. unfold RegExp.match_at, Web.tokenPattern, Web.stringPattern,
    Web.wordPattern, RegExp.Str.
  cbn [js list_ascii_of_string List.map fold_right app RegExp.matcher].
  cbn. rewrite Hp. cbn. rewrite Hr. reflexivity.
Qed.

Lemma match_null (prev : option N) (rest : jsstring) :
  RegExp.word_before prev = false -> RegExp.word_at rest = false ->
  RegExp.match_at Web.tokenPattern prev (js "null" ++ rest) = Some 4%nat.
Proof.
  intros Hp Hr. unfold RegExp.match_at, Web.tokenPattern, Web.stringPattern,
    Web.wordPattern, RegExp.Str.
  cbn [js list_ascii_of_string List.map fold_right app RegExp.matcher].
  cbn. rewrite Hp. cbn. rewrite Hr. reflexivity.
Qed.

(** ** Between the tokens *)

(** No match starts at a character that is not a quote, a minus sign, a
    digit, or one of the letters t, f and n. *)
Lemma no_match_at (c : N) (s : jsstring) (prev : option N) :
  (c_quote =? c)%N = false -> (c_t =? c)%N = false -> (c_f =? c)%N = false ->
  (c_n =? c)%N = false -> (c_minus =? c)%N = false -> is_digit c = false ->
  RegExp.match_at Web.tokenPattern prev (c :: s) = None.
Proof.
  intros Q T F Nn M D. unfold RegExp.match_at, Web.tokenPattern. cbn [RegExp.matcher].
  rewrite string_pattern_fails by exact Q.
  rewrite word_pattern_fails by assumption.
  unfold Web.numberPattern, RegExp.Plus. cbn [RegExp.matcher].
  now rewrite M, digit_class_spec, D.
Qed.

(** ** The class of a match *)

Lemma search_start_later (r : RegExp.pattern) (s : jsstring) :
  forall c, RegExp.search (RegExp.Seq RegExp.InputStart r) (Some c) s = false.
Proof.
  induction s as [ | d s IH]; intros c; cbn [RegExp.search RegExp.match_at RegExp.matcher];
    [reflexivity | apply IH].
Qed.

Lemma test_starts_with (q c : N) (m : jsstring) :
  RegExp.test (RegExp.Seq RegExp.InputStart (RegExp.Chr q)) (c :: m) = (q =? c)%N.
Proof.
  unfold RegExp.test. cbn [RegExp.search RegExp.match_at RegExp.matcher].
  destruct (q =? c)%N; [reflexivity | apply search_start_later].
Qed.

Lemma search_ends_with (c : N) (t : jsstring) :
  forall prev, RegExp.search (RegExp.Seq (RegExp.Chr c) RegExp.InputEnd) prev (t ++ [c])
               = true.
Proof.
  induction t as [ | d t IH]; intros prev.
  - cbn [app RegExp.search RegExp.match_at RegExp.matcher]. now rewrite N.eqb_refl.
  - cbn [app RegExp.search].
    destruct (RegExp.match_at _ prev (d :: t ++ [c])); [reflexivity | apply IH].
Qed.

Lemma search_not_ends_with (c d : N) (t : jsstring) :
  (c =? d)%N = false ->
  forall prev, RegExp.search (RegExp.Seq (RegExp.Chr c) RegExp.InputEnd) prev (t ++ [d])
               = false.
Proof.
  intros Hcd. induction t as [ | x t IH]; intros prev.
  - cbn [app RegExp.search RegExp.match_at RegExp.matcher]. now rewrite Hcd.
  - cbn [app RegExp.search RegExp.match_at RegExp.matcher].
    assert (Hend : match t ++ [d] with
                   | [] => Some O
                   | _ :: _ => None
                   end = @None nat) by (destruct t; reflexivity).
    rewrite Hend. destruct (c =? x)%N; apply IH.
Qed.

(** A pattern that cannot start at any character of a text is not found in
    it. *)
Lemma search_nowhere (r : RegExp.pattern) (P : N -> bool) (t : jsstring) :
  (forall prev, RegExp.match_at r prev [] = None) ->
  (forall prev c s, P c = true -> RegExp.match_at r prev (c :: s) = None) ->
  forallb P t = true ->
  forall prev, RegExp.search r prev t = false.
Proof.
  intros Hnil Hcons. induction t as [ | c t IH]; intros Ht prev.
  - cbn [RegExp.search]. now rewrite Hnil.
  - cbn [forallb] in Ht. apply andb_true_iff in Ht as [Hc Ht].
    cbn [RegExp.search]. rewrite (Hcons prev c t Hc). now apply IH.
Qed.

Lemma num_char_not_letter (c : N) :
  is_num_char c = true ->
  (c_quote =? c)%N = false /\ (c_t =? c)%N = false /\ (c_f =? c)%N = false
  /\ (c_n =? c)%N = false.
Proof.
  unfold is_num_char. intros H.
  repeat (apply orb_true_iff in H as [H | H]);
    try (apply N.eqb_eq in H; subst; repeat split; reflexivity).
  destruct (digit_not_letter c H) as (Q & T & F & Nn & _). auto.
Qed.

Lemma tokenSpan_class (k : Kind) (m : jsstring) :
  (if RegExp.test (RegExp.Seq RegExp.InputStart (RegExp.Chr c_quote)) m then
     if RegExp.test (RegExp.Seq (RegExp.Chr c_colon) RegExp.InputEnd) m
     then js "text-red-600"
     else js "text-purple-600"
   else if RegExp.test (RegExp.Alt (RegExp.Str "true") (RegExp.Str "false")) m
   then js "text-blue-600"
   else if RegExp.test (RegExp.Str "null") m then js "text-gray-600"
   else js "text-green-600") = class_of k ->
  Web.tokenSpan m = span_of k m.
Proof. intros H. unfold Web.tokenSpan, span_of. cbv zeta. now rewrite H. Qed.

Lemma span_key (s : jsstring) :
  Web.tokenSpan (quote s ++ [c_colon]) = span_of KeyToken (quote s ++ [c_colon]).
Proof.
  apply tokenSpan_class. unfold quote. cbn [app].
  rewrite test_starts_with. cbn [N.eqb c_quote Pos.eqb].
  unfold RegExp.test.
  change (c_quote :: (quote_units s ++ [c_quote]) ++ [c_colon])
    with ((c_quote :: quote_units s ++ [c_quote]) ++ [c_colon]).
  now rewrite search_ends_with.
Qed.

Lemma span_string (s : jsstring) :
  Web.tokenSpan (quote s) = span_of StringToken (quote s).
Proof.
  apply tokenSpan_class. unfold quote. rewrite test_starts_with.
  cbn [N.eqb c_quote Pos.eqb].
  unfold RegExp.test.
  change (c_quote :: quote_units s ++ [c_quote])
    with ((c_quote :: quote_units s) ++ [c_quote]).
  now rewrite search_not_ends_with.
Qed.

Lemma span_number (t : jsstring) :
  t <> [] -> forallb is_num_char t = true ->
  Web.tokenSpan t = span_of NumberToken t.
Proof.
  intros Hne Hall. apply tokenSpan_class.
  destruct t as [ | c t']; [congruence | ].
  rewrite test_starts_with.
  assert (Hc : is_num_char c = true)
    by (cbn [forallb] in Hall; now apply andb_true_iff in Hall).
  destruct (num_char_not_letter c Hc) as (-> & _).
  unfold RegExp.test.
  rewrite (search_nowhere _ is_num_char (c :: t')); [ | | | exact Hall].
  - rewrite (search_nowhere _ is_num_char (c :: t')); [reflexivity | | | exact Hall].
    + reflexivity.
    + intros prev d s Hd. destruct (num_char_not_letter d Hd) as (_ & _ & _ & Hn).
      unfold RegExp.match_at, RegExp.Str.
      cbn [js list_ascii_of_string List.map fold_right RegExp.matcher].
      change (ch "n") with c_n. now rewrite Hn.
  - reflexivity.
  - intros prev d s Hd. destruct (num_char_not_letter d Hd) as (_ & Ht & Hf & _).
    unfold RegExp.match_at, RegExp.Str.
    cbn [js list_ascii_of_string List.map fold_right RegExp.matcher].
    change (ch "t") with c_t. change (ch "f") with c_f. now rewrite Ht, Hf.
Qed.

(** ** The tokens *)

Lemma closes_word_at (rest : jsstring) : closes rest = true -> RegExp.word_at rest = false.
Proof.
  unfold closes. intros H. apply andb_true_iff in H as [_ H].
  destruct rest as [ | c r]; [reflexivity | ].
  apply andb_true_iff in H as [H _]. now apply negb_true_iff in H.
Qed.

Lemma closes_no_colon (rest : jsstring) : closes rest = true -> no_colon_ahead rest = true.
Proof. unfold closes. intros H. now apply andb_true_iff in H as [H _]. Qed.

Lemma paints_null : paints_to (js "null") (span_of NullToken (js "null")).
Proof.
  intros prev rest Hp Hr.
  rewrite highlight_token;
    [reflexivity | discriminate | now apply match_null; [ | apply closes_word_at]].
Qed.

Lemma paints_true : paints_to (js "true") (span_of BooleanToken (js "true")).
Proof.
  intros prev rest Hp Hr.
  rewrite highlight_token;
    [reflexivity | discriminate | now apply match_true; [ | apply closes_word_at]].
Qed.

Lemma paints_false : paints_to (js "false") (span_of BooleanToken (js "false")).
Proof.
  intros prev rest Hp Hr.
  rewrite highlight_token;
    [reflexivity | discriminate | now apply match_false; [ | apply closes_word_at]].
Qed.

Lemma number_text_chars (x : number) :
  is_finite x = true -> canonical_number x ->
  number_to_string x <> [] /\ forallb is_num_char (number_to_string x) = true.
Proof.
  intros Hf Hc.
  assert (Hs : parse_number (number_to_string x) = Some (match x with
                                                         | Zero _ => Zero false
                                                         | _ => x
                                                         end)).
  { destruct x as [ | neg | neg | neg m e]; try discriminate.
    - reflexivity.
    - now apply canonical_survives. }
  apply parse_number_shape in Hs as (c & t' & -> & _ & Hall).
  split; [discriminate | exact Hall].
Qed.

Lemma paints_number (x : number) :
  is_finite x = true -> canonical_number x ->
  paints_to (number_to_string x) (span_of NumberToken (number_to_string x)).
Proof.
  intros Hf Hc prev rest Hp Hr.
  destruct (number_text_chars x Hf Hc) as [Hne Hall].
  rewrite highlight_token; [ | exact Hne | now apply match_number].
  now rewrite span_number.
Qed.

Lemma quote_nonempty (s : jsstring) : quote s <> [].
Proof. discriminate. Qed.

Lemma paints_string (s : jsstring) : paints_to (quote s) (span_of StringToken (quote s)).
Proof.
  intros prev rest Hp Hr.
  rewrite highlight_token;
    [ | apply quote_nonempty | apply match_string; now apply closes_no_colon].
  now rewrite span_string.
Qed.

Lemma highlight_key (s rest : jsstring) (prev : option N) :
  highlight_from prev ((quote s ++ [c_colon]) ++ rest)
  = span_of KeyToken (quote s ++ [c_colon]) ++ highlight_from (Some c_colon) rest.
Proof.
  rewrite highlight_token; [ | destruct (quote s); discriminate | apply match_key].
  rewrite span_key. f_equal. f_equal.
  rewrite ending_app. reflexivity.
Qed.

(** ** Between the tokens *)

Lemma highlight_layout (c : N) (s : jsstring) (prev : option N) :
  layout_char c = true ->
  highlight_from prev (c :: s) = c :: highlight_from (Some c) s.
Proof.
  intros H. apply highlight_skip. unfold layout_char in H.
  repeat (apply orb_true_iff in H as [H | H]);
    apply N.eqb_eq in H; subst c; now apply no_match_at.
Qed.

Lemma highlight_spaces (w : jsstring) :
  spaces w ->
  forall prev s, highlight_from prev (w ++ s) = w ++ highlight_from (RegExp.ending prev w) s.
Proof.
  induction 1 as [ | c w -> Hw IH]; intros prev s; [reflexivity | ].
  cbn [app RegExp.ending]. rewrite highlight_layout by reflexivity.
  now rewrite IH.
Qed.

Lemma ending_snoc (prev : option N) (a : jsstring) (c : N) :
  RegExp.ending prev (a ++ [c]) = Some c.
Proof. now rewrite ending_app. Qed.

Lemma ending_spaces (prev : option N) (w : jsstring) :
  spaces w -> RegExp.word_before prev = false ->
  RegExp.word_before (RegExp.ending prev w) = false.
Proof.
  intros Hw. revert prev. induction Hw as [ | c w -> Hw IH]; intros prev Hp;
    [exact Hp | ].
  cbn [RegExp.ending]. now apply IH.
Qed.

Lemma no_colon_spaces (w : jsstring) (c : N) (s : jsstring) :
  spaces w -> RegExp.in_class false RegExp.space_class c = false ->
  (c =? c_colon)%N = false -> no_colon_ahead (w ++ c :: s) = true.
Proof.
  intros Hw Hs Hc. induction Hw as [ | d w -> Hw IH].
  - cbn [app no_colon_ahead]. now rewrite Hs, Hc.
  - cbn [app no_colon_ahead]. exact IH.
Qed.

Lemma closes_comma (s : jsstring) : closes (c_comma :: s) = true.
Proof. reflexivity. Qed.

Lemma closes_line (w : jsstring) (c : N) (s : jsstring) :
  spaces w -> RegExp.in_class false RegExp.space_class c = false ->
  (c =? c_colon)%N = false -> closes (c_lf :: w ++ c :: s) = true.
Proof.
  intros Hw Hs Hc. unfold closes. cbn [no_colon_ahead].
  change (RegExp.in_class false RegExp.space_class c_lf) with true. cbv iota.
  rewrite no_colon_spaces by assumption. reflexivity.
Qed.

(** ** The layout of an array or an object *)

Lemma paint_join (indent : jsstring) (parts outs : list jsstring) (tail : jsstring) :
  spaces indent -> Forall2 paints_to parts outs -> parts <> [] ->
  closes tail = true ->
  forall prev, RegExp.word_before prev = false ->
    exists prev',
      highlight_from prev (join (c_comma :: c_lf :: indent) parts ++ tail)
      = join (c_comma :: c_lf :: indent) outs ++ highlight_from prev' tail.
Proof.
  intros Hind HF. induction HF as [ | p o ps os Hp HF IH]; [congruence | ].
  intros _ Htail prev Hprev. destruct HF as [ | p' o' ps' os' Hp' HF'].
  - cbn [join]. eexists. now apply Hp.
  - change (join (c_comma :: c_lf :: indent) (p :: p' :: ps'))
      with (p ++ (c_comma :: c_lf :: indent)
              ++ join (c_comma :: c_lf :: indent) (p' :: ps')).
    change (join (c_comma :: c_lf :: indent) (o :: o' :: os'))
      with (o ++ (c_comma :: c_lf :: indent)
              ++ join (c_comma :: c_lf :: indent) (o' :: os')).
    rewrite <- !app_assoc. rewrite Hp by (exact Hprev || reflexivity).
    cbn [app]. rewrite !highlight_layout by reflexivity.
    rewrite highlight_spaces by exact Hind.
    destruct (IH ltac:(discriminate) Htail (RegExp.ending (Some c_lf) indent)) as [prev' H].
    { now apply ending_spaces. }
    exists prev'. rewrite H. rewrite <- ?app_assoc. cbn [app].
    rewrite <- ?app_assoc. reflexivity.
Qed.

Lemma paint_wrap (gap stepback : jsstring) (l r : N) (parts outs : list jsstring) :
  layout_char l = true -> layout_char r = true ->
  RegExp.in_class false RegExp.space_class r = false ->
  gap <> [] -> spaces gap -> spaces stepback ->
  Forall2 paints_to parts outs ->
  paints_to (wrap gap stepback l r parts) (wrap gap stepback l r outs).
Proof.
  intros Hl Hr Hrs Hne Hgap Hstep HF prev rest Hprev Hrest. unfold wrap.
  assert (Hrc : (r =? c_colon)%N = false).
  { unfold layout_char in Hr.
    repeat (apply orb_true_iff in Hr as [Hr | Hr]);
      apply N.eqb_eq in Hr; subst r; reflexivity. }
  destruct HF as [ | p o ps os Hp HF].
  - cbn [app RegExp.ending]. now rewrite !highlight_layout.
  - assert (HF' : Forall2 paints_to (p :: ps) (o :: os)) by (constructor; assumption).
    destruct gap as [ | g gap']; [congruence | ].
    assert (Hind : spaces (stepback ++ g :: gap')) by (apply Forall_app; split; assumption).
    set (ind := stepback ++ g :: gap') in *.
    cbn [app]. rewrite !highlight_layout by (assumption || reflexivity).
    rewrite <- !app_assoc. rewrite highlight_spaces by exact Hind.
    destruct (paint_join ind (p :: ps) (o :: os) (c_lf :: stepback ++ [r] ++ rest)
                Hind HF' ltac:(discriminate)
                (closes_line stepback r rest Hstep Hrs Hrc)
                (RegExp.ending (Some c_lf) ind)) as [prev' H].
    { now apply ending_spaces. }
    assert (Hend : forall X : jsstring,
              RegExp.ending prev (l :: c_lf :: ind ++ X ++ c_lf :: stepback ++ [r])
              = Some r).
    { intros X. rewrite !app_comm_cons, !app_assoc. apply ending_snoc. }
    rewrite Hend. cbn [app] in H |- *.
    rewrite <- (app_assoc stepback [r] rest).
    rewrite <- (app_assoc stepback [r] (highlight_from (Some r) rest)).
    cbn [app]. rewrite H.
    rewrite highlight_layout by reflexivity.
    rewrite highlight_spaces by exact Hstep.
    rewrite highlight_layout by exact Hr.
    reflexivity.
Qed.

(** ** The text of a value *)

Lemma paint_serialize (gap : jsstring) (v : value) :
  gap <> [] -> spaces gap -> well_formed v ->
  forall indent, spaces indent ->
    paints_to (serialize gap indent v) (paint span_of gap indent v).
Proof.
  intros Hne Hgap.
  induction v as [ | b | x | s | xs IH | props IH] using value_induction;
    intros Hwf indent Hind.
  - apply paints_null.
  - destruct b; [apply paints_true | apply paints_false].
  - cbn [serialize paint]. destruct (is_finite x) eqn:Hf.
    + now apply paints_number.
    + apply paints_null.
  - apply paints_string.
  - apply well_formed_arr in Hwf. cbn [serialize paint].
    apply paint_wrap; try assumption; try reflexivity.
    apply (Forall2_map_both paints_to (serialize gap (indent ++ gap))
             (paint span_of gap (indent ++ gap))).
    rewrite List.Forall_forall in *.
    intros x Hx. apply IH; [exact Hx | auto | ].
    apply Forall_app. split; assumption.
  - apply well_formed_obj in Hwf as [_ Hwf]. cbn [serialize paint].
    apply paint_wrap; try assumption; try reflexivity.
    apply (Forall2_map_both paints_to
             (fun kv : jsstring * value =>
                let '(k, v') := kv in
                quote k ++ c_colon :: (if truthy gap then [c_space] else [])
                  ++ serialize gap (indent ++ gap) v')
             (fun kv : jsstring * value =>
                let '(k, v') := kv in
                span_of KeyToken (quote k ++ [c_colon])
                  ++ (if truthy gap then [c_space] else [])
                  ++ paint span_of gap (indent ++ gap) v')).
    rewrite List.Forall_forall in *.
    intros [k v] Hkv prev rest Hprev Hrest.
    assert (Ht : truthy gap = true) by (destruct gap; [congruence | reflexivity]).
    rewrite Ht.
    change (quote k ++ c_colon :: [c_space] ++ serialize gap (indent ++ gap) v)
      with (quote k ++ [c_colon] ++ c_space :: serialize gap (indent ++ gap) v).
    rewrite <- !app_assoc.
    rewrite (app_assoc (quote k) [c_colon]).
    rewrite highlight_key. cbn [app].
    rewrite highlight_layout by reflexivity.
    rewrite (IH (k, v) Hkv (Hwf (k, v) Hkv) (indent ++ gap));
      [ | apply Forall_app; split; assumption | reflexivity | exact Hrest].
    cbn [snd]. do 4 f_equal.
    rewrite (ending_app prev (quote k)). reflexivity.
Qed.

(** Without the spans, the painted text is the text of the value. *)
Lemma paint_plain (gap : jsstring) (v : value) :
  forall indent, paint (fun _ t => t) gap indent v = serialize gap indent v.
Proof.
  induction v as [ | b | x | s | xs IH | props IH] using value_induction;
    intros indent; try reflexivity.
  - cbn [paint serialize]. f_equal.
    apply map_ext_in. intros x Hx. rewrite List.Forall_forall in IH. now apply IH.
  - cbn [paint serialize]. f_equal.
    apply map_ext_in. intros [k x] Hx. rewrite List.Forall_forall in IH.
    rewrite (IH (k, x) Hx). now rewrite <- app_assoc.
Qed.

Lemma paint_reread (mark : Kind -> jsstring -> jsstring) (gap : jsstring) (v : value) :
  forall indent, paint mark gap indent (reread v) = paint mark gap indent v.
Proof.
  induction v as [ | b | x | s | xs IH | props IH] using value_induction;
    intros indent; try reflexivity.
  - destruct x as [ | neg | neg | neg m e]; reflexivity.
  - cbn [reread paint]. f_equal. rewrite map_map.
    apply map_ext_in. intros x Hx. rewrite List.Forall_forall in IH. now apply IH.
  - cbn [reread paint]. f_equal. rewrite map_map.
    apply map_ext_in. intros [k x] Hx. cbn [fst snd].
    rewrite List.Forall_forall in IH. now rewrite (IH (k, x) Hx).
Qed.

Lemma spaces_repeat (n : nat) : spaces (repeat c_space n).
Proof. induction n; simpl; constructor; auto. Qed.

Lemma highlight_stringify (v : value) :
  well_formed v ->
  RegExp.replace Web.tokenPattern Web.tokenSpan (JSON_stringify 2 v)
  = paint span_of (js "  ") [] v.
Proof.
  intros Hwf.
  pose proof (paint_serialize (js "  ") v ltac:(discriminate) (spaces_repeat 2) Hwf []
                (List.Forall_nil _) None [] eq_refl eq_refl) as H.
  rewrite highlight_nil, !app_nil_r in H. exact H.
Qed.

Lemma syntaxHighlight_parsed (json : jsstring) (v : value) :
  JSON_parse json = Some v ->
  Web.syntaxHighlight json = paint span_of (js "  ") [] v.
Proof.
  intros Hp. unfold Web.syntaxHighlight.
  destruct json as [ | c json']; [discriminate Hp | ].
  cbn [truthy]. rewrite Hp. apply highlight_stringify. eapply JSON_parse_wf. exact Hp.
Qed.

(** X18: the highlighted text of a response that is JSON is the text of the
    parsed value at two spaces of indentation, in which every key with its
    colon is in a span of the class of the keys, and every string, number,
    boolean and null is in a span of the class of its kind; nothing else is
    added, so without the spans it is the formatted text. *)
Theorem syntax_highlight_marks_every_token (json : jsstring) (v : value) :
  JSON_parse json = Some v ->
  Web.syntaxHighlight json = paint span_of (js "  ") [] v
  /\ paint (fun _ t => t) (js "  ") [] v = JSON_stringify 2 v.
Proof.
  intros Hp. split; [now apply syntaxHighlight_parsed | apply paint_plain].
Qed.

Lemma syntax_highlight_marks_every_token_witness :
  Web.syntaxHighlight body_a1
  = paint span_of (js "  ") []
      (JObj [(js "a", JNum (Fin false 4503599627370496 (-52)))])
  /\ paint (fun _ t => t) (js "  ") []
       (JObj [(js "a", JNum (Fin false 4503599627370496 (-52)))])
     = JSON_stringify 2 (JObj [(js "a", JNum (Fin false 4503599627370496 (-52)))]).
Proof.
  apply (syntax_highlight_marks_every_token body_a1). vm_compute. reflexivity.
Defined.

Lemma syntaxHighlight_other (json : jsstring) :
  JSON_parse json = None -> Web.syntaxHighlight json = json.
Proof.
  intros Hp. unfold Web.syntaxHighlight. rewrite Hp.
  destruct json; reflexivity.
Qed.

Lemma quote_units_copied (t : jsstring) :
  forallb copied_unit t = true -> quote_units t = t.
Proof.
  induction t as [ | c t IH]; [reflexivity | ].
  cbn [forallb]. intros H. apply andb_true_iff in H as [Hc Ht].
  unfold copied_unit in Hc. apply negb_true_iff in Hc.
  repeat (apply orb_false_iff in Hc as [Hc ?]).
  cbn [quote_units].
  assert (Hh : is_high_surrogate c = false) by assumption.
  rewrite Hh, IH by exact Ht.
  unfold quote_unit.
  assert (H32 : (c <? 32)%N = false) by assumption.
  apply N.ltb_ge in H32.
  repeat match goal with
         | |- context [(c =? ?k)%N] =>
             destruct (N.eqb_spec c k) as [-> | ?];
             [ try (vm_compute in H32; congruence); try discriminate | ]
         end.
  apply N.ltb_ge in H32. rewrite H32.
  assert (Hl : is_low_surrogate c = false) by assumption.
  rewrite Hh, Hl. reflexivity.
Qed.

(** X19: a string of characters that JSON copies as they are is shown between
    its quotes in one span, character for character: markup in a string of
    the response reaches the page as markup. *)
Theorem syntax_highlight_keeps_markup (t : jsstring) :
  forallb copied_unit t = true ->
  Web.syntaxHighlight (c_quote :: t ++ [c_quote])
  = js "<span class=" ++ c_quote :: js "text-purple-600" ++ c_quote :: js ">"
      ++ c_quote :: t ++ [c_quote] ++ js "</span>".
Proof.
  intros Ht.
  assert (Hq : quote t = c_quote :: t ++ [c_quote]).
  { unfold quote. now rewrite quote_units_copied. }
  rewrite <- Hq.
  pose proof (JSON_parse_stringify 0 (JStr t) I) as Hp.
  change (JSON_stringify 0 (JStr t)) with (quote t) in Hp.
  cbn [reread] in Hp.
  rewrite (syntaxHighlight_parsed _ _ Hp).
  cbn [paint]. unfold span_of. cbn [class_of].
  rewrite Hq. cbn [app]. now rewrite <- (app_assoc t [c_quote]).
Qed.

Lemma syntax_highlight_keeps_markup_witness :
  Web.syntaxHighlight (c_quote :: js "<img src=x onerror=alert(1)>" ++ [c_quote])
  = js "<span class=" ++ c_quote :: js "text-purple-600" ++ c_quote :: js ">"
      ++ c_quote :: js "<img src=x onerror=alert(1)>" ++ [c_quote] ++ js "</span>".
Proof.
  apply (syntax_highlight_keeps_markup (js "<img src=x onerror=alert(1)>")).
  reflexivity.
Defined.

(** ** What the response panel shows *)

(** X20: after a submission that received a response with a JSON body, the
    panel of the browser shell has as its HTML the parsed body, formatted
    and with every token in the span of its kind; the panel of the mobile
    shell shows the formatted text. *)
Theorem panel_after_json_response (already_read syntax_error : jsstring)
  (network : jsstring -> RequestInit -> Result (Z * option jsstring))
  (s : AppState) (o : RequestInit) (code : Z) (body : jsstring) (data : value) :
  options_of s = Some o ->
  network (fullUrl_of s) o = Resolved (code, Some body) ->
  JSON_parse body = Some data ->
  let T := standard already_read syntax_error network in
  responsePanel Browser (fst (handleSubmit Browser T s))
  = Html (paint span_of (js "  ") [] data)
  /\ responsePanel MobileApp (fst (handleSubmit MobileApp T s))
     = Text (JSON_stringify 2 data).
Proof.
  intros Ho Hn Hp T.
  pose proof (JSON_parse_wf _ _ Hp) as Hwf.
  pose proof (JSON_parse_stringify 2 data Hwf) as Hr.
  assert (Ht : truthy (JSON_stringify 2 data) = true).
  { destruct (JSON_stringify 2 data) eqn:E; [discriminate Hr | reflexivity]. }
  assert (Hs : forall sh, fst (handleSubmit sh T s)
                          = setLoading false
                              (setResponse (JSON_stringify 2 data)
                                 (setStatusCode (Some code) (started s)))).
  { intros sh. rewrite handleSubmit_unfold, Ho. cbn [fst]. unfold T.
    cbn [fetch standard]. unfold standard_fetch. rewrite Hn.
    unfold received. cbn [json status standard res_status].
    unfold Response_json, consume. cbn [res_body res_used]. rewrite Hp. reflexivity. }
  rewrite !Hs. cbn [responsePanel].
  unfold Web.responsePanel, Mobile.responsePanel.
  cbn [loading response setLoading setResponse]. rewrite Ht.
  split; [ | reflexivity].
  f_equal. rewrite (syntaxHighlight_parsed _ _ Hr). apply paint_reread.
Qed.

Lemma panel_after_json_response_witness :
  let T := respond_with 200 (Some body_a1) in
  responsePanel Browser (fst (handleSubmit Browser T initial))
  = Html (paint span_of (js "  ") []
            (JObj [(js "a", JNum (Fin false 4503599627370496 (-52)))]))
  /\ responsePanel MobileApp (fst (handleSubmit MobileApp T initial))
     = Text (JSON_stringify 2
               (JObj [(js "a", JNum (Fin false 4503599627370496 (-52)))])).
Proof.
  apply (panel_after_json_response (js "Already read") (js "Unexpected token")
           (fun _ _ => Resolved (200, Some body_a1)) initial
           {| init_method := GET; init_headers := headers_of initial;
              init_body := None |} 200 body_a1
           (JObj [(js "a", JNum (Fin false 4503599627370496 (-52)))]));
    [reflexivity | reflexivity | vm_compute; reflexivity].
Defined.

(** X21: with a transport whose response can still be read as text after the
    reading as JSON has failed, a response that is not JSON is shown as it
    is, and the placeholder when it is empty: as text in the mobile shell,
    and as the HTML of the panel, with no character escaped, in the browser
    shell. *)
Theorem panel_after_text_response {R : Type} (T : Transport R) (s : AppState)
  (o : RequestInit) (res res' res'' : R) (e : thrown) (t : jsstring) :
  options_of s = Some o -> fetch T (fullUrl_of s) o = Resolved res ->
  json T res = (Rejected e, res') -> text T res' = (Resolved t, res'') ->
  JSON_parse t = None ->
  responsePanel Browser (fst (handleSubmit Browser T s))
  = Html (or_else t (js "No response body"))
  /\ responsePanel MobileApp (fst (handleSubmit MobileApp T s))
     = Text (or_else t (js "No response body")).
Proof.
  intros Ho Hf Hj Ht Hp.
  assert (Hs : forall sh, fst (handleSubmit sh T s)
                          = setLoading false
                              (setResponse (or_else t (js "No response body"))
                                 (setStatusCode (Some (status T res)) (started s)))).
  { intros sh. rewrite handleSubmit_unfold, Ho, Hf. cbn [fst].
    unfold received. rewrite Hj, Ht. reflexivity. }
  rewrite !Hs. cbn [responsePanel].
  unfold Web.responsePanel, Mobile.responsePanel.
  cbn [loading response setLoading setResponse].
  assert (Hshown : truthy (or_else t (js "No response body")) = true)
    by (destruct t; reflexivity).
  rewrite Hshown. split; [ | reflexivity].
  f_equal. apply syntaxHighlight_other. destruct t; [reflexivity | exact Hp].
Qed.

Lemma panel_after_text_response_witness :
  let T := text_transport 200 (js "<b>hello</b>") in
  responsePanel Browser (fst (handleSubmit Browser T initial))
  = Html (js "<b>hello</b>")
  /\ responsePanel MobileApp (fst (handleSubmit MobileApp T initial))
     = Text (js "<b>hello</b>").
Proof.
  apply (panel_after_text_response (text_transport 200 (js "<b>hello</b>")) initial
           {| init_method := GET; init_headers := headers_of initial;
              init_body := None |} tt tt tt
           (ErrorObject (js "Unexpected token")) (js "<b>hello</b>"));
    [reflexivity | reflexivity | reflexivity | reflexivity | vm_compute; reflexivity].
Defined.

(** ** A response without a body *)

(** X22: with a response of the Fetch standard that has no body, the
    status code is recorded, no error message is left, and the panel of both
    shells shows the placeholder. *)
Theorem panel_after_empty_response (already_read syntax_error : jsstring)
  (network : jsstring -> RequestInit -> Result (Z * option jsstring))
  (s : AppState) (o : RequestInit) (code : Z) :
  options_of s = Some o ->
  network (fullUrl_of s) o = Resolved (code, None) ->
  let T := standard already_read syntax_error network in
  (forall sh, statusCode (fst (handleSubmit sh T s)) = Some code
              /\ error (fst (handleSubmit sh T s)) = [])
  /\ responsePanel Browser (fst (handleSubmit Browser T s))
     = Html (js "No response body")
  /\ responsePanel MobileApp (fst (handleSubmit MobileApp T s))
     = Text (js "No response body").
Proof.
  intros Ho Hn T.
  assert (Hs : forall sh, fst (handleSubmit sh T s)
                          = setLoading false
                              (setResponse (js "No response body")
                                 (setStatusCode (Some code) (started s)))).
  { intros sh. rewrite handleSubmit_unfold, Ho. cbn [fst]. unfold T.
    cbn [fetch standard]. unfold standard_fetch. rewrite Hn. reflexivity. }
  split; [intros sh; rewrite Hs; split; reflexivity | ].
  rewrite !Hs. split; reflexivity.
Qed.

Lemma panel_after_empty_response_witness :
  let T := respond_with 204 None in
  (forall sh, statusCode (fst (handleSubmit sh T initial)) = Some 204
              /\ error (fst (handleSubmit sh T initial)) = [])
  /\ responsePanel Browser (fst (handleSubmit Browser T initial))
     = Html (js "No response body")
  /\ responsePanel MobileApp (fst (handleSubmit MobileApp T initial))
     = Text (js "No response body").
Proof.
  apply (panel_after_empty_response (js "Already read") (js "Unexpected token")
           (fun _ _ => Resolved (204, None)) initial
           {| init_method := GET; init_headers := headers_of initial;
              init_body := None |} 204);
    reflexivity.
Defined.

(** ** Runs of a shell *)

Lemma handleSubmit_savedUrls (sh : Shell) {R : Type} (T : Transport R) (s : AppState) :
  savedUrls (fst (handleSubmit sh T s)) = savedUrls s.
Proof.
  rewrite handleSubmit_unfold. destruct (options_of s) as [o | ]; [ | reflexivity].
  apply (received_frame T s (fetch T (fullUrl_of s) o)).
Qed.

Lemma formatJsonBody_savedUrls (sh : Shell) (s : AppState) :
  savedUrls (formatJsonBody sh s) = savedUrls s.
Proof.
  destruct sh; simpl; unfold Web.formatJsonBody, Mobile.formatJsonBody;
    destruct (JSON_parse (jsonBody s)); reflexivity.
Qed.

Lemma schedule_copy_timers (due : Z) (pending : list (Z * (AppState -> AppState))) :
  Forall (fun t : Z * (AppState -> AppState) => snd t = setCopied false) pending ->
  Forall (fun t : Z * (AppState -> AppState) => snd t = setCopied false)
    (schedule due (setCopied false) pending).
Proof.
  induction 1 as [ | [d' cb] r Hcb HF IH]; simpl.
  - constructor; [reflexivity | constructor].
  - destruct (d' <=? due); constructor; auto.
Qed.

Lemma copyToClipboard_sound (sh : Shell) (s : AppState) (d : Device) :
  copy_timers d ->
  savedUrls (fst (copyToClipboard sh s d)) = savedUrls s
  /\ copy_timers (snd (copyToClipboard sh s d)).
Proof.
  intros Hd. unfold copy_timers in *.
  destruct sh; simpl; unfold Web.copyToClipboard, Mobile.copyToClipboard, writeText;
    destruct (clipboard_granted d); cbn [fst snd savedUrls setCopied timers setTimeout];
    split; try reflexivity; try exact Hd; now apply schedule_copy_timers.
Qed.

Lemma run_due_sound (t : Z) (pending : list (Z * (AppState -> AppState))) :
  Forall (fun t : Z * (AppState -> AppState) => snd t = setCopied false) pending ->
  forall s,
    savedUrls (fst (run_due t pending s)) = savedUrls s
    /\ Forall (fun t : Z * (AppState -> AppState) => snd t = setCopied false)
         (snd (run_due t pending s)).
Proof.
  induction 1 as [ | [due cb] r Hcb HF IH]; intros s; simpl.
  - split; [reflexivity | constructor].
  - destruct (due <=? t).
    + simpl in Hcb. subst cb. destruct (IH (setCopied false s)) as [H1 H2].
      split; [rewrite H1; reflexivity | exact H2].
    + split; [reflexivity | constructor; assumption].
Qed.

Lemma step_sound (sh : Shell) (a : Action) (w : World) :
  sound w -> exists w', step sh a w = Some w' /\ sound w'.
Proof.
  intros (Hm & Hst & Hd).
  assert (Hkeep : forall s', savedUrls s' = savedUrls (state w) ->
            exists w', Some (with_state w s') = Some w' /\ sound w').
  { intros s' Hs'. eexists. split; [reflexivity | ].
    unfold sound, with_state. cbn [state storage device]. rewrite Hs'. auto. }
  destruct a as [m | x | x | x | b | x | x | | e | R T | | | ms]; cbn [step];
    try (apply Hkeep; reflexivity).
  - rewrite saveBaseUrl_unfold. rewrite updateBaseUrl_saved. cbn [settled].
    eexists. split; [reflexivity | ].
    unfold sound, with_state. cbn [state storage device savedUrls setSavedUrls].
    split; [now apply two_env_map_saved | split; [ | exact Hd]].
    right. unfold getItem, setItem. apply lookup_insert_eq.
  - destruct sh; [exists w; split; [reflexivity | unfold sound; auto] | ].
    unfold selectEnvironment.
    destruct (same_environment e (environment (state w))) eqn:E.
    + cbn [settled]. apply Hkeep. reflexivity.
    + destruct (two_env_map_member (savedUrls (state w)) e Hm) as [u Hu].
      unfold Mobile.updateBaseUrl. cbn [savedUrls environment setEnvironment].
      rewrite Hu.
      assert (Hn : savedUrls (state w) <> JNull)
        by (destruct Hm as (d0 & p0 & [-> | ->]); discriminate).
      destruct (savedUrls (state w)) eqn:Es; try congruence;
        cbn [settled]; apply Hkeep; cbn [savedUrls setBaseUrl setEnvironment];
        now rewrite Es.
  - apply Hkeep. apply handleSubmit_savedUrls.
  - apply Hkeep. apply formatJsonBody_savedUrls.
  - destruct (copyToClipboard_sound sh (state w) (device w) Hd) as [H1 H2].
    destruct (copyToClipboard sh (state w) (device w)) as [s' d']. cbn [fst snd] in *.
    eexists. split; [reflexivity | ].
    unfold sound. cbn [state storage device]. rewrite H1. auto.
  - unfold elapse.
    destruct (run_due_sound (clock (device w) + ms) (timers (device w)) Hd (state w))
      as [H1 H2].
    destruct (run_due (clock (device w) + ms) (timers (device w)) (state w))
      as [s' pending]. cbn [fst snd] in *.
    eexists. split; [reflexivity | ].
    unfold sound, copy_timers. cbn [state storage device timers]. rewrite H1. auto.
Qed.

(** X23: from a sound world every run of actions of the user goes through:
    no effect that follows a save or a change of the environment throws or
    gives the base URL field anything but a string.  The world stays sound:
    the saved URLs map the two environment names to strings, the storage
    holds nothing under their key or exactly their text, and the pending
    timers are those of the copy mark. *)
Theorem runs_stay_sound (sh : Shell) (actions : list Action) (w : World) :
  sound w -> exists w', run sh actions w = Some w' /\ sound w'.
Proof.
  revert w. induction actions as [ | a r IH]; intros w Hw; cbn [run].
  - exists w. auto.
  - destruct (step_sound sh a w Hw) as (w1 & -> & Hw1). now apply IH.
Qed.

Lemma runs_stay_sound_witness :
  let w := {| state := initial; storage := ∅;
              device := {| clipboard := []; clipboard_granted := true; clock := 0;
                           timers := [] |} |} in
  exists w',
    run MobileApp
      [EditBaseUrl (js "http://localhost:3000"); PressSave;
       PressEnvironment production; PressCopy; Wait 2500] w = Some w'
    /\ sound w'.
Proof.
  intros w. apply (runs_stay_sound MobileApp
                     [EditBaseUrl (js "http://localhost:3000"); PressSave;
                      PressEnvironment production; PressCopy; Wait 2500] w).
  split; [exists [], []; left; reflexivity | split; [left; reflexivity | constructor]].
Defined.

(** X24: mounting over a storage that holds nothing under the key of the
    saved URLs, or the text of a map from the two environment names to
    strings, succeeds and gives a sound world: the saved URLs are the stored
    map (the initial one when nothing is stored), and the base URL field is
    the URL of the development environment in it. *)
Theorem mount_is_sound (sh : Shell) (st : gmap jsstring jsstring) (d : Device) :
  copy_timers d ->
  (getItem st storage_key = None ->
   exists w, mount sh st d = Some w /\ sound w /\ storage w = st
             /\ savedUrls (state w) = savedUrls initial /\ baseUrl (state w) = [])
  /\ (forall m, two_env_map m -> getItem st storage_key = Some (JSON_stringify 0 m) ->
      exists w, mount sh st d = Some w /\ sound w /\ storage w = st
                /\ savedUrls (state w) = m
                /\ member m (env_key development) = Some (JStr (baseUrl (state w)))).
Proof.
  intros Hd. split.
  - intros Hst. unfold mount.
    assert (Hl : loadSavedUrls sh st initial = LoadedState initial).
    { destruct sh; simpl; unfold Web.loadSavedUrls, Mobile.loadSavedUrls;
        rewrite Hst; reflexivity. }
    rewrite Hl. rewrite updateBaseUrl_unfold. cbn [settled Web.updateBaseUrl].
    eexists. split; [reflexivity | ].
    unfold sound, with_state. cbn [state storage device].
    repeat split; auto.
    exists [], []. left. reflexivity.
  - intros m Hm Hst. unfold mount.
    destruct (two_env_map_member m development Hm) as [u Hu].
    rewrite (loadSavedUrls_of_text sh st initial m u Hst Hm Hu).
    rewrite updateBaseUrl_unfold. unfold Web.updateBaseUrl.
    cbn [savedUrls environment setBaseUrl setSavedUrls initial].
    change (env_key development) with (js "development") in *.
    rewrite Hu. rewrite or_else_nil.
    assert (Hn : m <> JNull) by (destruct Hm as (d0 & p0 & [-> | ->]); discriminate).
    destruct m; try congruence; cbn [settled];
      (eexists; split; [reflexivity | ]);
      unfold sound, with_state; cbn [state storage device savedUrls baseUrl setBaseUrl
                                       setSavedUrls];
      repeat split; auto.
Qed.

Lemma mount_is_sound_witness :
  let d := {| clipboard := []; clipboard_granted := true; clock := 0; timers := [] |} in
  let st := snd (saveBaseUrl Browser ∅ (setBaseUrl (js "http://localhost:3000") initial)) in
  exists w, mount Browser st d = Some w /\ sound w /\ storage w = st
            /\ savedUrls (state w)
               = JObj [(js "development", JStr (js "http://localhost:3000"));
                       (js "production", JStr [])]
            /\ member (JObj [(js "development", JStr (js "http://localhost:3000"));
                             (js "production", JStr [])]) (env_key development)
               = Some (JStr (baseUrl (state w))).
Proof.
  intros d st.
  apply (proj2 (mount_is_sound Browser st d (List.Forall_nil _))
           (JObj [(js "development", JStr (js "http://localhost:3000"));
                  (js "production", JStr [])])).
  - exists (js "http://localhost:3000"), []. left. reflexivity.
  - reflexivity.
Defined.

(** * Examples *)

(** Numbers print as in JavaScript: the shortest digits that read back. *)
Example print_one_tenth :
  option_map number_to_string (parse_number (js "0.1")) = Some (js "0.1")
  /\ option_map number_to_string (parse_number (js "0.30000000000000004"))
     = Some (js "0.30000000000000004")
  /\ option_map number_to_string (parse_number (js "1e21")) = Some (js "1e+21")
  /\ option_map number_to_string (parse_number (js "123456789012345678901234567890"))
     = Some (js "1.2345678901234568e+29")
  /\ option_map number_to_string (parse_number (js "0.0000001")) = Some (js "1e-7")
  /\ option_map number_to_string (parse_number (js "5e-324")) = Some (js "5e-324")
  /\ parse_number (js "9007199254740993") = parse_number (js "9007199254740992")
  /\ parse_number (js "1.7976931348623159e308") = Some (Inf false)
  /\ parse_number (js "01") = None.
Proof. vm_compute. repeat split. Qed.

(** A repeated key keeps its place and takes the last value; an index key
    comes first. *)
Example parse_repeated_and_index_keys :
  JSON_parse
    (c_lbrace :: c_quote :: js "b" ++ c_quote :: js ":1," ++ c_quote :: js "1"
       ++ c_quote :: js ":null," ++ c_quote :: js "b" ++ c_quote :: js ":true}")
  = Some (JObj [(js "1", JNull); (js "b", JBool true)]).
Proof. vm_compute. reflexivity. Qed.

Example stringify_indented :
  JSON_stringify 2 (JObj [(js "a", JArr [JNum (Zero false); JStr [c_tab]]);
                          (js "b", JObj [])])
  = c_lbrace :: c_lf :: js "  " ++ c_quote :: js "a" ++ c_quote :: js ": ["
      ++ c_lf :: js "    0," ++ c_lf :: js "    " ++ c_quote :: c_backslash
      :: js "t" ++ c_quote :: c_lf :: js "  ]," ++ c_lf :: js "  "
      ++ c_quote :: js "b" ++ c_quote :: js ": {}" ++ [c_lf; c_rbrace].
Proof. vm_compute. reflexivity. Qed.

(** A 404 with a JSON body: the status code, the formatted body and the
    bucket of the status code. *)
Example not_found_with_json_body :
  let body := c_lbrace :: c_quote :: js "error" ++ c_quote :: c_colon :: c_quote
                :: js "missing" ++ [c_quote; c_rbrace] in
  let r := fst (handleSubmit Browser (respond_with 404 (Some body)) initial) in
  statusCode r = Some 404
  /\ response r = c_lbrace :: c_lf :: js "  " ++ c_quote :: js "error" ++ c_quote
                    :: js ": " ++ c_quote :: js "missing" ++ [c_quote; c_lf; c_rbrace]
  /\ error r = []
  /\ getStatusCodeColor Browser (statusCode r) = colour Browser ClientError.
Proof. vm_compute. repeat split. Qed.

(** A response without a body (status 204) shows the placeholder. *)
Example no_content_placeholder :
  response (fst (handleSubmit MobileApp (respond_with 204 None) initial))
  = js "No response body".
Proof. vm_compute. reflexivity. Qed.

(** The server cannot be reached. *)
Example unreachable_server :
  statusCode (fst (handleSubmit Browser unreachable initial)) = None
  /\ error (fst (handleSubmit Browser unreachable initial))
     = js "Request failed: Failed to fetch".
Proof. vm_compute. split; reflexivity. Qed.
